(** * mfaliquot.application: the sequence record store

    A shallow embedding of [mfaliquot/application/__init__.py]: the
    [AliquotSequence] record, the [_Heap] wrapper around [heapq], the
    [_SequencesData] store (lock file, primary JSON file, text mirror, id map
    and priority heap) and the [SequencesManager] reservation algorithms.

    Conventions of the embedding.
    - Python exceptions are values of [exn]; a method that can raise runs in
      the monad [M S A := S -> result S A], whose [Raise] outcome keeps the
      state reached when the exception left the method (Python mutates in
      place, so a failed call does not roll anything back).
    - Heap entries are the mutable three-element lists built by
      [_make_heap_entry].  They are shared between the heap and the record
      that owns them, so they live in an object memory [ents] and are
      referred to by address; the heap array is a list of addresses.
    - The id map [_data] owns its records: a slot holds the record's fourteen
      list cells and its [_heap_entry] attribute.
    - Record cells carry the types the module uses them at: integers for
      [seq], [size], [index], [nzilch]; strings for [guide], [factors],
      [cofactor], [res], [time]; a number for [priority] (a rational here,
      a float in Python).  Rows whose cells have other types are outside the
      model and are rejected when a row is decoded. *)

From Stdlib Require Import ZArith QArith String Ascii List Permutation Lia.
From Stdlib Require Import DecimalString Zify ZifyNat.
From stdpp Require Import base option list gmap strings fin_maps sorting.

Local Open Scope Z_scope.

(** ** Exceptions and the state-and-exception monad *)

Inductive exn : Type :=
| LockError
| KeyError (seq : Z)
| ValueError
| TypeError
| AttributeError
| IndexError
| UnboundLocalError
| ZeroDivisionError
| FileNotFoundError
| JSONDecodeError.

(** [except LockError] catches [LockError] and nothing else of the above:
    the module declares [class LockError(Exception): pass] with no subclass. *)
Definition is_LockError (e : exn) : bool :=
  match e with LockError => true | _ => false end.

Inductive result (S A : Type) : Type :=
| Ok (a : A) (s : S)
| Raise (e : exn) (s : S).
Arguments Ok {S A} a s.
Arguments Raise {S A} e s.

Definition M (S A : Type) : Type := S -> result S A.

Definition ret {S A} (a : A) : M S A := fun s => Ok a s.
Definition raise {S A} (e : exn) : M S A := fun s => Raise e s.
Definition bind {S A B} (m : M S A) (k : A -> M S B) : M S B :=
  fun s => match m s with
           | Ok a s' => k a s'
           | Raise e s' => Raise e s'
           end.
Definition get {S} : M S S := fun s => Ok s s.
Definition put {S} (s : S) : M S unit := fun _ => Ok tt s.
Definition modify {S} (f : S -> S) : M S unit := fun s => Ok tt (f s).

#[global] Instance M_ret {S} : MRet (M S) := fun A a => ret a.
#[global] Instance M_bind {S} : MBind (M S) := fun A B k m => bind m k.

Definition state_of {S A} (r : result S A) : S :=
  match r with Ok _ s => s | Raise _ s => s end.

Definition raised {S A} (r : result S A) : option exn :=
  match r with Ok _ _ => None | Raise e _ => Some e end.

(** ** heapq

    The functions of Python's [heapq] that [_Heap] binds with [partial]:
    [heappush], [heappop] and [heapify], with their helpers [_siftdown] and
    [_siftup].  The element comparison [lt] is the Python [<] of the
    elements; it may raise, and then the array is left as the loop had it. *)

Section heapq.
Context {A : Type} (lt : A -> A -> exn + bool).

(** The [while pos > startpos] loop of [_siftdown]; [pos] strictly
    decreases, so [fuel = pos] iterations are enough. *)
Fixpoint _siftdown_loop (fuel : nat) (newitem : A) (startpos pos : nat)
  : M (list A) unit :=
  fun heap =>
    match fuel with
    | O => Ok tt (<[pos := newitem]> heap)
    | S fuel' =>
      if (startpos <? pos)%nat then
        let parentpos := ((pos - 1) / 2)%nat in
        match heap !! parentpos with
        | None => Raise IndexError heap
        | Some parent =>
          match lt newitem parent with
          | inl e => Raise e heap
          | inr true =>
            _siftdown_loop fuel' newitem startpos parentpos
                           (<[pos := parent]> heap)
          | inr false => Ok tt (<[pos := newitem]> heap)
          end
        end
      else Ok tt (<[pos := newitem]> heap)
    end.

Definition _siftdown (startpos pos : nat) : M (list A) unit :=
  fun heap =>
    match heap !! pos with
    | None => Raise IndexError heap
    | Some newitem => _siftdown_loop pos newitem startpos pos heap
    end.

(** The [while childpos < endpos] loop of [_siftup]: the smaller child
    moves up into the hole at [pos]; returns the leaf position reached. *)
Fixpoint _siftup_loop (fuel : nat) (endpos pos : nat) : M (list A) nat :=
  fun heap =>
    match fuel with
    | O => Ok pos heap
    | S fuel' =>
      let childpos := (2 * pos + 1)%nat in
      if (childpos <? endpos)%nat then
        let rightpos := (childpos + 1)%nat in
        let pick :=
          if (rightpos <? endpos)%nat then
            match heap !! childpos, heap !! rightpos with
            | Some c, Some r =>
              match lt c r with
              | inl e => inl e
              | inr b => inr (if negb b then rightpos else childpos)
              end
            | _, _ => inl IndexError
            end
          else inr childpos in
        match pick with
        | inl e => Raise e heap
        | inr childpos' =>
          match heap !! childpos' with
          | None => Raise IndexError heap
          | Some c =>
            _siftup_loop fuel' endpos childpos' (<[pos := c]> heap)
          end
        end
      else Ok pos heap
    end.

Definition _siftup (pos : nat) : M (list A) unit :=
  fun heap =>
    let endpos := length heap in
    let startpos := pos in
    match heap !! pos with
    | None => Raise IndexError heap
    | Some newitem =>
      match _siftup_loop endpos endpos pos heap with
      | Raise e heap' => Raise e heap'
      | Ok pos' heap' =>
        _siftdown startpos pos' (<[pos' := newitem]> heap')
      end
    end.

Definition heappush (item : A) : M (list A) unit :=
  fun heap =>
    let heap' := heap ++ [item] in
    _siftdown 0 (length heap' - 1) heap'.

(** [heap.pop()] of a Python list: the last element, [IndexError] on []. *)
Definition list_pop (heap : list A) : option (A * list A) :=
  match last heap with
  | None => None
  | Some x => Some (x, removelast heap)
  end.

Definition heappop : M (list A) A :=
  fun heap =>
    match list_pop heap with
    | None => Raise IndexError heap
    | Some (lastelt, heap') =>
      match heap' with
      | [] => Ok lastelt heap'
      | returnitem :: _ =>
        match _siftup 0 (<[0%nat := lastelt]> heap') with
        | Ok _ heap'' => Ok returnitem heap''
        | Raise e heap'' => Raise e heap''
        end
      end
    end.

(** [for i in reversed(range(n//2)): _siftup(x, i)]; [k] counts the
    positions still to do, so the next one is [k - 1]. *)
Fixpoint heapify_loop (k : nat) : M (list A) unit :=
  match k with
  | O => ret tt
  | S k' => bind (_siftup k') (fun _ => heapify_loop k')
  end.

Definition heapify : M (list A) unit :=
  fun heap => heapify_loop (length heap / 2)%nat heap.
End heapq.

(** ** JSON cells and text helpers *)

(** The scalar JSON values a table row holds. *)
Inductive jval : Type :=
| JNull
| JBool (b : bool)
| JInt (z : Z)
| JNum (q : Q)
| JStr (s : string).

(** [str.split(sep)] for a one-character separator. *)
Fixpoint split_on (sep : ascii) (s : string) : list string :=
  match s with
  | EmptyString => [EmptyString]
  | String c s' =>
    if Ascii.eqb c sep then EmptyString :: split_on sep s'
    else match split_on sep s' with
         | [] => [String c EmptyString]
         | w :: ws => String c w :: ws
         end
  end.

Definition digit_of (c : ascii) : option Z :=
  let n := Z.of_nat (nat_of_ascii c) in
  if (48 <=? n) && (n <=? 57) then Some (n - 48) else None.

Fixpoint parse_digits (acc : Z) (s : string) : option Z :=
  match s with
  | EmptyString => Some acc
  | String c s' =>
    match digit_of c with
    | Some d => parse_digits (10 * acc + d) s'
    | None => None
    end
  end.

(** [int(x)] on a string of decimal digits; anything else is a
    [ValueError] here (Python's [int] also accepts a sign, blanks and
    underscores, spellings a ['-']-split date field does not have). *)
Definition py_int (s : string) : exn + Z :=
  match s with
  | EmptyString => inl ValueError
  | _ => match parse_digits 0 s with
         | Some z => inr z
         | None => inl ValueError
         end
  end.

Definition str_of_Z (z : Z) : string := NilZero.string_of_int (Z.to_int z).

Fixpoint spaces (n : nat) : string :=
  match n with O => EmptyString | S n' => String " "%char (spaces n') end.

(** The ["{:>Nd}"] format: right-aligned in a field of width [w]. *)
Definition rjust (w : nat) (s : string) : string :=
  (spaces (w - String.length s) ++ s)%string.

(** ** Dates, as [datetime.date] has them *)

Definition is_leap (y : Z) : bool :=
  (y mod 4 =? 0) && (negb (y mod 100 =? 0) || (y mod 400 =? 0)).

Definition days_in_month (y m : Z) : Z :=
  if m =? 2 then (if is_leap y then 29 else 28)
  else if (m =? 4) || (m =? 6) || (m =? 9) || (m =? 11) then 30 else 31.

Definition days_before_year (y : Z) : Z :=
  let y' := y - 1 in y' * 365 + y' / 4 - y' / 100 + y' / 400.

Fixpoint days_before_month_aux (y : Z) (k : nat) : Z :=
  match k with
  | O => 0
  | S k' => days_before_month_aux y k' + days_in_month y (Z.of_nat k)
  end.

Definition days_before_month (y m : Z) : Z :=
  days_before_month_aux y (Z.to_nat (m - 1)).

(** [datetime.date(y, m, d).toordinal()], or the [ValueError] of the
    constructor on a date that does not exist. *)
Definition date_ordinal (y m d : Z) : exn + Z :=
  if (1 <=? y) && (y <=? 9999) && (1 <=? m) && (m <=? 12)
     && (1 <=? d) && (d <=? days_in_month y m)
  then inr (days_before_year y + days_before_month y m + d)
  else inl ValueError.

Fixpoint map_exn {A B} (f : A -> exn + B) (l : list A) : exn + list B :=
  match l with
  | [] => inr []
  | x :: l' =>
    match f x with
    | inl e => inl e
    | inr y => match map_exn f l' with
               | inl e => inl e
               | inr ys => inr (y :: ys)
               end
    end
  end.

(** [datetime.date] applied to the unpacked [int(x) for x in
    s.split('-')]: the generator is consumed first, then the constructor
    checks its argument count. *)
Definition parse_date (s : string) : exn + Z :=
  match map_exn py_int (split_on "-"%char s) with
  | inl e => inl e
  | inr [y; m; d] => date_ordinal y m d
  | inr _ => inl TypeError
  end.

(** ** AliquotSequence *)

Module AliquotSequence.
(** The fourteen list cells of [_map], in list order, and the
    [_heap_entry] attribute that [_make_heap_entry] hangs on the object. *)
Record t : Type := mk {
  seq : Z;
  size : option Z;
  index : option Z;
  guide : string;
  factors : string;
  cofactor : string;
  klass : jval;
  res : string;
  progress : jval;
  time : string;
  nzilch : Z;
  priority : Q;
  id : jval;
  driver : jval;
  _heap_entry : option nat
}.

Definition set_res (v : string) (a : t) : t :=
  mk (seq a) (size a) (index a) (guide a) (factors a) (cofactor a)
     (klass a) v (progress a) (time a) (nzilch a) (priority a) (id a)
     (driver a) (_heap_entry a).

Definition set_priority (v : Q) (a : t) : t :=
  mk (seq a) (size a) (index a) (guide a) (factors a) (cofactor a)
     (klass a) (res a) (progress a) (time a) (nzilch a) v (id a)
     (driver a) (_heap_entry a).

Definition set_heap_entry (v : option nat) (a : t) : t :=
  mk (seq a) (size a) (index a) (guide a) (factors a) (cofactor a)
     (klass a) (res a) (progress a) (time a) (nzilch a) (priority a) (id a)
     (driver a) v.

Definition opt_cell (o : option Z) : jval :=
  match o with None => JNull | Some z => JInt z end.

(** The object seen as the list it is: what [json.dumps] writes and what
    list equality compares.  [_heap_entry] is not a cell. *)
Definition to_list (a : t) : list jval :=
  [JInt (seq a); opt_cell (size a); opt_cell (index a); JStr (guide a);
   JStr (factors a); JStr (cofactor a); klass a; JStr (res a); progress a;
   JStr (time a); JInt (nzilch a); JNum (priority a); id a; driver a].

Definition dec_opt (v : jval) : option (option Z) :=
  match v with JNull => Some None | JInt z => Some (Some z) | _ => None end.
Definition dec_int (v : jval) : option Z :=
  match v with JInt z => Some z | _ => None end.
Definition dec_str (v : jval) : option string :=
  match v with JStr s => Some s | _ => None end.
Definition dec_num (v : jval) : option Q :=
  match v with JInt z => Some (inject_Z z) | JNum q => Some q | _ => None end.

(** [AliquotSequence(lst=l)]: [ValueError] unless [l] has [len(_map)]
    cells.  A cell of a type the model does not give its field is reported
    as [TypeError] (see the conventions at the head of the file). *)
Definition of_list (l : list jval) : exn + t :=
  match l with
  | [c0; c1; c2; c3; c4; c5; c6; c7; c8; c9; c10; c11; c12; c13] =>
    match dec_int c0, dec_opt c1, dec_opt c2, dec_str c3, dec_str c4,
          dec_str c5, dec_str c7, dec_str c9, dec_int c10, dec_num c11 with
    | Some s, Some sz, Some ix, Some g, Some f, Some cf, Some r, Some tm,
      Some nz, Some p =>
      inr (mk s sz ix g f cf c6 r c8 tm nz p c12 c13 None)
    | _, _, _, _, _, _, _, _, _, _ => inl TypeError
    end
  | _ => inl ValueError
  end.

Definition positive_cell (o : option Z) : bool :=
  match o with Some z => negb (z =? 0) && (0 <? z) | None => false end.

(** [self.seq and (self.size and self.size > 0) and (self.index and
    self.index > 0) and self.factors], as the truth value [__str__]
    tests. *)
Definition is_valid (a : t) : bool :=
  negb (seq a =? 0) && positive_cell (size a) && positive_cell (index a)
  && negb (String.eqb (factors a) EmptyString).

(** [__str__]: the [AllSeq.txt] line. *)
Definition __str__ (a : t) : exn + string :=
  if is_valid a then
    match index a, size a with
    | Some ix, Some sz =>
      inr (rjust 7 (str_of_Z (seq a)) ++ " " ++ rjust 5 (str_of_Z ix)
           ++ ". sz " ++ rjust 3 (str_of_Z sz) ++ " " ++ factors a)%string
    | _, _ => inl ValueError
    end
  else inl ValueError.

(** [round(prio, 3)] on a rational: to the nearest thousandth, ties to
    even. *)
Definition round3 (q : Q) : Q :=
  let n := Qnum (q * 1000) in
  let d := Zpos (Qden (q * 1000)) in
  let fl := n / d in
  let r2 := 2 * (n mod d) in
  let k := if r2 <? d then fl
           else if d <? r2 then fl + 1
           else if Z.even fl then fl else fl + 1 in
  Qred (k # 1000).

(** The value of the local [days] at its only use: the function never
    assigns it before [days -= begin_time_penalty] reads it. *)
Definition days_unbound : exn + Z := inl UnboundLocalError.

(** [calculate_priority]; [today] is [datetime.datetime.utcnow().date()]
    as an ordinal.  The statement [days -= begin_time_penalty] reads the
    local [days], which nothing binds: it raises [UnboundLocalError], and
    the lines after it in that block are never reached. *)
Definition calculate_priority (today : Z)
           (max_update_period begin_time_penalty : Z) (res_factor : Q)
           (a : t) : exn + t :=
  let prio := inject_Z (nzilch a) in
  let decayed : exn + Q :=
    match progress a with
    | JStr s =>
      match parse_date s with
      | inl e => inl e
      | inr lastprog =>
        let deltadays := today - lastprog in
        if begin_time_penalty <? deltadays then
          match days_unbound with
          | inl e => inl e
          | inr days =>
            let max_update_period := max_update_period - begin_time_penalty in
            let den := max_update_period - begin_time_penalty in
            if den =? 0 then inl ZeroDivisionError
            else
              let ratio := (inject_Z (deltadays - begin_time_penalty)
                            / inject_Z den)%Q in
              inr (prio * (1 - ratio))%Q
          end
        else inr prio
      end
    | _ => inr prio
    end in
  match decayed with
  | inl e => inl e
  | inr prio =>
    let prio := if negb (String.eqb (res a) EmptyString)
                then (prio * res_factor)%Q else prio in
    inr (set_priority (round3 prio) a)
  end.

End AliquotSequence.

Abbreviation ali := AliquotSequence.t.

(** ** Heap entries *)

(** [entry = [ali.priority, ali.time, ali.seq]]; the third cell is [None]
    once [_sabotage_heap_entry] has run on it. *)
Record heap_entry : Type := mk_entry {
  ent_priority : Q;
  ent_time : string;
  ent_seq : option Z
}.

Definition Qltb (x y : Q) : bool := negb (Qle_bool y x).

(** Python's [<] on two such lists: the first cell where they differ
    decides; an integer and [None] do not compare ([TypeError]); lists equal
    cell by cell are not less than one another. *)
Definition entry_lt (a b : heap_entry) : exn + bool :=
  if negb (Qeq_bool (ent_priority a) (ent_priority b))
  then inr (Qltb (ent_priority a) (ent_priority b))
  else if negb (String.eqb (ent_time a) (ent_time b))
  then inr (String.ltb (ent_time a) (ent_time b))
  else match ent_seq a, ent_seq b with
       | Some x, Some y => inr (x <? y)
       | None, None => inr false
       | _, _ => inl TypeError
       end.

(** The comparison of two references into the object memory [E]. *)
Definition ref_lt (E : list heap_entry) (x y : nat) : exn + bool :=
  match E !! x, E !! y with
  | Some a, Some b => entry_lt a b
  | _, _ => inl TypeError
  end.

(** ** _SequencesData *)

Record SequencesData : Type := mk_store {
  _jsonfile : string;
  _lockfile : string;
  _txtfile : string;
  _data : option (gmap Z ali);        (* [None] until data has been read *)
  _heap : option (list nat);          (* the [_Heap] list, by reference *)
  resdatetime : option string;        (* the attribute may not exist *)
  _block_minutes : option Z;
  ents : list heap_entry              (* object memory of the heap entries *)
}.

Definition set_data (d : option (gmap Z ali)) (st : SequencesData) :=
  mk_store (_jsonfile st) (_lockfile st) (_txtfile st) d (_heap st)
           (resdatetime st) (_block_minutes st) (ents st).
Definition set_heap (h : option (list nat)) (st : SequencesData) :=
  mk_store (_jsonfile st) (_lockfile st) (_txtfile st) (_data st) h
           (resdatetime st) (_block_minutes st) (ents st).
Definition set_resdatetime (r : option string) (st : SequencesData) :=
  mk_store (_jsonfile st) (_lockfile st) (_txtfile st) (_data st) (_heap st)
           r (_block_minutes st) (ents st).
Definition set_block_minutes (b : option Z) (st : SequencesData) :=
  mk_store (_jsonfile st) (_lockfile st) (_txtfile st) (_data st) (_heap st)
           (resdatetime st) b (ents st).
Definition set_ents (E : list heap_entry) (st : SequencesData) :=
  mk_store (_jsonfile st) (_lockfile st) (_txtfile st) (_data st) (_heap st)
           (resdatetime st) (_block_minutes st) E.

(** [str.replace(old, new)]: non-overlapping occurrences, left to right.
    [skip] counts the characters of a matched [old] still to be passed. *)
Fixpoint str_replace_aux (old new : string) (skip : nat) (s : string) : string :=
  match s with
  | EmptyString => EmptyString
  | String c s' =>
    match skip with
    | S k => str_replace_aux old new k s'
    | O =>
      if String.prefix old s
      then (new ++ str_replace_aux old new (String.length old - 1) s')%string
      else String c (str_replace_aux old new O s')
    end
  end.

Definition str_replace (old new s : string) : string :=
  str_replace_aux old new O s.

(** [__init__(jsonfile, txtfile='')]. *)
Definition __init__ (jsonfile txtfile : string) : exn + SequencesData :=
  if String.eqb jsonfile txtfile then inl ValueError
  else
    let txtfile :=
      if String.eqb txtfile EmptyString
      then str_replace ".json" ".txt" jsonfile else txtfile in
    inr (mk_store jsonfile (jsonfile ++ ".lock")%string txtfile
                  None None None None []).

(** *** The files *)

(** What [json.load] returns for the primary file: the ['aaData'] table and
    the optional ['resdatetime'] key. *)
Record json_doc : Type := mk_doc {
  aaData : list (list jval);
  doc_resdatetime : option string
}.

(** A file holds what was written to it: the JSON document of
    [unlock_write], or plain text (the text mirror, or the empty lock
    file).  [json.dumps] followed by [json.load] is taken to give the
    document back.  The line breaks that [unlock_write] puts after each
    bracket-comma pair of the dumped text are not represented: they fall
    between rows, except on a string cell that itself contains that pair of
    characters, and such cells are outside the model.  Plain text never
    loads: a mirror line starts with a right-aligned integer followed by
    more text, and the lock file is empty. *)
Inductive file : Type :=
| FJson (d : json_doc)
| FText (s : string).

Inductive event : Type :=
| TryLock (ok : bool)      (* an [open(lockfile, 'x')] and whether it succeeded *)
| Sleep (seconds : Z).     (* a [sleep(period)] *)

Record machine : Type := mk_machine {
  fs : gmap string file;
  log : list event;        (* most recent event first *)
  self : SequencesData
}.

Definition set_fs (f : gmap string file) (m : machine) :=
  mk_machine f (log m) (self m).
Definition add_event (e : event) (m : machine) :=
  mk_machine (fs m) (e :: log m) (self m).
Definition set_self (st : SequencesData) (m : machine) :=
  mk_machine (fs m) (log m) st.

(** A method that only touches the object, run on the machine. *)
Definition on_self {A} (c : M SequencesData A) : M machine A :=
  fun m => match c (self m) with
           | Ok a st => Ok a (set_self st m)
           | Raise e st => Raise e (set_self st m)
           end.

(** [_lock]: exclusive creation of the lock file. *)
Definition _lock : M machine unit :=
  fun m =>
    let p := _lockfile (self m) in
    match fs m !! p with
    | Some _ => Raise LockError (add_event (TryLock false) m)
    | None =>
      Ok tt (add_event (TryLock true) (set_fs (<[p := FText EmptyString]> (fs m)) m))
    end.

(** [_unlock]: [os.remove] of the lock file. *)
Definition _unlock : M machine unit :=
  fun m =>
    let p := _lockfile (self m) in
    match fs m !! p with
    | Some _ => Ok tt (set_fs (delete p (fs m)) m)
    | None => Raise FileNotFoundError m
    end.

(** [_make_heap_entry]: a fresh entry object, wired to the record. *)
Definition _make_heap_entry (a : ali) : M SequencesData (nat * ali) :=
  fun st =>
    let entry := mk_entry (AliquotSequence.priority a) (AliquotSequence.time a)
                          (Some (AliquotSequence.seq a)) in
    let addr := length (ents st) in
    Ok (addr, AliquotSequence.set_heap_entry (Some addr) a)
       (set_ents (ents st ++ [entry]) st).

(** [_sabotage_heap_entry]: [ali._heap_entry[2] = None]. *)
Definition _sabotage_heap_entry (a : ali) : M SequencesData unit :=
  fun st =>
    match AliquotSequence._heap_entry a with
    | None => Raise AttributeError st
    | Some addr =>
      match ents st !! addr with
      | None => Raise AttributeError st
      | Some e =>
        Ok tt (set_ents (<[addr := mk_entry (ent_priority e) (ent_time e) None]>
                           (ents st)) st)
      end
    end.

(** A [heapq] function applied to [self._heap]. *)
Definition on_heap {A} (c : (nat -> nat -> exn + bool) -> M (list nat) A)
  : M SequencesData A :=
  fun st =>
    match _heap st with
    | None => Raise AttributeError st
    | Some h =>
      match c (ref_lt (ents st)) h with
      | Ok a h' => Ok a (set_heap (Some h') st)
      | Raise e h' => Raise e (set_heap (Some h') st)
      end
    end.

(** The body of the [for i, dat in enumerate(heap)] loop of
    [lock_read_init]. *)
Definition read_row (dat : list jval) : M SequencesData unit :=
  fun st =>
    match AliquotSequence.of_list dat with
    | inl e => Raise e st
    | inr a =>
      match _make_heap_entry a st with
      | Raise e st' => Raise e st'
      | Ok (addr, a') st' =>
        let h := default [] (_heap st') in
        let d := default ∅ (_data st') in
        Ok tt (set_data (Some (<[AliquotSequence.seq a' := a']> d))
                        (set_heap (Some (h ++ [addr])) st'))
      end
    end.

Fixpoint read_rows (rows : list (list jval)) : M SequencesData unit :=
  match rows with
  | [] => ret tt
  | dat :: rows' => bind (read_row dat) (fun _ => read_rows rows')
  end.

(** The part of [lock_read_init] after the file has been parsed.  The heap
    list is filled cell by cell and heapified at the end; the cells not yet
    filled when a row is refused are left out of the failed state. *)
Definition init_from (d : json_doc) : M SequencesData unit :=
  fun st =>
    let st := match doc_resdatetime d with
              | Some r => set_resdatetime (Some r) st
              | None => st
              end in
    let st := set_heap (Some []) (set_data (Some ∅) st) in
    bind (read_rows (aaData d)) (fun _ => on_heap heapify) st.

(** [lock_read_init]. *)
Definition lock_read_init : M machine unit :=
  bind _lock (fun _ m =>
    match fs m !! _jsonfile (self m) with
    | None => Raise FileNotFoundError m
    | Some (FText _) => Raise JSONDecodeError m
    | Some (FJson d) => on_self (init_from d) m
    end).

(** [acquire_lock(block_minutes=...)]. *)
Definition acquire_lock (block_minutes : Z) : M machine unit :=
  on_self (modify (set_block_minutes (Some block_minutes))).

(** *** Scoped acquisition *)

Section Acquire.
(** What the other processes do to the files while this one sleeps for one
    period: the only way a held lock can become free. *)
Variable others : gmap string file -> gmap string file.

Definition sleep (period : Z) : M machine unit :=
  fun m => Ok tt (add_event (Sleep period) (set_fs (others (fs m)) m)).

(** [for i in range(count + 1)] with the [try]/[except LockError]/[else]
    inside, and the [raise f] after the loop; [f] is unbound until an
    attempt has failed. *)
Fixpoint enter_loop (iters : nat) (f : option exn) : M machine unit :=
  match iters with
  | O => match f with
         | None => raise UnboundLocalError
         | Some e => raise e
         end
  | S iters' =>
    fun m =>
      match lock_read_init m with
      | Ok _ m' => Ok tt m'
      | Raise e m' =>
        if is_LockError e
        then bind (sleep 1) (fun _ => enter_loop iters' (Some e)) m'
        else Raise e m'
      end
  end.

Definition __enter__ : M machine unit :=
  fun m =>
    match _block_minutes (self m) with
    | None => Raise AttributeError m
    | Some block_minutes =>
      let seconds := block_minutes * 60 in
      let period := 1 in
      let count := seconds / period in
      enter_loop (Z.to_nat (count + 1)) None m
    end.
End Acquire.

(** *** Writing back *)

(** [item[2] for item in self._heap if item[2] in self._data]: [None] is no
    key of the map. *)
Definition live_seqs (E : list heap_entry) (d : gmap Z ali) (h : list nat)
  : list Z :=
  omap (fun addr =>
          match E !! addr with
          | Some e =>
            match ent_seq e with
            | Some s => if decide (is_Some (d !! s)) then Some s else None
            | None => None
            end
          | None => None
          end) h.

(** [set(self._data.keys()).difference(out)], in the order the set is then
    iterated; Python promises no particular order, [elements] stands for
    whichever it is. *)
Definition missing_seqs (d : gmap Z ali) (out : list Z) : list Z :=
  elements (dom d ∖ list_to_set out).

(** [[self._data[seq] for seq in seqs]] for [seqs] that are keys. *)
Definition records_of (d : gmap Z ali) (seqs : list Z) : list ali :=
  omap (fun s => d !! s) seqs.

(** [sorted(out, key=lambda ali: ali.seq)]: a stable sort. *)
Fixpoint insert_by_seq (a : ali) (l : list ali) : list ali :=
  match l with
  | [] => [a]
  | b :: l' =>
    if AliquotSequence.seq b <=? AliquotSequence.seq a
    then b :: insert_by_seq a l' else a :: l
  end.

Definition sorted_by_seq (l : list ali) : list ali :=
  fold_left (fun acc a => insert_by_seq a acc) l [].

Definition newline : string := String (ascii_of_nat 10) EmptyString.

(** ['\n'.join(lines) + '\n']. *)
Definition join_lines (lines : list string) : string :=
  (String.concat newline lines ++ newline)%string.

(** The list [out] of [unlock_write]: the records of the heap's entries
    that are still keys, in the order of the heap list, then the keys that
    were not found that way. *)
Definition write_order (E : list heap_entry) (d : gmap Z ali) (h : list nat)
  : list ali :=
  let out := live_seqs E d h in
  let missing := missing_seqs d out in
  records_of d out ++ records_of d missing.

(** [unlock_write]. *)
Definition unlock_write : M machine unit :=
  fun m =>
    let st := self m in
    match _heap st, _data st with
    | None, _ => Raise TypeError m
    | Some [], None => Raise AttributeError m
    | Some (_ :: _), None => Raise TypeError m
    | Some h, Some d =>
      let out := write_order (ents st) d h in
      let outdict := mk_doc (map AliquotSequence.to_list out) (resdatetime st) in
      let m := set_fs (<[_jsonfile st := FJson outdict]> (fs m)) m in
      if negb (String.eqb (_txtfile st) EmptyString) then
        match map_exn AliquotSequence.__str__ (sorted_by_seq out) with
        | inl e => Raise e m
        | inr lines =>
          _unlock (set_fs (<[_txtfile st := FText (join_lines lines)]> (fs m)) m)
        end
      else _unlock m
    end.

Definition __exit__ : M machine unit := unlock_write.

(** *** The heap and the id map *)

(** [seq in self], delegated to [self._data]. *)
Definition __contains__ (seq : Z) : M SequencesData bool :=
  fun st =>
    match _data st with
    | None => Raise AttributeError st
    | Some d => Ok (bool_decide (is_Some (d !! seq))) st
    end.

(** [self[seq]], delegated to [self._data]. *)
Definition __getitem__ (seq : Z) : M SequencesData ali :=
  fun st =>
    match _data st with
    | None => Raise AttributeError st
    | Some d =>
      match d !! seq with
      | None => Raise (KeyError seq) st
      | Some a => Ok a st
      end
    end.

(** [self._data[seq]], directly on the attribute. *)
Definition data_getitem (seq : Z) : M SequencesData ali :=
  fun st =>
    match _data st with
    | None => Raise TypeError st
    | Some d =>
      match d !! seq with
      | None => Raise (KeyError seq) st
      | Some a => Ok a st
      end
    end.

(** [self._data[seq] = a]. *)
Definition data_setitem (seq : Z) (a : ali) : M SequencesData unit :=
  fun st =>
    match _data st with
    | None => Raise TypeError st
    | Some d => Ok tt (set_data (Some (<[seq := a]> d)) st)
    end.

(** [del self._data[seq]]. *)
Definition data_delitem (seq : Z) : M SequencesData unit :=
  fun st =>
    match _data st with
    | None => Raise TypeError st
    | Some d =>
      match d !! seq with
      | None => Raise (KeyError seq) st
      | Some _ => Ok tt (set_data (Some (delete seq d)) st)
      end
    end.

(** One resumption of the generator [pop_n_todo(n)]: the [while n > 0] loop
    runs to its next [yield], giving the id and the new value of [n], or
    leaves the loop ([None], the generator is exhausted).  Every iteration
    pops one entry, so [fuel] beyond the length of the heap is never used:
    [heappop] on the empty list raises [IndexError]. *)
Fixpoint pop_n_todo_next (fuel : nat) (n : Z) : M SequencesData (option (Z * Z)) :=
  fun st =>
    if 0 <? n then
      match on_heap (fun lt => heappop lt) st with
      | Raise e st' => Raise e st'
      | Ok addr st' =>
        match ents st' !! addr with
        | None => Raise TypeError st'
        | Some e =>
          match ent_seq e with
          | Some seq =>
            if negb (seq =? 0) then Ok (Some (seq, n - 1)) st'
            else match fuel with
                 | O => Raise IndexError st'
                 | S fuel' => pop_n_todo_next fuel' n st'
                 end
          | None =>
            match fuel with
            | O => Raise IndexError st'
            | S fuel' => pop_n_todo_next fuel' n st'
            end
          end
        end
      end
    else Ok None st.

Definition heap_len (st : SequencesData) : nat :=
  match _heap st with Some h => length h | None => O end.

(** [next(g)] for [g = pop_n_todo(n)] with [n] as the generator has it. *)
Definition pop_n_todo_step (n : Z) : M SequencesData (option (Z * Z)) :=
  fun st => pop_n_todo_next (heap_len st) n st.

(** [list(pop_n_todo(n))] with nothing else touching the store meanwhile:
    the ids yielded, in order.  An exception ends the iteration; the ids
    yielded before it have already reached the consumer, so they are kept
    in the outcome next to the exception. *)
Fixpoint pop_n_todo_run (k : nat) (n : Z) (acc : list Z)
  : SequencesData -> list Z * result SequencesData unit :=
  fun st =>
    match k with
    | O => (acc, Ok tt st)
    | S k' =>
      match pop_n_todo_step n st with
      | Raise e st' => (acc, Raise e st')
      | Ok None st' => (acc, Ok tt st')
      | Ok (Some (seq, n')) st' => pop_n_todo_run k' n' (acc ++ [seq]) st'
      end
    end.

Definition pop_n_todo (n : Z) (st : SequencesData)
  : list Z * result SequencesData unit :=
  pop_n_todo_run (S (Z.to_nat n)) n [] st.

(** [drop]. *)
Fixpoint drop (seqs : list Z) : M SequencesData unit :=
  match seqs with
  | [] => ret tt
  | seq :: seqs' =>
    bind (__contains__ seq) (fun present =>
      if negb present then raise (KeyError seq)
      else
        bind (data_getitem seq) (fun a =>
        bind (_sabotage_heap_entry a) (fun _ =>
        bind (data_delitem seq) (fun _ =>
        drop seqs'))))
  end.

(** [push_new_info]: the record object stored in the map is the one
    [_make_heap_entry] then wires, so the map sees the new [_heap_entry]. *)
Definition push_new_info (a : ali) : M SequencesData unit :=
  bind (data_setitem (AliquotSequence.seq a) a) (fun _ =>
  bind (fun st => match _heap st with
                  | None => Raise AttributeError st
                  | Some _ => Ok tt st
                  end) (fun _ =>
  bind (_make_heap_entry a) (fun '(addr, a') =>
  bind (data_setitem (AliquotSequence.seq a) a') (fun _ =>
  on_heap (fun lt => heappush lt addr))))).

(** ** SequencesManager *)

(** [self[seq].res = v]: the record in the map is updated in place. *)
Definition setattr_res (seq : Z) (v : string) : M SequencesData unit :=
  bind (__getitem__ seq) (fun a =>
  fun st =>
    match _data st with
    | None => Raise AttributeError st
    | Some d => Ok tt (set_data (Some (<[seq := AliquotSequence.set_res v a]> d)) st)
    end).

Definition is_empty_str (s : string) : bool := String.eqb s EmptyString.

(** The loop of [reserve_seqs], with the three result lists as they stand. *)
Fixpoint reserve_loop (name : string) (seqs : list Z)
         (DNEs already_owns : list Z) (other_owns : list (Z * string))
  : M SequencesData (list Z * list Z * list (Z * string)) :=
  match seqs with
  | [] => ret (DNEs, already_owns, other_owns)
  | seq :: seqs' =>
    bind (__contains__ seq) (fun present =>
      if negb present
      then reserve_loop name seqs' (DNEs ++ [seq]) already_owns other_owns
      else
        bind (__getitem__ seq) (fun a =>
          let other := AliquotSequence.res a in
          if is_empty_str other then
            bind (setattr_res seq name) (fun _ =>
              reserve_loop name seqs' DNEs already_owns other_owns)
          else if String.eqb name other then
            reserve_loop name seqs' DNEs (already_owns ++ [seq]) other_owns
          else
            reserve_loop name seqs' DNEs already_owns
                         (other_owns ++ [(seq, other)])))
  end.

Definition reserve_seqs (name : string) (seqs : list Z)
  : M SequencesData (list Z * list Z * list (Z * string)) :=
  reserve_loop name seqs [] [] [].

(** The loop of [unreserve_seqs]. *)
Fixpoint unreserve_loop (name : string) (seqs : list Z)
         (DNEs not_reserveds : list Z) (wrong_reserveds : list (Z * string))
  : M SequencesData (list Z * list Z * list (Z * string)) :=
  match seqs with
  | [] => ret (DNEs, not_reserveds, wrong_reserveds)
  | seq :: seqs' =>
    bind (__contains__ seq) (fun present =>
      if negb present
      then unreserve_loop name seqs' (DNEs ++ [seq]) not_reserveds wrong_reserveds
      else
        bind (__getitem__ seq) (fun a =>
          let current := AliquotSequence.res a in
          if is_empty_str current then
            unreserve_loop name seqs' DNEs (not_reserveds ++ [seq]) wrong_reserveds
          else if String.eqb name current then
            bind (setattr_res seq EmptyString) (fun _ =>
              unreserve_loop name seqs' DNEs not_reserveds wrong_reserveds)
          else
            unreserve_loop name seqs' DNEs not_reserveds
                           (wrong_reserveds ++ [(seq, current)])))
  end.

Definition unreserve_seqs (name : string) (seqs : list Z)
  : M SequencesData (list Z * list Z * list (Z * string)) :=
  unreserve_loop name seqs [] [] [].

(** * Specification-side definitions

    What the statements below are phrased with: closed forms of the
    reservation loops, the frame of a call, the lazy-deletion invariant, the
    calls a client can make in sequence, and the concrete stores used as
    inputs. *)

(** A store whose id map has been read. *)
Definition loaded (d : gmap Z ali) (st : SequencesData) : SequencesData :=
  set_data (Some d) st.

Definition res_of (st : SequencesData) (k : Z) : option string :=
  d ← _data st; a ← d !! k; Some (AliquotSequence.res a).

(** ** Reservations: closed forms *)

(** The ids of [seqs] that are no key of [d], in request order. *)
Definition absent (d : gmap Z ali) (seqs : list Z) : list Z :=
  filter (fun s => d !! s = None) seqs.

(** The ids of [seqs] reserved in [d] by somebody other than [name], with
    that owner, in request order. *)
Definition owned_by_other (name : string) (d : gmap Z ali) (seqs : list Z)
  : list (Z * string) :=
  omap (fun s =>
          match d !! s with
          | Some a =>
            if negb (is_empty_str (AliquotSequence.res a))
               && negb (String.eqb name (AliquotSequence.res a))
            then Some (s, AliquotSequence.res a) else None
          | None => None
          end) seqs.

(** The id map after [reserve_seqs name seqs]: the unreserved records among
    the requested ones now belong to [name]. *)
Definition reserve_map (name : string) (seqs : list Z) (d : gmap Z ali)
  : gmap Z ali :=
  map_imap (fun k a =>
              Some (if is_empty_str (AliquotSequence.res a)
                       && bool_decide (k ∈ seqs)
                    then AliquotSequence.set_res name a else a)) d.

(** The id map after [unreserve_seqs name seqs]: the requested records that
    [name] held are unreserved. *)
Definition unreserve_map (name : string) (seqs : list Z) (d : gmap Z ali)
  : gmap Z ali :=
  map_imap (fun k a =>
              Some (if negb (is_empty_str (AliquotSequence.res a))
                       && String.eqb name (AliquotSequence.res a)
                       && bool_decide (k ∈ seqs)
                    then AliquotSequence.set_res EmptyString a else a)) d.

(** ** The frame of a reservation call *)

(** [a'] is [a] except possibly for its [res] cell. *)
Definition same_but_res (a a' : ali) : Prop :=
  AliquotSequence.seq a' = AliquotSequence.seq a
  /\ AliquotSequence.size a' = AliquotSequence.size a
  /\ AliquotSequence.index a' = AliquotSequence.index a
  /\ AliquotSequence.guide a' = AliquotSequence.guide a
  /\ AliquotSequence.factors a' = AliquotSequence.factors a
  /\ AliquotSequence.cofactor a' = AliquotSequence.cofactor a
  /\ AliquotSequence.klass a' = AliquotSequence.klass a
  /\ AliquotSequence.progress a' = AliquotSequence.progress a
  /\ AliquotSequence.time a' = AliquotSequence.time a
  /\ AliquotSequence.nzilch a' = AliquotSequence.nzilch a
  /\ AliquotSequence.priority a' = AliquotSequence.priority a
  /\ AliquotSequence.id a' = AliquotSequence.id a
  /\ AliquotSequence.driver a' = AliquotSequence.driver a
  /\ AliquotSequence._heap_entry a' = AliquotSequence._heap_entry a.

(** Between [st] and [st'] nothing changed but the [res] cell of records
    whose key is in [seqs]: same files, same heap list, same heap entries,
    same keys, and every record the same but for that cell. *)
Definition only_res_changed (seqs : list Z) (st st' : SequencesData) : Prop :=
  _jsonfile st' = _jsonfile st
  /\ _lockfile st' = _lockfile st
  /\ _txtfile st' = _txtfile st
  /\ resdatetime st' = resdatetime st
  /\ _block_minutes st' = _block_minutes st
  /\ _heap st' = _heap st
  /\ ents st' = ents st
  /\ match _data st, _data st' with
     | None, None => True
     | Some d, Some d' =>
       dom d' = dom d
       /\ forall k a, d !! k = Some a ->
            exists a', d' !! k = Some a' /\ same_but_res a a'
                       /\ (k ∉ seqs -> a' = a)
     | _, _ => False
     end.

(** ** Locking *)

(** How many times the lock file was tried, and how many seconds were
    slept, in a piece of log. *)
Fixpoint attempts (l : list event) : nat :=
  match l with
  | [] => O
  | TryLock _ :: l' => S (attempts l')
  | Sleep _ :: l' => attempts l'
  end.

Fixpoint slept (l : list event) : Z :=
  match l with
  | [] => 0
  | Sleep s :: l' => s + slept l'
  | TryLock _ :: l' => slept l'
  end.

(** The paths and the blocking time of the store are unchanged. *)
Definition same_paths (st st' : SequencesData) : Prop :=
  _jsonfile st' = _jsonfile st /\ _lockfile st' = _lockfile st
  /\ _txtfile st' = _txtfile st /\ _block_minutes st' = _block_minutes st.

(** ** Dropping *)

(** Every record of the id map carries a reference to an entry object that
    exists: what [_make_heap_entry] establishes for each record it wires. *)
Definition wired_record (E : list heap_entry) (a : ali) : bool :=
  match AliquotSequence._heap_entry a with
  | Some addr => bool_decide (addr < length E)%nat
  | None => false
  end.

Definition wired (st : SequencesData) : Prop :=
  match _data st with
  | None => False
  | Some d => map_Forall (fun _ a => wired_record (ents st) a = true) d
  end.

(** The part of [seqs] that [drop] gets through, and the id it stops at, if
    any: the first id that is no key when its turn comes (an unknown id, or
    one listed a second time). *)
Fixpoint drop_prefix (keys : gset Z) (seqs : list Z) : list Z * option Z :=
  match seqs with
  | [] => ([], None)
  | s :: seqs' =>
    if bool_decide (s ∈ keys) then
      let '(pre, failing) := drop_prefix (keys ∖ {[s]}) seqs' in
      (s :: pre, failing)
    else ([], Some s)
  end.

(** The entry objects of the records of [seqs] in [d]. *)
Definition entries_of (d : gmap Z ali) (seqs : list Z) : list nat :=
  omap (fun s => a ← d !! s; AliquotSequence._heap_entry a) seqs.

Definition sabotaged (e : heap_entry) : heap_entry :=
  mk_entry (ent_priority e) (ent_time e) None.

(** The object memory with the entries at [addrs] tombstoned. *)
Definition sabotage_all (addrs : list nat) (E : list heap_entry)
  : list heap_entry :=
  imap (fun i e => if bool_decide (i ∈ addrs) then sabotaged e else e) E.

(** The store once the ids of [pre] have been dropped from the id map [d]:
    their records are gone from the map, their heap entries are tombstoned,
    and the heap list is as it was. *)
Definition after_drop (pre : list Z) (d : gmap Z ali) (st : SequencesData)
  : SequencesData :=
  set_data (Some (filter (fun kv => kv.1 ∉ pre) d))
           (set_ents (sabotage_all (entries_of d pre) (ents st)) st).

(** ** Observations used in the statements *)

Definition raises_LockError {S A} (r : result S A) : bool :=
  match r with
  | Raise e _ => is_LockError e
  | Ok _ _ => false
  end.

(** The method never raises [LockError], whatever the state. *)
Definition no_lock_error {S A} (c : M S A) : Prop :=
  forall s, raises_LockError (c s) = false.

(** [k in self._data], [false] while no data has been read. *)
Definition has_key (st : SequencesData) (k : Z) : bool :=
  match _data st with
  | Some d => bool_decide (is_Some (d !! k))
  | None => false
  end.

(** The [seq] cell of the entry object at [addr]: [Some None] once it has
    been tombstoned. *)
Definition entry_seq (st : SequencesData) (addr : nat) : option (option Z) :=
  ent_seq <$> ents st !! addr.

(** ** Writing back *)

(** The ids found by scanning the heap list from its first cell to its
    last: the [seq] cells of the entries that are not tombstoned, kept when
    they are keys of the id map. *)
Definition heap_scan (E : list heap_entry) (d : gmap Z ali) (h : list nat)
  : list Z :=
  filter (fun s => is_Some (d !! s))
         (omap (fun addr => e ← E !! addr; ent_seq e) h).

(** The table the primary file holds. *)
Definition written_table (m : machine) : list (list jval) :=
  match fs m !! _jsonfile (self m) with
  | Some (FJson d) => aaData d
  | _ => []
  end.

Definition row_priority (row : list jval) : Q :=
  match AliquotSequence.of_list row with
  | inr a => AliquotSequence.priority a
  | inl _ => 0
  end.

Fixpoint nondecreasing (l : list Q) : bool :=
  match l with
  | x :: (y :: _) as l' => Qle_bool x y && nondecreasing l'
  | _ => true
  end.

(** ** The lazy-deletion invariant *)

(** The [seq] cells of the entries in the heap list that are not
    tombstoned, in the order of the list. *)
Definition heap_live (st : SequencesData) : list Z :=
  match _heap st with
  | Some h => omap (fun addr => e ← ents st !! addr; ent_seq e) h
  | None => []
  end.

(** The ids of the rows of a table. *)
Definition rows_seqs (rows : list (list jval)) : list Z :=
  omap (fun row => match AliquotSequence.of_list row with
                   | inr a => Some (AliquotSequence.seq a)
                   | inl _ => None
                   end) rows.

Definition file_seqs (doc : json_doc) : list Z := rows_seqs (aaData doc).

(** The calls a client makes on a loaded store: [push_new_info(a)],
    [drop(seqs)], and one resumption of a generator [pop_n_todo(n)] whose
    counter stands at [n]. *)
Inductive call : Type :=
| Push (a : ali)
| Drop (seqs : list Z)
| PopNext (n : Z).

Definition is_pop (c : call) : bool :=
  match c with PopNext _ => true | _ => false end.

Definition returned {S A} (r : result S A) : option S :=
  match r with Ok _ s => Some s | Raise _ _ => None end.

(** A call that returns normally, gives the store it leaves.  A
    [push_new_info] is only run for an id that has no live entry in the
    heap: a new id, or one whose entry has been popped. *)
Definition run_call (c : call) (st : SequencesData) : option SequencesData :=
  match c with
  | Push a =>
    if bool_decide (AliquotSequence.seq a ∈ heap_live st) then None
    else returned (push_new_info a st)
  | Drop seqs => returned (drop seqs st)
  | PopNext n => returned (pop_n_todo_step n st)
  end.

Fixpoint run_calls (cs : list call) (st : SequencesData)
  : option SequencesData :=
  match cs with
  | [] => Some st
  | c :: cs' =>
    match run_call c st with
    | Some st' => run_calls cs' st'
    | None => None
    end
  end.

(** The invariant the heap and the id map keep: the heap list holds
    distinct references to existing entries; a live entry of the heap
    belongs to the record stored under its [seq]; the record stored under a
    key has that key as [seq] and points to a live entry with that key. *)
Definition lazy_inv (st : SequencesData) : Prop :=
  exists d h,
    _data st = Some d /\ _heap st = Some h
    /\ NoDup h
    /\ Forall (fun addr => addr < length (ents st))%nat h
    /\ (forall addr e s,
          addr ∈ h -> ents st !! addr = Some e -> ent_seq e = Some s ->
          exists a, d !! s = Some a
                    /\ AliquotSequence._heap_entry a = Some addr)
    /\ (forall k a,
          d !! k = Some a ->
          AliquotSequence.seq a = k
          /\ exists addr e,
               AliquotSequence._heap_entry a = Some addr
               /\ ents st !! addr = Some e /\ ent_seq e = Some k).

(** Nothing has been popped: the entry of every record is in the heap. *)
Definition all_in_heap (st : SequencesData) : Prop :=
  match _data st, _heap st with
  | Some d, Some h =>
    forall k a addr,
      d !! k = Some a -> AliquotSequence._heap_entry a = Some addr -> addr ∈ h
  | _, _ => False
  end.

(** The store once record [a] has been stored and wired to a fresh entry
    and the heap list has become [h']. *)
Definition with_record (a : ali) (d : gmap Z ali) (h' : list nat)
           (st : SequencesData) : SequencesData :=
  let addr := length (ents st) in
  set_heap (Some h')
    (set_data (Some (<[AliquotSequence.seq a :=
                         AliquotSequence.set_heap_entry (Some addr) a]> d))
       (set_ents (ents st ++ [mk_entry (AliquotSequence.priority a)
                                       (AliquotSequence.time a)
                                       (Some (AliquotSequence.seq a))]) st)).

(** ** The heap property *)

Section heap_order.
Context {A : Type} (le : A -> A -> Prop).

(** The cell at [j] is not smaller than the cell at its parent
    [(j - 1) >> 1]. *)
Definition heap_at (h : list A) (j : nat) : Prop :=
  forall x y, h !! ((j - 1) / 2)%nat = Some x -> h !! j = Some y -> le x y.

(** The heap property on every edge whose parent cell is at [s] or after:
    the cells from [s] on are roots of sub-heaps. *)
Definition ok_from (s : nat) (h : list A) : Prop :=
  forall j, (0 < j)%nat -> (s <= (j - 1) / 2)%nat -> heap_at h j.

Definition is_heap (h : list A) : Prop := ok_from 0 h.
End heap_order.

(** [p] is [s] or a cell below it in the tree laid out in the list. *)
Inductive below (s : nat) : nat -> Prop :=
| below_refl : below s s
| below_left p : below s p -> below s (2 * p + 1)
| below_right p : below s p -> below s (2 * p + 2).

(** The priority of the entry a reference points to. *)
Definition key_of (E : list heap_entry) (addr : nat) : Q :=
  match E !! addr with
  | Some e => ent_priority e
  | None => 0
  end.

(** The order the heap of the store is kept in: by the priority cell of the
    entries.  (The time and seq cells only break ties.) *)
Definition by_priority (E : list heap_entry) (x y : nat) : Prop :=
  (key_of E x <= key_of E y)%Q.

(** The heap list of the store refers to entries that exist and is a heap
    by priority. *)
Definition heap_inv (st : SequencesData) : Prop :=
  match _heap st with
  | Some h =>
    Forall (fun addr => addr < length (ents st))%nat h
    /\ is_heap (by_priority (ents st)) h
  | None => False
  end.

(** The priority a key is queued under: that of the entry its record
    points to. *)
Definition prio_of (st : SequencesData) (s : Z) : Q :=
  match _data st with
  | Some d =>
    match d !! s with
    | Some a =>
      match AliquotSequence._heap_entry a with
      | Some addr => key_of (ents st) addr
      | None => 0
      end
    | None => 0
    end
  | None => 0
  end.

(** ** Records as they are read back *)

(** A record as the list it is: the heap entry it is wired to is not one of
    its cells, and a record built from a row has none yet. *)
Definition detached (a : ali) : ali := AliquotSequence.set_heap_entry None a.

(** The entry at [addr] exists and has not been tombstoned. *)
Definition has_seq (E : list heap_entry) (addr : nat) : Prop :=
  exists e s, E !! addr = Some e /\ ent_seq e = Some s.


(** ** Concrete inputs *)

Module Example.
(** A complete table row for sequence [s] with priority [prio], reserved
    by [who] (nobody if empty). *)
Definition row (s : Z) (prio : Q) (who : string) : list jval :=
  [JInt s; JInt 120; JInt 1000; JStr "2^2 * 3"; JStr "2^3 * 3 * 7"; JStr "C117";
   JInt s; JStr who; JInt 0; JStr "2015-06-01 12:00:00"; JInt 2; JNum prio;
   JNull; JNull].

Definition record (s : Z) (prio : Q) (who : string) : ali :=
  AliquotSequence.mk s (Some 120) (Some 1000) "2^2 * 3" "2^3 * 3 * 7" "C117"
                     (JInt s) who (JInt 0) "2015-06-01 12:00:00" 2 prio
                     JNull JNull None.

(** [_SequencesData('AllSeq.json')] as [__init__] leaves it. *)
Definition fresh : SequencesData :=
  mk_store "AllSeq.json" "AllSeq.json.lock" "AllSeq.txt" None None None None [].

(** The primary file alone on disk. *)
Definition disk (rows : list (list jval)) : gmap string file :=
  {[ "AllSeq.json"%string := FJson (mk_doc rows None) ]}.

(** The store after [lock_read_init] on a table. *)
Definition read (rows : list (list jval)) : machine :=
  state_of (lock_read_init (mk_machine (disk rows) [] fresh)).

(** Sequences 10, 20, 30: the first reserved by alice, the second by bob,
    the third by nobody. *)
Definition reservations : SequencesData :=
  self (read [row 10 1 "alice"; row 20 2 "bob"; row 30 3 ""]).

(** Sequences 5, 6, 7 with priorities 1, 3, 2. *)
Definition three : machine :=
  read [row 5 1 ""; row 6 3 ""; row 7 2 ""].

(** A record last advanced on 2015-01-01, seen on 2015-03-02, sixty days
    later: ten stationary updates, no reservation. *)
Definition stale : ali :=
  AliquotSequence.mk 276 (Some 120) (Some 1000) "" "2^3 * 3 * 7" ""
                     JNull "" (JStr "2015-01-01") "" 10 0 JNull JNull None.
Definition today : Z := 735659.

(** [_SequencesData('AllSeq')]: a primary file whose name has no ['.json']
    in it, and no text file named. *)
Definition bare : SequencesData :=
  match __init__ "AllSeq" "" with
  | inr st => st
  | inl _ => fresh
  end.

(** [bare] after [lock_read_init] on a table of two complete records. *)
Definition bare_read : machine :=
  state_of (lock_read_init
              (mk_machine {[ "AllSeq"%string :=
                               FJson (mk_doc [row 5 1 ""; row 6 3 ""] None) ]}
                          [] bare)).

(** Sequence 5 read from the file, then pushed again with new information,
    then dropped. *)
Definition updated : SequencesData :=
  state_of (push_new_info (record 5 2 "") (self (read [row 5 1 ""]))).
Definition updated_dropped : SequencesData := state_of (drop [5] updated).

(** The id map of [three]. *)
Definition three_data : gmap Z ali := default ∅ (_data (self three)).

(** The table [three] was read from. *)
Definition three_doc : json_doc :=
  mk_doc [row 5 1 ""; row 6 3 ""; row 7 2 ""] None.

(** A working session on [three]: 6 is dropped, the generator
    [pop_n_todo(2)] is resumed once (it yields 5), 5 comes back with new
    information, and a new sequence 9 is added. *)
Definition session : list call :=
  [Drop [6]; PopNext 2; Push (record 5 4 ""); Push (record 9 1 "bob")].
Definition after_session : SequencesData :=
  default fresh (run_calls session (self three)).

(** [three] after one resumption of [pop_n_todo(1)]. *)
Definition popped : SequencesData :=
  state_of (pop_n_todo_step 1 (self three)).

(** [three] after [unlock_write]: the lock has been released, the object
    still holds what it read. *)
Definition released : machine := state_of (unlock_write three).
End Example.

(** * The rest of the module

    The functions of [mfaliquot/application/__init__.py] that the
    statements above did not need, and the reservation update of
    [mfaliquot/application/reservations.py] that drives
    [reserve_seqs]/[unreserve_seqs]. *)

(** ** AliquotSequence, continued *)



(** ** _SequencesData, continued *)

(** [_lock_init_empty]: [_Heap()] heapifies the empty list. *)
Definition _lock_init_empty : M machine unit :=
  bind _lock (fun _ =>
    on_self (fun st => Ok tt (set_heap (Some []) (set_data (Some ∅) st)))).

(** [len(self)], delegated to [self._data]. *)
Definition __len__ : M SequencesData nat :=
  fun st =>
    match _data st with
    | None => Raise AttributeError st
    | Some d => Ok (size d) st
    end.

(** A call on a loaded store that returns normally, with the store it
    leaves; [push_new_info] for any record, its id known or not. *)
Definition apply_call (c : call) (st : SequencesData) : option SequencesData :=
  match c with
  | Push a => returned (push_new_info a st)
  | Drop seqs => returned (drop seqs st)
  | PopNext n => returned (pop_n_todo_step n st)
  end.

Fixpoint apply_calls (cs : list call) (st : SequencesData)
  : option SequencesData :=
  match cs with
  | [] => Some st
  | c :: cs' =>
    match apply_call c st with
    | Some st' => apply_calls cs' st'
    | None => None
    end
  end.

(** The entry at [addr] is one [pop_n_todo] yields: it exists and its
    [seq] cell is an id other than 0 ([if seq:] skips [None] and 0
    alike). *)
Definition queued (E : list heap_entry) (addr : nat) : Prop :=
  exists e s, E !! addr = Some e /\ ent_seq e = Some s /\ s <> 0.

(** ** SequencesManager, continued *)

(** The number a scalar cell stands for, if any: [True == 1 == 1.0]. *)
Definition jnum (v : jval) : option Q :=
  match v with
  | JBool b => Some (if b then 1 else 0)%Q
  | JInt z => Some (inject_Z z)
  | JNum q => Some q
  | JNull | JStr _ => None
  end.

(** Python's [==] on scalar cells, which is how a dict tells its keys
    apart: [None] equals only itself, a string the same string, and
    booleans, integers and floats are compared by value. *)
Definition jval_eqb (u v : jval) : bool :=
  match u, v with
  | JNull, JNull => true
  | JStr s, JStr t => String.eqb s t
  | _, _ =>
    match jnum u, jnum v with
    | Some p, Some q => Qeq_bool p q
    | _, _ => false
    end
  end.

(** [self.values()], delegated to [self._data]; the records come in the
    order the dict iterates, for which [map_to_list] stands. *)
Definition values : M SequencesData (list ali) :=
  fun st =>
    match _data st with
    | None => Raise AttributeError st
    | Some d => Ok (map_to_list d).*2 st
    end.







(** [c[key] += 1] on a [Counter], whose items stay in the order their
    keys were first counted. *)
Fixpoint count_add {K} (eqb : K -> K -> bool) (key : K) (c : list (K * Z))
  : list (K * Z) :=
  match c with
  | [] => [(key, 1)]
  | (k, n) :: c' =>
    if eqb k key then (k, n + 1) :: c' else (k, n) :: count_add eqb key c'
  end.

(** The running values of the first loop of [calc_common_stats]. *)
Record tallies : Type := mk_tallies {
  sizes : list (Z * Z);
  lens : list (Z * Z);
  guides : list (string * Z);
  progs : list (jval * Z);
  cofacts : list (string * Z);
  totsiz : Z;
  totlen : Z;
  avginc : Q;
  totprog : Z
}.

Definition no_tallies : tallies := mk_tallies [] [] [] [] [] 0 0 0 0.

(** [isinstance(v, int)]: [bool] is a subclass of [int]. *)
Definition is_int (v : jval) : bool :=
  match v with JInt _ | JBool _ => true | _ => false end.

(** The body of [for ali in self.values()]: [totsiz += ali.size] and
    [totlen += ali.index] refuse [None], [ali.index/ali.size] refuses a
    zero size. *)
Definition tally (t : tallies) (a : ali) : exn + tallies :=
  match AliquotSequence.size a with
  | None => inl TypeError
  | Some sz =>
    match AliquotSequence.index a with
    | None => inl TypeError
    | Some ix =>
      if sz =? 0 then inl ZeroDivisionError
      else
        inr (mk_tallies
               (count_add Z.eqb sz (sizes t))
               (count_add Z.eqb ix (lens t))
               (count_add String.eqb (AliquotSequence.guide a) (guides t))
               (count_add jval_eqb (AliquotSequence.progress a) (progs t))
               (count_add String.eqb (AliquotSequence.cofactor a) (cofacts t))
               (totsiz t + sz) (totlen t + ix)
               (avginc t + inject_Z ix / inject_Z sz)%Q
               (if is_int (AliquotSequence.progress a)
                then totprog t + 1 else totprog t))
    end
  end.

Fixpoint tally_all (t : tallies) (vals : list ali) : exn + tallies :=
  match vals with
  | [] => inr t
  | a :: vals' =>
    match tally t a with
    | inl e => inl e
    | inr t' => tally_all t' vals'
    end
  end.

(** [sorted(lens.items(), key=lambda tup: tup[0])]: a stable sort. *)
Fixpoint insert_by_key (x : Z * Z) (l : list (Z * Z)) : list (Z * Z) :=
  match l with
  | [] => [x]
  | y :: l' => if y.1 <=? x.1 then y :: insert_by_key x l' else x :: l
  end.

Definition sorted_by_key (l : list (Z * Z)) : list (Z * Z) :=
  fold_left (fun acc x => insert_by_key x acc) l [].

(** The loop that fills [lentable]: each row holds the length, its count
    and the share of the shorter sequences among the others, in percent.
    The share is kept as the number it is; Python renders it with
    ["{:2.2f}"]. *)
Fixpoint lentable_loop (data_total lencount : Z) (items : list (Z * Z))
  : exn + list (Z * Z * Q) :=
  match items with
  | [] => inr []
  | (leng, cnt) :: items' =>
    if data_total - cnt =? 0 then inl ZeroDivisionError
    else
      let row := (leng, cnt,
                  (inject_Z lencount / inject_Z (data_total - cnt) * 100)%Q) in
      match lentable_loop data_total (lencount + cnt) items' with
      | inl e => inl e
      | inr rows => inr (row :: rows)
      end
  end.

(** What [calc_common_stats] returns: the five tables and the four
    numbers. *)
Record stats : Type := mk_stats {
  sizetable : list (Z * Z);
  cofactable : list (string * Z);
  guidetable : list (string * Z);
  progtable : list (jval * Z);
  lentable : list (Z * Z * Q);
  len_per_size : Q;
  avg_inc : Q;
  tot_prog : Z;
  prog_share : Q
}.

(** [calc_common_stats]. *)
Definition calc_common_stats : M SequencesData stats :=
  bind values (fun vals =>
  match tally_all no_tallies vals with
  | inl e => raise e
  | inr t =>
    bind __len__ (fun n =>
      let data_total := Z.of_nat n in
      match lentable_loop data_total 0 (sorted_by_key (lens t)) with
      | inl e => raise e
      | inr rows =>
        if totsiz t =? 0 then raise ZeroDivisionError
        else if data_total =? 0 then raise ZeroDivisionError
        else
          ret (mk_stats (sizes t) (cofacts t) (guides t) (progs t) rows
                        (inject_Z (totlen t) / inject_Z (totsiz t))%Q
                        (avginc t / inject_Z data_total)%Q
                        (totprog t)
                        (inject_Z (totprog t) / inject_Z data_total)%Q)
      end)
  end).

(** ** reservations.update_apply_all_res

    The function spiders the reservation thread and fetches the lists of
    the mass reservers, then applies what it found to the store.  What the
    network gave is an input here: [spidered] is what
    [spider_res_thread(last_pid)] returned, and [mass] pairs each key of
    [mass_reses] with what [parse_mass_reservation] returned for it, in
    the order of the dict.  [now] is [strftime(DATETIMEFMT, gmtime())]. *)






Section update.
Context {Pid Pages : Type}.

End update.



(** ** More concrete inputs *)

Module Sample.
(** [_SequencesData('AllSeq.json').acquire_lock()] on a disk that has no
    primary file. *)
Definition waiting : machine :=
  state_of (acquire_lock 0 (mk_machine ∅ [] Example.fresh)).

(** The row of [AliquotSequence(seq=s)]: every other cell at its default. *)
Definition blank_row (s : Z) : list jval :=
  [JInt s; JNull; JNull; JStr ""; JStr ""; JStr ""; JNull; JStr ""; JNull;
   JStr ""; JInt 0; JInt 0; JNull; JNull].

(** [AliquotSequence(seq=s)]. *)
Definition blank (s : Z) : ali :=
  AliquotSequence.mk s None None "" "" "" JNull "" JNull "" 0 0 JNull JNull
                     None.

(** A store read from a table whose second record is not fully described. *)
Definition sketchy : machine :=
  Example.read [Example.row 5 1 ""; blank_row 6].
Definition sketchy_data : gmap Z ali := default ∅ (_data (self sketchy)).
Definition sketchy_heap : list nat := default [] (_heap (self sketchy)).

(** A session on [Example.three] in which 5 is pushed again while its
    first entry is still in the heap. *)
Definition overwriting : list call :=
  [Push (Example.record 5 4 ""); Drop [6]; PopNext 2].
Definition after_overwriting : SequencesData :=
  default Example.fresh (apply_calls overwriting (self Example.three)).

(** Sequences 5 and 6, of lengths 1000 and 900. *)
Definition mixed : SequencesData :=
  self (Example.read [Example.row 5 1 "";
                      <[2%nat := JInt 900]> (Example.row 6 2 "")]).



(** Sequence 5 read from the file and then dropped: the heap holds its
    tombstone. *)
Definition dropped : SequencesData :=
  state_of (drop [5] (self (Example.read [Example.row 5 1 ""]))).
End Sample.

(** * Proofs *)

(** ** Reservations *)

Lemma set_res_id a : AliquotSequence.set_res (AliquotSequence.res a) a = a.
Proof. by destruct a. Qed.

Lemma set_res_set_res v w a :
  AliquotSequence.set_res v (AliquotSequence.set_res w a)
  = AliquotSequence.set_res v a.
Proof. by destruct a. Qed.

Lemma same_but_res_set v a : same_but_res a (AliquotSequence.set_res v a).
Proof. by destruct a. Qed.

Lemma same_but_res_refl a : same_but_res a a.
Proof. by destruct a. Qed.

Lemma is_empty_str_true s : is_empty_str s = true <-> s = EmptyString.
Proof. unfold is_empty_str. apply String.eqb_eq. Qed.

Lemma reserve_loop_cons name s seqs d st D A O :
  reserve_loop name (s :: seqs) D A O (loaded d st) =
  match d !! s with
  | None => reserve_loop name seqs (D ++ [s]) A O (loaded d st)
  | Some a =>
    if is_empty_str (AliquotSequence.res a)
    then reserve_loop name seqs D A O
           (loaded (<[s := AliquotSequence.set_res name a]> d) st)
    else if String.eqb name (AliquotSequence.res a)
    then reserve_loop name seqs D (A ++ [s]) O (loaded d st)
    else reserve_loop name seqs D A (O ++ [(s, AliquotSequence.res a)])
                      (loaded d st)
  end.
Proof.
  cbn [reserve_loop].
  unfold bind, __contains__, __getitem__, setattr_res, bind, __getitem__.
  cbn [_data loaded set_data].
  destruct (d !! s) as [a|] eqn:Hs.
  - rewrite bool_decide_eq_true_2 by eauto. cbn. rewrite Hs.
    destruct (is_empty_str (AliquotSequence.res a));
      [cbn; by rewrite Hs | by destruct (String.eqb name _)].
  - rewrite bool_decide_eq_false_2 by (by intros [? ?]). done.
Qed.

Lemma unreserve_loop_cons name s seqs d st D N W :
  unreserve_loop name (s :: seqs) D N W (loaded d st) =
  match d !! s with
  | None => unreserve_loop name seqs (D ++ [s]) N W (loaded d st)
  | Some a =>
    if is_empty_str (AliquotSequence.res a)
    then unreserve_loop name seqs D (N ++ [s]) W (loaded d st)
    else if String.eqb name (AliquotSequence.res a)
    then unreserve_loop name seqs D N W
           (loaded (<[s := AliquotSequence.set_res EmptyString a]> d) st)
    else unreserve_loop name seqs D N (W ++ [(s, AliquotSequence.res a)])
                        (loaded d st)
  end.
Proof.
  cbn [unreserve_loop].
  unfold bind, __contains__, __getitem__, setattr_res, bind, __getitem__.
  cbn [_data loaded set_data].
  destruct (d !! s) as [a|] eqn:Hs.
  - rewrite bool_decide_eq_true_2 by eauto. cbn. rewrite Hs.
    destruct (is_empty_str (AliquotSequence.res a)); [done|].
    destruct (String.eqb name (AliquotSequence.res a)); [|done].
    cbn. by rewrite Hs.
  - rewrite bool_decide_eq_false_2 by (by intros [? ?]). done.
Qed.

Lemma lookup_reserve_map name seqs d k :
  reserve_map name seqs d !! k =
  (fun a => if is_empty_str (AliquotSequence.res a) && bool_decide (k ∈ seqs)
            then AliquotSequence.set_res name a else a) <$> d !! k.
Proof. unfold reserve_map. rewrite map_lookup_imap. by destruct (d !! k). Qed.

Lemma lookup_unreserve_map name seqs d k :
  unreserve_map name seqs d !! k =
  (fun a => if negb (is_empty_str (AliquotSequence.res a))
               && String.eqb name (AliquotSequence.res a)
               && bool_decide (k ∈ seqs)
            then AliquotSequence.set_res EmptyString a else a) <$> d !! k.
Proof. unfold unreserve_map. rewrite map_lookup_imap. by destruct (d !! k). Qed.

Lemma reserve_map_nil name d : reserve_map name [] d = d.
Proof.
  apply map_eq; intros k. rewrite lookup_reserve_map.
  destruct (d !! k) as [a|]; [|done]. cbn.
  rewrite bool_decide_eq_false_2 by apply not_elem_of_nil.
  by rewrite andb_false_r.
Qed.

Lemma unreserve_map_nil name d : unreserve_map name [] d = d.
Proof.
  apply map_eq; intros k. rewrite lookup_unreserve_map.
  destruct (d !! k) as [a|]; [|done]. cbn.
  rewrite bool_decide_eq_false_2 by apply not_elem_of_nil.
  by rewrite andb_false_r.
Qed.

Lemma bool_decide_cons_ne (k s : Z) (seqs : list Z) :
  s ≠ k -> bool_decide (k ∈ s :: seqs) = bool_decide (k ∈ seqs).
Proof.
  intros Hne. apply bool_decide_ext. rewrite elem_of_cons.
  split; [intros [->|?]; [done|done] | by right].
Qed.

(** A requested id that is absent or already reserved leaves the map as the
    rest of the request leaves it. *)
Lemma reserve_map_cons_skip name s seqs d :
  match d !! s with
  | None => True
  | Some a => is_empty_str (AliquotSequence.res a) = false
  end ->
  reserve_map name (s :: seqs) d = reserve_map name seqs d.
Proof.
  intros Hs. apply map_eq; intros k. rewrite !lookup_reserve_map.
  destruct (decide (s = k)) as [->|Hne].
  - destruct (d !! k) as [a|]; [|done]. cbn. by rewrite Hs.
  - by rewrite bool_decide_cons_ne.
Qed.

Lemma reserve_map_cons_set name s seqs d a :
  d !! s = Some a -> is_empty_str (AliquotSequence.res a) = true ->
  reserve_map name seqs (<[s := AliquotSequence.set_res name a]> d)
  = reserve_map name (s :: seqs) d.
Proof.
  intros Hs He. apply map_eq; intros k. rewrite !lookup_reserve_map.
  destruct (decide (s = k)) as [->|Hne].
  - rewrite lookup_insert_eq, Hs. cbn. rewrite He.
    rewrite (bool_decide_eq_true_2 (k ∈ k :: seqs)) by apply list_elem_of_here.
    cbn. f_equal.
    destruct (_ && _); [apply set_res_set_res|done].
  - rewrite lookup_insert_ne by done. by rewrite bool_decide_cons_ne.
Qed.

Lemma unreserve_map_cons_skip name s seqs d :
  match d !! s with
  | None => True
  | Some a => negb (is_empty_str (AliquotSequence.res a))
              && String.eqb name (AliquotSequence.res a) = false
  end ->
  unreserve_map name (s :: seqs) d = unreserve_map name seqs d.
Proof.
  intros Hs. apply map_eq; intros k. rewrite !lookup_unreserve_map.
  destruct (decide (s = k)) as [->|Hne].
  - destruct (d !! k) as [a|]; [|done]. cbn. by rewrite Hs.
  - by rewrite bool_decide_cons_ne.
Qed.

Lemma unreserve_map_cons_set name s seqs d a :
  d !! s = Some a ->
  is_empty_str (AliquotSequence.res a) = false ->
  String.eqb name (AliquotSequence.res a) = true ->
  unreserve_map name seqs (<[s := AliquotSequence.set_res EmptyString a]> d)
  = unreserve_map name (s :: seqs) d.
Proof.
  intros Hs He Hn. apply map_eq; intros k. rewrite !lookup_unreserve_map.
  destruct (decide (s = k)) as [->|Hne].
  - rewrite lookup_insert_eq, Hs. cbn. rewrite He, Hn.
    rewrite (bool_decide_eq_true_2 (k ∈ k :: seqs)) by apply list_elem_of_here.
    cbn. first [done | f_equal; by destruct a].
  - rewrite lookup_insert_ne by done. by rewrite bool_decide_cons_ne.
Qed.

Lemma omap_pointwise {A B} (f g : A -> option B) (l : list A) :
  (forall x, f x = g x) -> omap f l = omap g l.
Proof.
  intros Hfg. induction l as [|x l IH]; [done|].
  cbn. rewrite Hfg, IH. done.
Qed.

(** Setting the [res] cell of one record does not change which ids are
    absent. *)
Lemma absent_insert d s a b seqs :
  d !! s = Some a -> absent (<[s := b]> d) seqs = absent d seqs.
Proof.
  intros Hs. unfold absent. apply list_filter_iff. intros k.
  destruct (decide (s = k)) as [->|Hne].
  - rewrite lookup_insert_eq, Hs. naive_solver.
  - by rewrite lookup_insert_ne.
Qed.

Lemma absent_cons_present d s a seqs :
  d !! s = Some a -> absent d (s :: seqs) = absent d seqs.
Proof.
  intros Hs. unfold absent. rewrite filter_cons_False; [done|]. by rewrite Hs.
Qed.

Lemma absent_cons_absent d s seqs :
  d !! s = None -> absent d (s :: seqs) = s :: absent d seqs.
Proof. intros Hs. unfold absent. by rewrite filter_cons_True. Qed.

(** Once [name] has taken an unreserved record, that record counts neither
    before nor after as owned by somebody else. *)
Lemma owned_by_other_claimed name d s a seqs :
  d !! s = Some a -> is_empty_str (AliquotSequence.res a) = true ->
  owned_by_other name (<[s := AliquotSequence.set_res name a]> d) seqs
  = owned_by_other name d seqs.
Proof.
  intros Hs He. unfold owned_by_other. apply omap_pointwise.
  intros k. destruct (decide (s = k)) as [->|Hne].
  - rewrite lookup_insert_eq, Hs, He. cbn.
    rewrite String.eqb_refl. by rewrite andb_false_r.
  - by rewrite lookup_insert_ne.
Qed.

Lemma owned_by_other_released name d s a seqs :
  d !! s = Some a -> String.eqb name (AliquotSequence.res a) = true ->
  owned_by_other name (<[s := AliquotSequence.set_res EmptyString a]> d) seqs
  = owned_by_other name d seqs.
Proof.
  intros Hs Hn. unfold owned_by_other. apply omap_pointwise.
  intros k. destruct (decide (s = k)) as [->|Hne].
  - rewrite lookup_insert_eq, Hs, Hn. cbn.
    by rewrite andb_false_r.
  - by rewrite lookup_insert_ne.
Qed.

Lemma owned_by_other_cons name d s seqs :
  owned_by_other name d (s :: seqs) =
  match d !! s with
  | Some a =>
    if negb (is_empty_str (AliquotSequence.res a))
       && negb (String.eqb name (AliquotSequence.res a))
    then (s, AliquotSequence.res a) :: owned_by_other name d seqs
    else owned_by_other name d seqs
  | None => owned_by_other name d seqs
  end.
Proof.
  unfold owned_by_other. cbn [omap list_omap].
  destruct (d !! s) as [a|]; [|done]. by destruct (_ && _).
Qed.

Lemma res_of_loaded d st k :
  res_of (loaded d st) k = AliquotSequence.res <$> d !! k.
Proof. unfold res_of. cbn. by destruct (d !! k). Qed.

(** The loop of [reserve_seqs] against its closed form, for any lists
    accumulated so far. *)
Lemma reserve_loop_spec name st seqs : forall d D A O,
  exists A',
    reserve_loop name seqs D A O (loaded d st)
    = Ok (D ++ absent d seqs, A ++ A', O ++ owned_by_other name d seqs)
         (loaded (reserve_map name seqs d) st)
    /\ forall s, s ∈ A' ->
         s ∈ seqs /\ res_of (loaded (reserve_map name seqs d) st) s = Some name.
Proof.
  induction seqs as [|s seqs IH]; intros d D A O.
  - exists []. split; [|by intros ? ?%elem_of_nil].
    cbn. unfold ret. by rewrite !app_nil_r, reserve_map_nil.
  - rewrite reserve_loop_cons, owned_by_other_cons.
    destruct (d !! s) as [a|] eqn:Hs.
    + destruct (is_empty_str (AliquotSequence.res a)) eqn:He; cbn [negb andb].
      * destruct (IH (<[s := AliquotSequence.set_res name a]> d) D A O)
          as (A' & -> & HA).
        exists A'. rewrite (reserve_map_cons_set _ _ _ _ _ Hs He) in *.
        rewrite (absent_insert _ _ _ _ _ Hs), (absent_cons_present _ _ _ _ Hs).
        rewrite (owned_by_other_claimed _ _ _ _ _ Hs He).
        split; [done|]. intros x Hx. destruct (HA x Hx). split; [by right|done].
      * assert (reserve_map name (s :: seqs) d = reserve_map name seqs d) as Hm.
        { apply reserve_map_cons_skip. by rewrite Hs. }
        rewrite (absent_cons_present _ _ _ _ Hs), Hm.
        destruct (String.eqb name (AliquotSequence.res a)) eqn:Hn; cbn [negb].
        -- destruct (IH d D (A ++ [s]) O) as (A' & -> & HA).
           exists (s :: A'). split; [by rewrite <- app_assoc|].
           intros x [->|Hx]%elem_of_cons.
           ++ split; [by left|]. rewrite res_of_loaded, lookup_reserve_map, Hs.
              cbn. rewrite He. cbn. f_equal. symmetry. by apply String.eqb_eq.
           ++ destruct (HA x Hx). split; [by right|done].
        -- destruct (IH d D A (O ++ [(s, AliquotSequence.res a)])) as (A' & -> & HA).
           exists A'. split; [by rewrite <- app_assoc|].
           intros x Hx. destruct (HA x Hx). split; [by right|done].
    + assert (reserve_map name (s :: seqs) d = reserve_map name seqs d) as Hm.
      { apply reserve_map_cons_skip. by rewrite Hs. }
      rewrite (absent_cons_absent _ _ _ Hs), Hm.
      destruct (IH d (D ++ [s]) A O) as (A' & -> & HA).
      exists A'. split; [by rewrite <- app_assoc|].
      intros x Hx. destruct (HA x Hx). split; [by right|done].
Qed.

(** The loop of [unreserve_seqs] against its closed form. *)
Lemma unreserve_loop_spec name st seqs : forall d D N W,
  exists N',
    unreserve_loop name seqs D N W (loaded d st)
    = Ok (D ++ absent d seqs, N ++ N', W ++ owned_by_other name d seqs)
         (loaded (unreserve_map name seqs d) st)
    /\ forall s, s ∈ N' ->
         s ∈ seqs
         /\ res_of (loaded (unreserve_map name seqs d) st) s = Some EmptyString.
Proof.
  induction seqs as [|s seqs IH]; intros d D N W.
  - exists []. split; [|by intros ? ?%elem_of_nil].
    cbn. unfold ret. by rewrite !app_nil_r, unreserve_map_nil.
  - rewrite unreserve_loop_cons, owned_by_other_cons.
    destruct (d !! s) as [a|] eqn:Hs.
    + destruct (is_empty_str (AliquotSequence.res a)) eqn:He; cbn [negb andb].
      * assert (unreserve_map name (s :: seqs) d = unreserve_map name seqs d) as Hm.
        { apply unreserve_map_cons_skip. by rewrite Hs, He. }
        rewrite (absent_cons_present _ _ _ _ Hs), Hm.
        destruct (IH d D (N ++ [s]) W) as (N' & -> & HN).
        exists (s :: N'). split; [by rewrite <- app_assoc|].
        intros x [->|Hx]%elem_of_cons.
        -- split; [by left|]. rewrite res_of_loaded, lookup_unreserve_map, Hs.
           cbn. rewrite He. cbn. f_equal. by apply is_empty_str_true.
        -- destruct (HN x Hx). split; [by right|done].
      * destruct (String.eqb name (AliquotSequence.res a)) eqn:Hn; cbn [negb].
        -- destruct (IH (<[s := AliquotSequence.set_res EmptyString a]> d) D N W)
             as (N' & -> & HN).
           exists N'. rewrite (unreserve_map_cons_set _ _ _ _ _ Hs He Hn) in *.
           rewrite (absent_insert _ _ _ _ _ Hs), (absent_cons_present _ _ _ _ Hs).
           rewrite (owned_by_other_released _ _ _ _ _ Hs Hn).
           split; [done|]. intros x Hx. destruct (HN x Hx). split; [by right|done].
        -- assert (unreserve_map name (s :: seqs) d = unreserve_map name seqs d) as Hm.
           { apply unreserve_map_cons_skip. by rewrite Hs, He, Hn. }
           rewrite (absent_cons_present _ _ _ _ Hs), Hm.
           destruct (IH d D N (W ++ [(s, AliquotSequence.res a)])) as (N' & -> & HN).
           exists N'. split; [by rewrite <- app_assoc|].
           intros x Hx. destruct (HN x Hx). split; [by right|done].
    + assert (unreserve_map name (s :: seqs) d = unreserve_map name seqs d) as Hm.
      { apply unreserve_map_cons_skip. by rewrite Hs. }
      rewrite (absent_cons_absent _ _ _ Hs), Hm.
      destruct (IH d (D ++ [s]) N W) as (N' & -> & HN).
      exists N'. split; [by rewrite <- app_assoc|].
      intros x Hx. destruct (HN x Hx). split; [by right|done].
Qed.

(** C8.  [reserve_seqs] and [unreserve_seqs] classify every requested id and
    never raise on a store whose data has been read: the call returns the
    absent ids, the ids it found already in the wanted state, and the ids
    owned by somebody else with their owner, and leaves the id map in the
    closed form [reserve_map] / [unreserve_map].  On the store holding 10
    (alice), 20 (bob) and 30 (nobody), reserving [10; 20; 30] for alice
    answers already-owned [10], other-owns [(20, bob)] and gives 30 to alice;
    unreserving 30 for alice clears it; unreserving 30 for bob afterwards
    reports 30 as not reserved. *)
Theorem reserve_unreserve_classify :
  (forall st d name seqs,
      exists already,
        reserve_seqs name seqs (loaded d st)
        = Ok (absent d seqs, already, owned_by_other name d seqs)
             (loaded (reserve_map name seqs d) st)
        /\ Forall (fun s => s ∈ seqs
                            /\ res_of (loaded (reserve_map name seqs d) st) s
                               = Some name) already)
  /\ (forall st d name seqs,
         exists not_reserveds,
           unreserve_seqs name seqs (loaded d st)
           = Ok (absent d seqs, not_reserveds, owned_by_other name d seqs)
                (loaded (unreserve_map name seqs d) st)
           /\ Forall (fun s => s ∈ seqs
                               /\ res_of (loaded (unreserve_map name seqs d) st) s
                                  = Some EmptyString) not_reserveds)
  /\ (exists st1 st2,
         reserve_seqs "alice" [10; 20; 30] Example.reservations
         = Ok ([], [10], [(20, "bob"%string)]) st1
         /\ res_of st1 30 = Some "alice"%string
         /\ unreserve_seqs "alice" [30] st1 = Ok ([], [], []) st2
         /\ res_of st2 30 = Some EmptyString
         /\ unreserve_seqs "bob" [30] st2 = Ok ([], [30], []) st2).
Proof.
  split; [|split].
  - intros st d name seqs.
    destruct (reserve_loop_spec name st seqs d [] [] []) as (A' & Heq & HA).
    exists A'. split; [exact Heq|]. by apply Forall_forall.
  - intros st d name seqs.
    destruct (unreserve_loop_spec name st seqs d [] [] []) as (N' & Heq & HN).
    exists N'. split; [exact Heq|]. by apply Forall_forall.
  - eexists _, _. repeat split; vm_compute; reflexivity.
Qed.

(** ** The frame of the reservation calls *)

Lemma reserve_loop_unloaded name seqs D A O st :
  _data st = None ->
  state_of (reserve_loop name seqs D A O st) = st.
Proof.
  intros Hd. destruct seqs as [|s seqs]; [done|].
  cbn. unfold bind, __contains__. by rewrite Hd.
Qed.

Lemma unreserve_loop_unloaded name seqs D N W st :
  _data st = None ->
  state_of (unreserve_loop name seqs D N W st) = st.
Proof.
  intros Hd. destruct seqs as [|s seqs]; [done|].
  cbn. unfold bind, __contains__. by rewrite Hd.
Qed.

Lemma loaded_data st d : _data st = Some d -> loaded d st = st.
Proof. intros Hd. destruct st. cbn in *. by subst. Qed.

Lemma only_res_changed_refl seqs st : only_res_changed seqs st st.
Proof.
  unfold only_res_changed. do 7 (split; [done|]).
  destruct (_data st) as [d|]; [|done].
  split; [done|]. intros k a Hk. exists a.
  split; [done|]. split; [apply same_but_res_refl|done].
Qed.

(** A map obtained by rewriting [res] cells of requested records frames the
    store. *)
Lemma only_res_changed_map seqs st d (f : Z -> ali -> option string) :
  (forall k a, k ∉ seqs -> f k a = None) ->
  only_res_changed seqs (loaded d st)
    (loaded (map_imap (fun k a => Some (match f k a with
                                        | Some v => AliquotSequence.set_res v a
                                        | None => a
                                        end)) d) st).
Proof.
  intros Hf. unfold only_res_changed. cbn.
  do 7 (split; [done|]). split.
  - apply set_eq. intros k. rewrite !elem_of_dom, map_lookup_imap.
    destruct (d !! k); cbn; [|by split; intros [? ?]].
    split; eauto.
  - intros k a Hk. rewrite map_lookup_imap, Hk. cbn.
    eexists. split; [done|]. split.
    + destruct (f k a); [apply same_but_res_set|apply same_but_res_refl].
    + intros Hnot. by rewrite (Hf _ _ Hnot).
Qed.

Lemma reserve_map_frame name seqs st d :
  only_res_changed seqs (loaded d st) (loaded (reserve_map name seqs d) st).
Proof.
  pose (f := fun (k : Z) (a : ali) =>
               if is_empty_str (AliquotSequence.res a) && bool_decide (k ∈ seqs)
               then Some name else None).
  assert (reserve_map name seqs d
          = map_imap (fun k a => Some (match f k a with
                                       | Some v => AliquotSequence.set_res v a
                                       | None => a
                                       end)) d) as ->.
  { unfold reserve_map, f.
    apply map_eq. intros k. rewrite !map_lookup_imap.
    destruct (d !! k) as [a|]; [|done]. cbn. by destruct (_ && _). }
  apply only_res_changed_map. intros k a Hk. unfold f.
  rewrite (bool_decide_eq_false_2 _ Hk). by rewrite andb_false_r.
Qed.

Lemma unreserve_map_frame name seqs st d :
  only_res_changed seqs (loaded d st) (loaded (unreserve_map name seqs d) st).
Proof.
  pose (f := fun (k : Z) (a : ali) =>
               if negb (is_empty_str (AliquotSequence.res a))
                  && String.eqb name (AliquotSequence.res a)
                  && bool_decide (k ∈ seqs)
               then Some EmptyString else None).
  assert (unreserve_map name seqs d
          = map_imap (fun k a => Some (match f k a with
                                       | Some v => AliquotSequence.set_res v a
                                       | None => a
                                       end)) d) as ->.
  { unfold unreserve_map, f.
    apply map_eq. intros k. rewrite !map_lookup_imap.
    destruct (d !! k) as [a|]; [|done]. cbn. by destruct (_ && _). }
  apply only_res_changed_map. intros k a Hk. unfold f.
  rewrite (bool_decide_eq_false_2 _ Hk). by rewrite andb_false_r.
Qed.

(** C10.  Whatever the store, the owner and the id list, [reserve_seqs] and
    [unreserve_seqs] leave the file names, the heap list, the heap entries
    and the key set of the id map as they were, and every record as it was
    except possibly for its [res] cell; records whose id is not in the list
    are untouched. *)
Theorem reservation_frame :
  forall st name seqs,
    only_res_changed seqs st (state_of (reserve_seqs name seqs st))
    /\ only_res_changed seqs st (state_of (unreserve_seqs name seqs st)).
Proof.
  intros st name seqs. unfold reserve_seqs, unreserve_seqs.
  destruct (_data st) as [d|] eqn:Hd.
  - rewrite <- (loaded_data _ _ Hd). split.
    + destruct (reserve_loop_spec name st seqs d [] [] []) as (A' & -> & _).
      apply reserve_map_frame.
    + destruct (unreserve_loop_spec name st seqs d [] [] []) as (N' & -> & _).
      apply unreserve_map_frame.
  - rewrite reserve_loop_unloaded, unreserve_loop_unloaded by done.
    split; apply only_res_changed_refl.
Qed.

(** ** Priority *)

(** C3.  Whenever the record's progress is a date more than
    [begin_time_penalty] days old, [calculate_priority] does not reach the
    decay formula: it raises [UnboundLocalError] on the read of [days], and
    no priority is stored.  The record of the example (ten stationary
    updates, no reservation, progress sixty days old, parameters 90 and 30)
    is such a record. *)
Theorem calculate_priority_decay_raises :
  forall today max_update_period begin_time_penalty res_factor a s lastprog,
    AliquotSequence.progress a = JStr s ->
    parse_date s = inr lastprog ->
    begin_time_penalty < today - lastprog ->
    AliquotSequence.calculate_priority
      today max_update_period begin_time_penalty res_factor a
    = inl UnboundLocalError.
Proof.
  intros today mup btp rf a s lastprog Hp Hd Hlt.
  unfold AliquotSequence.calculate_priority. rewrite Hp, Hd.
  apply Z.ltb_lt in Hlt. by rewrite Hlt.
Qed.

Lemma calculate_priority_decay_raises_witness :
  Example.today - 735599 = 60
  /\ AliquotSequence.calculate_priority Example.today 90 30 (1 # 2) Example.stale
     = inl UnboundLocalError.
Proof.
  split; [reflexivity|].
  apply (calculate_priority_decay_raises Example.today 90 30 (1 # 2)
           Example.stale "2015-01-01" 735599);
    [reflexivity | vm_compute; reflexivity | vm_compute; reflexivity].
Defined.

(** ** Locking *)

Lemma same_paths_refl st : same_paths st st.
Proof. done. Qed.

Lemma same_paths_trans st1 st2 st3 :
  same_paths st1 st2 -> same_paths st2 st3 -> same_paths st1 st3.
Proof.
  intros (? & ? & ? & ?) (? & ? & ? & ?). repeat split; congruence.
Qed.

Lemma on_heap_paths {A} (c : (nat -> nat -> exn + bool) -> M (list nat) A) st :
  same_paths st (state_of (on_heap c st)).
Proof.
  unfold on_heap. destruct (_heap st); [|done].
  by destruct (c _ _).
Qed.

Lemma read_row_paths dat st : same_paths st (state_of (read_row dat st)).
Proof.
  unfold read_row. destruct (AliquotSequence.of_list dat); [done|]. done.
Qed.

Lemma read_rows_paths rows : forall st,
  same_paths st (state_of (read_rows rows st)).
Proof.
  induction rows as [|dat rows IH]; intros st; [done|].
  cbn. unfold bind. pose proof (read_row_paths dat st) as H1.
  destruct (read_row dat st) as [[] st'|e st']; [|done].
  eapply same_paths_trans; [exact H1|apply IH].
Qed.

Lemma init_from_paths d st : same_paths st (state_of (init_from d st)).
Proof.
  unfold init_from, bind.
  set (st0 := set_heap _ _).
  assert (same_paths st st0) as H0.
  { unfold st0. by destruct (doc_resdatetime d). }
  pose proof (read_rows_paths (aaData d) st0) as H1.
  destruct (read_rows (aaData d) st0) as [[] st1|e st1]; cbn in *.
  - eapply same_paths_trans; [exact H0|].
    eapply same_paths_trans; [exact H1|apply on_heap_paths].
  - eapply same_paths_trans; eauto.
Qed.

(** What one [lock_read_init] does to the machine besides reading: it logs
    one try, the lock file exists afterwards, and the paths stay. *)
Lemma lock_read_init_effect m :
  let m' := state_of (lock_read_init m) in
  (exists ok, log m' = TryLock ok :: log m)
  /\ is_Some (fs m' !! _lockfile (self m))
  /\ same_paths (self m) (self m').
Proof.
  unfold lock_read_init, bind, _lock.
  destruct (fs m !! _lockfile (self m)) as [f|] eqn:Hl; cbn.
  - split; [by eexists|]. split; [by rewrite Hl|done].
  - set (fs' := <[_ := _]> (fs m)).
    assert (is_Some (fs' !! _lockfile (self m))) as Hin
        by (unfold fs'; rewrite lookup_insert_eq; eauto).
    destruct (fs' !! _jsonfile (self m)) as [[d|t]|]; cbn;
      try (split; [by eexists|]; split; [done|done]).
    unfold on_self. cbn.
    pose proof (init_from_paths d (self m)) as Hp.
    destruct (init_from d (self m)) as [[] st'|e st']; cbn in *;
      (split; [by eexists|]; split; [done|done]).
Qed.

Lemma lock_read_init_held m :
  is_Some (fs m !! _lockfile (self m)) ->
  lock_read_init m = Raise LockError (add_event (TryLock false) m).
Proof.
  intros [f Hf]. unfold lock_read_init, bind, _lock. by rewrite Hf.
Qed.

Lemma attempts_app l1 l2 : attempts (l1 ++ l2) = (attempts l1 + attempts l2)%nat.
Proof. induction l1 as [|[ok|s] l1 IH]; cbn; [done| |done]. by rewrite IH. Qed.

Lemma slept_app l1 l2 : slept (l1 ++ l2) = slept l1 + slept l2.
Proof.
  induction l1 as [|[ok|s] l1 IH]; cbn; [done|done|]. rewrite IH. lia.
Qed.

Lemma is_LockError_true e : is_LockError e = true -> e = LockError.
Proof. by destruct e. Qed.

(** The loop of [__enter__]: it tries at most [iters] times, at least once
    if [iters] is positive, and re-raises the lock error only after all
    [iters] tries, each followed by its one-second sleep. *)
Lemma enter_loop_log others iters : forall f m,
  f = None \/ f = Some LockError ->
  let r := enter_loop others iters f m in
  exists new,
    log (state_of r) = new ++ log m
    /\ (attempts new <= iters)%nat
    /\ (0 < iters -> 1 <= attempts new)%nat
    /\ (raised r = Some LockError ->
        attempts new = iters /\ slept new = Z.of_nat iters).
Proof.
  induction iters as [|k IH]; intros f m Hf r; subst r.
  - exists []. cbn.
    destruct Hf as [->| ->]; cbn; (split; [done|]; split; [lia|]; split; [lia|]);
      [done|by intros _].
  - cbn [enter_loop].
    destruct (lock_read_init_effect m) as ([ok Hlog] & _ & _).
    destruct (lock_read_init m) as [[] m'|e m'] eqn:Hr; cbn in Hlog.
    + exists [TryLock ok]. cbn. rewrite Hlog.
      split; [done|]. split; [lia|]. split; [lia|]. done.
    + destruct (is_LockError e) eqn:He.
      * apply is_LockError_true in He as ->.
        unfold bind, sleep.
        set (m'' := add_event _ _).
        destruct (IH (Some LockError) m'' (or_intror eq_refl))
          as (new & Hnew & Hle & _ & Hraise).
        exists (new ++ [Sleep 1; TryLock ok]).
        rewrite Hnew. unfold m''. cbn. rewrite Hlog, <- app_assoc. cbn.
        rewrite attempts_app, slept_app. cbn.
        split; [done|]. split; [lia|]. split; [lia|].
        intros HL. destruct (Hraise HL) as [-> ->]. split; lia.
      * exists [TryLock ok]. cbn. rewrite Hlog.
        split; [done|]. split; [lia|]. split; [lia|].
        intros [= ->]. done.
Qed.

(** C9.  [_lock] succeeds exactly when the lock file is absent and raises
    [LockError] when it exists; after any [lock_read_init] a second one
    raises [LockError]; [__enter__] with [block_minutes=0] makes exactly one
    attempt, and on a held lock sleeps its one period before re-raising the
    lock error; for any [block_minutes] it tries at least once and at most
    [60 * block_minutes + 1] times, and re-raises the lock error only after
    that many tries and seconds of sleep. *)
Theorem lock_exclusive_and_acquire_attempts :
  (forall m, raised (_lock m)
             = match fs m !! _lockfile (self m) with
               | Some _ => Some LockError
               | None => None
               end)
  /\ (forall m, raised (lock_read_init (state_of (lock_read_init m)))
                = Some LockError)
  /\ (forall others m,
         let m0 := state_of (acquire_lock 0 m) in
         __enter__ others m0
         = match lock_read_init m0 with
           | Ok _ m' => Ok tt m'
           | Raise e m' =>
             if is_LockError e
             then Raise e (state_of (sleep others 1 m'))
             else Raise e m'
           end)
  /\ (forall others (b : nat) m,
         let m0 := state_of (acquire_lock (Z.of_nat b) m) in
         let r := __enter__ others m0 in
         exists new,
           log (state_of r) = new ++ log m0
           /\ (1 <= attempts new <= 60 * b + 1)%nat
           /\ (raised r = Some LockError ->
               attempts new = (60 * b + 1)%nat
               /\ slept new = 60 * Z.of_nat b + 1)).
Proof.
  split; [|split; [|split]].
  - intros m. unfold _lock. by destruct (fs m !! _lockfile (self m)).
  - intros m.
    destruct (lock_read_init_effect m) as (_ & Hheld & (_ & Hp & _)).
    rewrite lock_read_init_held; [done|]. by rewrite Hp.
  - intros others m m0. unfold __enter__.
    assert (_block_minutes (self m0) = Some 0) as -> by done.
    change (Z.to_nat (0 * 60 / 1 + 1)) with 1%nat. cbn [enter_loop].
    destruct (lock_read_init m0) as [[] m'|e m']; [done|].
    by destruct (is_LockError e).
  - intros others b m m0 r. subst r. unfold __enter__.
    assert (_block_minutes (self m0) = Some (Z.of_nat b)) as -> by done.
    assert (Z.to_nat (Z.of_nat b * 60 / 1 + 1) = (60 * b + 1)%nat) as ->.
    { rewrite Z.div_1_r. lia. }
    destruct (enter_loop_log others (60 * b + 1) None m0 (or_introl eq_refl))
      as (new & Hnew & Hle & Hge & Hraise).
    exists new. split; [done|]. split; [lia|].
    intros HL. destruct (Hraise HL) as [-> ->]. split; lia.
Qed.

(** ** Dropping *)

Ltac store_simpl :=
  cbn [_jsonfile _lockfile _txtfile _data _heap resdatetime _block_minutes ents
       set_data set_heap set_ents set_resdatetime set_block_minutes loaded].
Ltac store_simpl_in H :=
  cbn [_jsonfile _lockfile _txtfile _data _heap resdatetime _block_minutes ents
       set_data set_heap set_ents set_resdatetime set_block_minutes loaded] in H.

Lemma drop_cons_absent s seqs st d :
  _data st = Some d -> d !! s = None ->
  drop (s :: seqs) st = Raise (KeyError s) st.
Proof.
  intros Hd Hs. cbn. unfold bind, __contains__. rewrite Hd.
  rewrite bool_decide_eq_false_2; [done|]. rewrite Hs. by intros [? ?].
Qed.

Lemma drop_cons_present s seqs st d a addr e :
  _data st = Some d -> d !! s = Some a ->
  AliquotSequence._heap_entry a = Some addr ->
  ents st !! addr = Some e ->
  drop (s :: seqs) st
  = drop seqs (set_data (Some (delete s d))
                        (set_ents (<[addr := sabotaged e]> (ents st)) st)).
Proof.
  intros Hd Hs Ha He. cbn [drop].
  unfold bind, __contains__, data_getitem, _sabotage_heap_entry, data_delitem.
  rewrite Hd. rewrite bool_decide_eq_true_2 by (rewrite Hs; eauto).
  cbn [negb]. rewrite Hd, Hs, Ha, He. cbn [_data set_ents]. by rewrite Hd, Hs.
Qed.

Lemma drop_prefix_keys seqs : forall keys pre failing,
  drop_prefix keys seqs = (pre, failing) -> Forall (fun x => x ∈ keys) pre.
Proof.
  induction seqs as [|s seqs IH]; intros keys pre failing; cbn.
  - by intros [= <- <-].
  - destruct (bool_decide (s ∈ keys)) eqn:Hs; [|by intros [= <- <-]].
    destruct (drop_prefix (keys ∖ {[s]}) seqs) as [p f] eqn:Hp.
    intros [= <- <-]. apply bool_decide_eq_true_1 in Hs.
    constructor; [done|].
    eapply Forall_impl; [by eapply IH|]. cbn. set_solver.
Qed.

Lemma after_drop_nil d st : _data st = Some d -> after_drop [] d st = st.
Proof.
  intros Hd. unfold after_drop, sabotage_all, entries_of. cbn.
  assert (filter (fun kv : Z * ali => kv.1 ∉ []) d = d) as ->.
  { apply map_filter_id. intros k a _. apply not_elem_of_nil. }
  assert (imap (fun i e => if bool_decide (i ∈ []) then sabotaged e else e)
               (ents st) = ents st) as ->.
  { apply list_eq. intros i. rewrite list_lookup_imap.
    destruct (ents st !! i); [|done]. cbn.
    by rewrite bool_decide_eq_false_2 by apply not_elem_of_nil. }
  destruct st. cbn in *. by subst.
Qed.

Lemma sabotaged_idemp e : sabotaged (sabotaged e) = sabotaged e.
Proof. done. Qed.

(** Dropping [s] and then the ids of [pre] is dropping [s :: pre]. *)
Lemma after_drop_cons s pre d st a addr e :
  d !! s = Some a ->
  AliquotSequence._heap_entry a = Some addr ->
  ents st !! addr = Some e ->
  s ∉ pre ->
  after_drop pre (delete s d)
             (set_data (Some (delete s d))
                       (set_ents (<[addr := sabotaged e]> (ents st)) st))
  = after_drop (s :: pre) d st.
Proof.
  intros Hs Ha He Hnot. unfold after_drop. store_simpl.
  assert (filter (fun kv : Z * ali => kv.1 ∉ pre) (delete s d)
          = filter (fun kv : Z * ali => kv.1 ∉ s :: pre) d) as ->.
  { apply map_eq. intros k. rewrite !map_lookup_filter.
    destruct (decide (s = k)) as [->|Hne].
    - rewrite lookup_delete_eq, Hs. cbn.
      rewrite option_guard_False; [done|]. intros H. apply H. by left.
    - rewrite lookup_delete_ne by done. destruct (d !! k) as [b|]; [|done]. cbn.
      apply option_guard_iff. rewrite not_elem_of_cons. naive_solver. }
  assert (entries_of (delete s d) pre = entries_of d pre) as ->.
  { unfold entries_of. clear -Hnot. induction pre as [|x pre IH]; [done|].
    apply not_elem_of_cons in Hnot as [Hx Hnot]. cbn.
    rewrite lookup_delete_ne by done. by rewrite IH. }
  assert (entries_of d (s :: pre) = addr :: entries_of d pre) as ->.
  { unfold entries_of. cbn. by rewrite Hs; cbn; rewrite Ha. }
  assert (sabotage_all (entries_of d pre) (<[addr := sabotaged e]> (ents st))
          = sabotage_all (addr :: entries_of d pre) (ents st)) as ->; [|done].
  unfold sabotage_all. apply list_eq. intros i. rewrite !list_lookup_imap.
  destruct (decide (i = addr)) as [->|Hne].
  - rewrite list_lookup_insert_eq by (by eapply lookup_lt_Some).
    rewrite He. cbn.
    rewrite (bool_decide_eq_true_2 (addr ∈ addr :: _)) by apply list_elem_of_here.
    by destruct (bool_decide _).
  - rewrite list_lookup_insert_ne by done.
    destruct (ents st !! i); [|done]. cbn. f_equal.
    assert (bool_decide (i ∈ addr :: entries_of d pre)
            = bool_decide (i ∈ entries_of d pre)) as ->; [|done].
    apply bool_decide_ext. rewrite elem_of_cons. naive_solver.
Qed.

Lemma wired_lookup st d s a :
  _data st = Some d -> wired st -> d !! s = Some a ->
  exists addr e, AliquotSequence._heap_entry a = Some addr
                 /\ ents st !! addr = Some e.
Proof.
  intros Hd Hw Hs. unfold wired in Hw. rewrite Hd in Hw.
  specialize (Hw s a Hs). unfold wired_record in Hw.
  destruct (AliquotSequence._heap_entry a) as [addr|]; [|done].
  apply bool_decide_eq_true_1 in Hw.
  destruct (lookup_lt_is_Some_2 _ _ Hw) as [e He]. eauto.
Qed.

Lemma wired_after_one st d s addr e :
  _data st = Some d -> wired st ->
  wired (set_data (Some (delete s d))
                  (set_ents (<[addr := sabotaged e]> (ents st)) st)).
Proof.
  intros Hd Hw. unfold wired in *. rewrite Hd in Hw. cbn.
  intros k a Hk. apply lookup_delete_Some in Hk as [_ Hk].
  specialize (Hw k a Hk). unfold wired_record in *.
  by rewrite length_insert.
Qed.

(** [drop] against its closed form: it gets through [drop_prefix] and stops
    there, with the prefix applied. *)
Lemma drop_spec seqs : forall st d,
  _data st = Some d -> wired st ->
  drop seqs st =
  match drop_prefix (dom d) seqs with
  | (pre, None) => Ok tt (after_drop pre d st)
  | (pre, Some s) => Raise (KeyError s) (after_drop pre d st)
  end.
Proof.
  induction seqs as [|s seqs IH]; intros st d Hd Hw.
  - cbn. unfold ret. by rewrite after_drop_nil.
  - cbn [drop_prefix]. destruct (d !! s) as [a|] eqn:Hs.
    + rewrite bool_decide_eq_true_2 by (apply elem_of_dom; eauto).
      destruct (wired_lookup _ _ _ _ Hd Hw Hs) as (addr & e & Ha & He).
      rewrite (drop_cons_present _ _ _ _ _ _ _ Hd Hs Ha He).
      set (st1 := set_data _ _).
      rewrite (IH st1 (delete s d)); [|done|by apply wired_after_one].
      rewrite dom_delete_L.
      destruct (drop_prefix (dom d ∖ {[s]}) seqs) as [pre failing] eqn:Hp.
      assert (s ∉ pre) as Hnot.
      { intros Hin. apply drop_prefix_keys in Hp.
        rewrite Forall_forall in Hp. specialize (Hp _ Hin). set_solver. }
      unfold st1. rewrite (after_drop_cons _ _ _ _ _ _ _ Hs Ha He Hnot).
      by destruct failing.
    + rewrite bool_decide_eq_false_2 by (by apply not_elem_of_dom).
      rewrite (drop_cons_absent _ _ _ _ Hd Hs). by rewrite after_drop_nil.
Qed.

(** Where the entry of a dropped record stands after the drop. *)
Lemma after_drop_tombstoned pre d st s a addr :
  s ∈ pre -> d !! s = Some a ->
  AliquotSequence._heap_entry a = Some addr ->
  (addr < length (ents st))%nat ->
  exists e, ents (after_drop pre d st) !! addr = Some e /\ ent_seq e = None.
Proof.
  intros Hin Hs Ha Hlt. destruct (lookup_lt_is_Some_2 _ _ Hlt) as [e He].
  exists (sabotaged e). split; [|done].
  unfold after_drop, sabotage_all. cbn. rewrite list_lookup_imap, He. cbn.
  rewrite bool_decide_eq_true_2; [done|].
  unfold entries_of. apply list_elem_of_omap. exists s. split; [done|].
  by rewrite Hs; cbn.
Qed.

(** C5 (as amended).  On a store whose records are wired to their heap
    entries, [drop seqs] works through [seqs] in order and raises [KeyError]
    at the first id that is no key at its turn; the ids before it have then
    been dropped (removed from the id map, their heap entries tombstoned)
    and stay dropped, so a failed call has applied a prefix of the batch.
    When every id is a key at its turn the call returns normally with all of
    them dropped.  The heap list itself is never touched. *)
Theorem drop_applies_prefix :
  forall st d seqs,
    _data st = Some d -> wired st ->
    let pre := (drop_prefix (dom d) seqs).1 in
    let st' := after_drop pre d st in
    drop seqs st
    = match (drop_prefix (dom d) seqs).2 with
      | None => Ok tt st'
      | Some s => Raise (KeyError s) st'
      end
    /\ _heap st' = _heap st
    /\ (exists d', _data st' = Some d' /\ dom d' = dom d ∖ list_to_set pre)
    /\ Forall (fun s =>
                 exists a addr e,
                   d !! s = Some a
                   /\ AliquotSequence._heap_entry a = Some addr
                   /\ ents st' !! addr = Some e /\ ent_seq e = None) pre.
Proof.
  intros st d seqs Hd Hw pre st'. split; [|split; [|split]].
  - rewrite (drop_spec seqs st d Hd Hw). subst st' pre.
    by destruct (drop_prefix (dom d) seqs) as [p [s|]].
  - done.
  - eexists. split; [reflexivity|].
    apply set_eq. intros k. rewrite elem_of_dom, elem_of_difference, elem_of_dom.
    rewrite elem_of_list_to_set.
    split.
    + intros [a Ha]. apply map_lookup_filter_Some in Ha as [Ha Hk]. eauto.
    + intros [[a Ha] Hk]. exists a. by apply map_lookup_filter_Some.
  - apply Forall_forall. intros s Hin.
    assert (s ∈ dom d) as [a Ha]%elem_of_dom.
    { destruct (drop_prefix (dom d) seqs) as [p f] eqn:Hp.
      apply drop_prefix_keys in Hp. rewrite Forall_forall in Hp. by apply Hp. }
    destruct (wired_lookup _ _ _ _ Hd Hw Ha) as (addr & e & Haddr & He).
    destruct (after_drop_tombstoned pre d st s a addr Hin Ha Haddr)
      as (e' & He' & Hnone); [by eapply lookup_lt_Some|].
    by exists a, addr, e'.
Qed.

Lemma drop_applies_prefix_witness :
  drop [5; 9; 6] (self Example.three)
  = Raise (KeyError 9) (after_drop [5] Example.three_data (self Example.three)).
Proof.
  assert (_data (self Example.three) = Some Example.three_data) as Hd
      by (vm_compute; reflexivity).
  assert (wired (self Example.three)) as Hw.
  { unfold wired. rewrite Hd. apply (bool_decide_unpack _). vm_compute. exact I. }
  exact (proj1 (drop_applies_prefix (self Example.three) Example.three_data
                                    [5; 9; 6] Hd Hw)).
Defined.

(** C5 as stated fails: [drop [5; 9]] on the store holding 5, 6 and 7 raises
    [KeyError] for 9, and by then 5 has left the id map and its heap entry
    has been tombstoned. *)
Lemma drop_failure_not_atomic :
  let st := self Example.three in
  let st' := state_of (drop [5; 9] st) in
  raised (drop [5; 9] st) = Some (KeyError 9)
  /\ has_key st 5 = true /\ has_key st' 5 = false
  /\ entry_seq st 0 = Some (Some 5) /\ entry_seq st' 0 = Some None.
Proof. vm_compute. repeat split; reflexivity. Qed.

(** ** Lock checks *)

Lemma no_lock_error_bind {S A B} (m : M S A) (k : A -> M S B) :
  no_lock_error m -> (forall a, no_lock_error (k a)) -> no_lock_error (bind m k).
Proof.
  intros Hm Hk s. unfold bind. specialize (Hm s).
  destruct (m s) as [a s'|e s']; [apply Hk|done].
Qed.

Section heapq_errors.
Context {A : Type} (lt : A -> A -> exn + bool).
Hypothesis lt_no_lock : forall a b e, lt a b = inl e -> is_LockError e = false.

Lemma _siftdown_loop_no_lock fuel newitem startpos : forall pos,
  no_lock_error (_siftdown_loop lt fuel newitem startpos pos).
Proof.
  induction fuel as [|fuel IH]; intros pos heap; cbn [_siftdown_loop]; [done|].
  destruct (startpos <? pos)%nat; [|done].
  destruct (heap !! _); [|done].
  destruct (lt newitem a) as [e|[]] eqn:Hlt; [by eapply lt_no_lock|apply IH|done].
Qed.

Lemma _siftdown_no_lock startpos pos : no_lock_error (_siftdown lt startpos pos).
Proof.
  intros heap. unfold _siftdown. destruct (heap !! pos); [|done].
  apply _siftdown_loop_no_lock.
Qed.

Lemma _siftup_loop_no_lock fuel endpos : forall pos,
  no_lock_error (_siftup_loop lt fuel endpos pos).
Proof.
  induction fuel as [|fuel IH]; intros pos heap; cbn [_siftup_loop]; [done|].
  cbv zeta.
  destruct (2 * pos + 1 <? endpos)%nat; [|done].
  destruct (2 * pos + 1 + 1 <? endpos)%nat.
  - destruct (heap !! _) as [c|]; [|done].
    destruct (heap !! _) as [r|]; [|done].
    destruct (lt c r) as [e|b] eqn:Hlt; [by eapply lt_no_lock|].
    destruct (heap !! _); [apply IH|done].
  - destruct (heap !! _); [apply IH|done].
Qed.

Lemma _siftup_no_lock pos : no_lock_error (_siftup lt pos).
Proof.
  intros heap. unfold _siftup. destruct (heap !! pos); [|done].
  pose proof (_siftup_loop_no_lock (length heap) (length heap) pos heap) as H.
  destruct (_siftup_loop _ _ _ _ _) as [p h'|e h']; [|done].
  apply _siftdown_no_lock.
Qed.

Lemma heappush_no_lock item : no_lock_error (heappush lt item).
Proof. intros heap. apply _siftdown_no_lock. Qed.

Lemma heappop_no_lock : no_lock_error (heappop lt).
Proof.
  intros heap. unfold heappop. destruct (list_pop heap) as [[x h']|]; [|done].
  destruct h' as [|y h']; [done|].
  pose proof (_siftup_no_lock 0 (<[0%nat := x]> (y :: h'))) as H.
  by destruct (_siftup _ _ _).
Qed.

Lemma heapify_loop_no_lock k : no_lock_error (heapify_loop lt k).
Proof.
  induction k as [|k IH]; [done|]. cbn.
  apply no_lock_error_bind; [apply _siftup_no_lock|by intros _].
Qed.
End heapq_errors.

Lemma ref_lt_no_lock E a b e : ref_lt E a b = inl e -> is_LockError e = false.
Proof.
  unfold ref_lt, entry_lt.
  destruct (E !! a) as [x|], (E !! b) as [y|]; try by intros [= <-].
  repeat case_match; by intros [= <-].
Qed.

Lemma on_heap_no_lock {A} (c : (nat -> nat -> exn + bool) -> M (list nat) A) :
  (forall E, no_lock_error (c (ref_lt E))) -> no_lock_error (on_heap c).
Proof.
  intros Hc st. unfold on_heap. destruct (_heap st) as [h|]; [|done].
  specialize (Hc (ents st) h). by destruct (c _ _).
Qed.

Lemma drop_no_lock seqs : no_lock_error (drop seqs).
Proof.
  induction seqs as [|s seqs IH]; [done|]. cbn [drop].
  apply no_lock_error_bind.
  { intros st. unfold __contains__. by destruct (_data st). }
  intros [|]; cbn [negb]; [|done].
  apply no_lock_error_bind.
  { intros st. unfold data_getitem. destruct (_data st) as [d|]; [|done].
    by destruct (d !! s). }
  intros a. apply no_lock_error_bind.
  { intros st. unfold _sabotage_heap_entry.
    destruct (AliquotSequence._heap_entry a); [|done].
    by destruct (ents st !! _). }
  intros _. apply no_lock_error_bind; [|by intros _].
  intros st. unfold data_delitem. destruct (_data st) as [d|]; [|done].
  by destruct (d !! s).
Qed.

Lemma push_new_info_no_lock a : no_lock_error (push_new_info a).
Proof.
  unfold push_new_info.
  apply no_lock_error_bind.
  { intros st. unfold data_setitem. by destruct (_data st). }
  intros _. apply no_lock_error_bind.
  { intros st. by destruct (_heap st). }
  intros _. apply no_lock_error_bind; [done|].
  intros [addr a']. apply no_lock_error_bind.
  { intros st. unfold data_setitem. by destruct (_data st). }
  intros _. apply on_heap_no_lock. intros E.
  apply heappush_no_lock. apply ref_lt_no_lock.
Qed.

Lemma reserve_seqs_no_lock name seqs : no_lock_error (reserve_seqs name seqs).
Proof.
  intros st. unfold reserve_seqs. destruct (_data st) as [d|] eqn:Hd.
  - rewrite <- (loaded_data _ _ Hd).
    by destruct (reserve_loop_spec name st seqs d [] [] []) as (A' & -> & _).
  - destruct seqs as [|s seqs]; [done|].
    cbn. unfold bind, __contains__. by rewrite Hd.
Qed.

Lemma unreserve_seqs_no_lock name seqs : no_lock_error (unreserve_seqs name seqs).
Proof.
  intros st. unfold unreserve_seqs. destruct (_data st) as [d|] eqn:Hd.
  - rewrite <- (loaded_data _ _ Hd).
    by destruct (unreserve_loop_spec name st seqs d [] [] []) as (A' & -> & _).
  - destruct seqs as [|s seqs]; [done|].
    cbn. unfold bind, __contains__. by rewrite Hd.
Qed.

Lemma str_raises_ValueError a e : AliquotSequence.__str__ a = inl e -> e = ValueError.
Proof.
  unfold AliquotSequence.__str__. repeat case_match; by intros [= <-].
Qed.

Lemma map_exn_str_raises l e :
  map_exn AliquotSequence.__str__ l = inl e -> e = ValueError.
Proof.
  induction l as [|a l IH]; cbn; [done|].
  destruct (AliquotSequence.__str__ a) eqn:Ha.
  - intros [= <-]. by eapply str_raises_ValueError.
  - destruct (map_exn _ l); [|done]. intros [= <-]. by apply IH.
Qed.

Lemma unlock_write_no_lock : no_lock_error unlock_write.
Proof.
  intros m. unfold unlock_write.
  destruct (_heap (self m)) as [[|x h]|], (_data (self m)) as [d|]; try done.
  all: destruct (negb _).
  all: try (destruct (map_exn _ _) as [e|lines] eqn:Hl;
            [by rewrite (map_exn_str_raises _ _ Hl)|]).
  all: unfold _unlock; cbn; by destruct (_ !! _).
Qed.

(** C6.  No mutating method looks at the lock: [drop], [push_new_info],
    [reserve_seqs], [unreserve_seqs] and [unlock_write] never raise
    [LockError], on any store.  On the store that has written back and
    released its lock they go through and change the data; on a store that
    never read anything they fail on the missing map ([TypeError],
    [AttributeError]), not on the lock. *)
Theorem mutations_never_check_the_lock :
  (forall seqs, no_lock_error (drop seqs))
  /\ (forall a, no_lock_error (push_new_info a))
  /\ (forall name seqs, no_lock_error (reserve_seqs name seqs))
  /\ (forall name seqs, no_lock_error (unreserve_seqs name seqs))
  /\ no_lock_error unlock_write
  /\ (let m := Example.released in
      fs m !! _lockfile (self m) = None
      /\ has_key (self m) 8 = false
      /\ raised (push_new_info (Example.record 8 4 "") (self m)) = None
      /\ has_key (state_of (push_new_info (Example.record 8 4 "") (self m))) 8
         = true
      /\ has_key (self m) 5 = true
      /\ raised (drop [5] (self m)) = None
      /\ has_key (state_of (drop [5] (self m))) 5 = false
      /\ res_of (self m) 6 = Some EmptyString
      /\ raised (reserve_seqs "alice" [6] (self m)) = None
      /\ res_of (state_of (reserve_seqs "alice" [6] (self m))) 6
         = Some "alice"%string)
  /\ (let st := Example.fresh in
      raised (push_new_info (Example.record 8 4 "") st) = Some TypeError
      /\ raised (drop [5] st) = Some AttributeError
      /\ raised (reserve_seqs "alice" [6] st) = Some AttributeError
      /\ raised (unreserve_seqs "alice" [6] st) = Some AttributeError
      /\ raised (unlock_write (mk_machine ∅ [] st)) = Some TypeError).
Proof.
  split; [exact drop_no_lock|].
  split; [exact push_new_info_no_lock|].
  split; [exact reserve_seqs_no_lock|].
  split; [exact unreserve_seqs_no_lock|].
  split; [exact unlock_write_no_lock|].
  split; vm_compute; repeat split; reflexivity.
Qed.

(** ** Writing back *)

Lemma live_seqs_heap_scan E d h : live_seqs E d h = heap_scan E d h.
Proof.
  unfold live_seqs, heap_scan. induction h as [|addr h IH]; [done|].
  cbn. destruct (E !! addr) as [e|]; cbn; [|done].
  destruct (ent_seq e) as [s|]; [|done].
  rewrite filter_cons. destruct (decide (is_Some (d !! s))); by rewrite IH.
Qed.

Lemma records_of_lookup d seqs a :
  a ∈ records_of d seqs <-> exists s, s ∈ seqs /\ d !! s = Some a.
Proof. unfold records_of. apply list_elem_of_omap. Qed.

(** Every key is found by the scan or is one of the missing ones. *)
Lemma write_order_complete E d h k a :
  d !! k = Some a -> a ∈ write_order E d h.
Proof.
  intros Hk. unfold write_order. apply elem_of_app.
  destruct (decide (k ∈ live_seqs E d h)) as [Hin|Hnot].
  - left. apply records_of_lookup. eauto.
  - right. apply records_of_lookup. exists k. split; [|done].
    unfold missing_seqs. apply elem_of_elements, elem_of_difference.
    split; [by apply elem_of_dom|]. by rewrite elem_of_list_to_set.
Qed.

Lemma unlock_write_self m : self (state_of (unlock_write m)) = self m.
Proof.
  unfold unlock_write.
  destruct (_heap (self m)) as [[|x h]|], (_data (self m)) as [d|]; try done.
  all: destruct (negb _); [destruct (map_exn _ _); [done|]|].
  all: unfold _unlock; cbn; by destruct (_ !! _).
Qed.

(** The table [unlock_write] leaves in the primary file, when neither the
    text mirror nor the lock file shares its path. *)
Lemma unlock_write_table m h d :
  _heap (self m) = Some h -> _data (self m) = Some d ->
  _txtfile (self m) ≠ _jsonfile (self m) ->
  _lockfile (self m) ≠ _jsonfile (self m) ->
  written_table (state_of (unlock_write m))
  = map AliquotSequence.to_list (write_order (ents (self m)) d h).
Proof.
  intros Hh Hd Htxt Hlock. unfold written_table.
  rewrite unlock_write_self. unfold unlock_write. rewrite Hh, Hd.
  assert (forall (f : gmap string file) doc,
             delete (_lockfile (self m)) (<[_jsonfile (self m) := doc]> f)
             !! _jsonfile (self m) = Some doc) as Hdel.
  { intros f doc. rewrite lookup_delete_ne by done. apply lookup_insert_eq. }
  assert (match h with
          | [] | _ => True
          end) as _ by by destruct h.
  destruct h as [|x h]; destruct (negb _).
  all: try (destruct (map_exn _ _) as [e|lines]; cbn;
            [by rewrite lookup_insert_eq|]).
  all: unfold _unlock; cbn; destruct (_ !! _lockfile (self m)); cbn.
  all: rewrite ?lookup_delete_ne by done.
  all: rewrite ?(lookup_insert_ne _ (_txtfile (self m))) by done.
  all: by rewrite lookup_insert_eq.
Qed.

(** C4 (as amended).  [unlock_write] scans the heap list from its first
    cell to its last without popping anything: the written table is the
    records of the scanned entries whose [seq] is still a key of the id map
    (tombstoned entries contribute nothing), in the order of the heap list,
    followed by the keys the scan did not find, each once, in no promised
    order.  Every record of the id map is in the table, and the heap, its
    entries and the id map are as they were.  The order is the storage
    order of the heap, not the order in which the heap would be drained. *)
Theorem unlock_write_heap_list_order :
  forall m h d,
    _heap (self m) = Some h -> _data (self m) = Some d ->
    _txtfile (self m) ≠ _jsonfile (self m) ->
    _lockfile (self m) ≠ _jsonfile (self m) ->
    let m' := state_of (unlock_write m) in
    let kept := heap_scan (ents (self m)) d h in
    exists fallback,
      written_table m'
      = map AliquotSequence.to_list (records_of d kept ++ records_of d fallback)
      /\ NoDup fallback
      /\ (forall k, k ∈ fallback <-> is_Some (d !! k) /\ k ∉ kept)
      /\ Forall (fun k => is_Some (d !! k)) kept
      /\ map_Forall (fun _ a => AliquotSequence.to_list a ∈ written_table m') d
      /\ self m' = self m.
Proof.
  intros m h d Hh Hd Htxt Hlock m' kept.
  pose proof (unlock_write_table m h d Hh Hd Htxt Hlock) as Htab.
  fold m' in Htab. unfold write_order in Htab.
  rewrite live_seqs_heap_scan in Htab. fold kept in Htab.
  exists (missing_seqs d kept). split; [exact Htab|].
  split; [apply NoDup_elements|]. split; [|split; [|split]].
  - intros k. unfold missing_seqs.
    rewrite elem_of_elements, elem_of_difference, elem_of_dom.
    by rewrite elem_of_list_to_set.
  - apply Forall_forall. intros k Hk. unfold kept, heap_scan in Hk.
    by apply list_elem_of_filter in Hk as [Hk _].
  - intros k a Hk. rewrite Htab. apply list_elem_of_fmap. exists a.
    split; [done|].
    pose proof (write_order_complete (ents (self m)) d h k a Hk) as Hin.
    unfold write_order in Hin. by rewrite live_seqs_heap_scan in Hin.
  - apply unlock_write_self.
Qed.

Lemma unlock_write_heap_list_order_witness :
  exists fallback,
    written_table (state_of (unlock_write Example.three))
    = map AliquotSequence.to_list
          (records_of Example.three_data
                      (heap_scan (ents (self Example.three))
                                 Example.three_data [0; 1; 2]%nat)
           ++ records_of Example.three_data fallback)
    /\ NoDup fallback.
Proof.
  assert (_heap (self Example.three) = Some [0; 1; 2]%nat) as Hh
      by (vm_compute; reflexivity).
  assert (_data (self Example.three) = Some Example.three_data) as Hd
      by (vm_compute; reflexivity).
  assert (_txtfile (self Example.three) ≠ _jsonfile (self Example.three)) as Ht
      by (vm_compute; intros H; discriminate H).
  assert (_lockfile (self Example.three) ≠ _jsonfile (self Example.three)) as Hl
      by (vm_compute; intros H; discriminate H).
  destruct (unlock_write_heap_list_order Example.three _ _ Hh Hd Ht Hl)
    as (fallback & Htab & Hnd & _).
  exists fallback. split; [exact Htab|exact Hnd].
Defined.

(** C4 as stated fails: the store read from a table with priorities 1, 3, 2
    writes its records back in the order of the heap list, 1, 3, 2, which is
    not non-decreasing; nothing was drained from the heap. *)
Lemma unlock_write_not_sorted :
  let m' := state_of (unlock_write Example.three) in
  raised (unlock_write Example.three) = None
  /\ map row_priority (written_table m') = [1; 3; 2]%Q
  /\ nondecreasing (map row_priority (written_table m')) = false
  /\ _heap (self m') = Some [0; 1; 2]%nat.
Proof. vm_compute. repeat split; reflexivity. Qed.

(** C2.  A store whose primary file name holds no ['.json'] gets the same
    path for its text mirror: the constructor compares the two names before
    it derives the default.  [unlock_write] then writes the table and
    overwrites it with the mirror text, and the next [lock_read_init] fails
    to parse the file: nothing is read back. *)
Theorem roundtrip_lost_when_mirror_overwrites :
  __init__ "AllSeq" "" = inr Example.bare
  /\ _txtfile Example.bare = _jsonfile Example.bare
  /\ (let m1 := Example.bare_read in
      let m2 := state_of (unlock_write m1) in
      has_key (self m1) 5 = true /\ has_key (self m1) 6 = true
      /\ match _data (self m1) with
         | Some d => map_fold (fun _ a b => AliquotSequence.is_valid a && b) true d
         | None => false
         end = true
      /\ raised (unlock_write m1) = None
      /\ fs m2 !! _jsonfile (self m2)
         = Some (FText (join_lines ["      5  1000. sz 120 2^3 * 3 * 7";
                                    "      6  1000. sz 120 2^3 * 3 * 7"]%string))
      /\ raised (lock_read_init m2) = Some JSONDecodeError).
Proof. vm_compute. repeat split; reflexivity. Qed.

(** C7.  Sequence 5 is read from the file, pushed again with new
    information and then dropped: its id is no longer a key, only the entry
    of the second record was tombstoned, and [pop_n_todo(1)] yields 5 from
    the entry of the first.  Before the drop, [pop_n_todo(3)] yields 5
    twice. *)
Theorem pop_n_todo_yields_dropped_id :
  raised (push_new_info (Example.record 5 2 "")
                        (self (Example.read [Example.row 5 1 ""]))) = None
  /\ raised (drop [5] Example.updated) = None
  /\ has_key Example.updated_dropped 5 = false
  /\ entry_seq Example.updated_dropped 0 = Some (Some 5)
  /\ entry_seq Example.updated_dropped 1 = Some None
  /\ (pop_n_todo 1 Example.updated_dropped).1 = [5]
  /\ raised (pop_n_todo 1 Example.updated_dropped).2 = None
  /\ (pop_n_todo 3 Example.updated).1 = [5; 5].
Proof. vm_compute. repeat split; reflexivity. Qed.

(** ** heapq: the heap list keeps its elements *)

Lemma insert_Permutation_delete {A} (l : list A) i v :
  (i < length l)%nat -> <[i := v]> l ≡ₚ v :: delete i l.
Proof.
  revert i. induction l as [|x l IH]; intros [|i] Hlt; cbn in *; try lia.
  - done.
  - rewrite (IH i) by lia. apply perm_swap.
Qed.

(** Filling the hole at [i] with the element at [j] moves the hole to [j]. *)
Lemma hole_moves {A} (l : list A) i j y :
  i ≠ j -> (i < length l)%nat -> l !! j = Some y ->
  delete j (<[i := y]> l) ≡ₚ delete i l.
Proof.
  intros Hne Hlt Hj.
  apply (Permutation_cons_inv (a := y)).
  rewrite <- delete_Permutation by (by rewrite list_lookup_insert_ne).
  by apply insert_Permutation_delete.
Qed.

Section heapq_perm.
Context {A : Type} (lt : A -> A -> exn + bool).

Lemma _siftdown_loop_perm fuel newitem startpos : forall pos heap heap',
  (pos < length heap)%nat ->
  _siftdown_loop lt fuel newitem startpos pos heap = Ok tt heap' ->
  heap' ≡ₚ newitem :: delete pos heap.
Proof.
  induction fuel as [|fuel IH]; intros pos heap heap' Hlt; cbn [_siftdown_loop].
  - intros [= <-]. by apply insert_Permutation_delete.
  - destruct (startpos <? pos)%nat eqn:Hsp;
      [|intros [= <-]; by apply insert_Permutation_delete].
    apply Nat.ltb_lt in Hsp.
    assert ((pos - 1) / 2 < pos)%nat as Hpar.
    { apply Nat.Div0.div_lt_upper_bound. lia. }
    destruct (heap !! ((pos - 1) / 2)%nat) as [parent|] eqn:Hp; [|done].
    destruct (lt newitem parent) as [e|[]]; [done| |].
    + intros Hrun. apply IH in Hrun; [|rewrite length_insert; lia].
      rewrite Hrun. constructor. apply hole_moves; [lia|done|done].
    + intros [= <-]. by apply insert_Permutation_delete.
Qed.

Lemma _siftdown_perm startpos pos heap heap' :
  _siftdown lt startpos pos heap = Ok tt heap' -> heap' ≡ₚ heap.
Proof.
  unfold _siftdown. destruct (heap !! pos) as [newitem|] eqn:Hp; [|done].
  intros Hrun. apply _siftdown_loop_perm in Hrun; [|by eapply lookup_lt_Some].
  rewrite Hrun. symmetry. by apply delete_Permutation.
Qed.

Lemma _siftup_loop_perm fuel : forall pos heap pos' heap',
  (pos < length heap)%nat ->
  _siftup_loop lt fuel (length heap) pos heap = Ok pos' heap' ->
  (pos' < length heap')%nat /\ length heap' = length heap
  /\ delete pos' heap' ≡ₚ delete pos heap.
Proof.
  induction fuel as [|fuel IH]; intros pos heap pos' heap' Hlt;
    cbn [_siftup_loop]; [by intros [= <- <-]|].
  cbv zeta.
  destruct (2 * pos + 1 <? length heap)%nat eqn:Hc; [|by intros [= <- <-]].
  set (pick := if (2 * pos + 1 + 1 <? length heap)%nat then _ else _).
  destruct pick as [e|childpos'] eqn:Hpick; [done|].
  assert (pos < childpos')%nat as Hgt.
  { subst pick. destruct (2 * pos + 1 + 1 <? length heap)%nat.
    - destruct (heap !! _) as [c|]; [|done].
      destruct (heap !! _) as [r|]; [|done].
      destruct (lt c r) as [e|[]]; [done| |]; cbn in Hpick;
        injection Hpick as <-; lia.
    - injection Hpick as <-. lia. }
  destruct (heap !! childpos') as [c|] eqn:Hchild; [|done].
  intros Hrun.
  replace (length heap) with (length (<[pos := c]> heap)) in Hrun
    by apply length_insert.
  apply IH in Hrun as (Hlt' & Hlen & Hperm);
    [|rewrite length_insert; by eapply lookup_lt_Some].
  rewrite length_insert in Hlen. split; [done|]. split; [done|].
  rewrite Hperm. apply hole_moves; [lia|done|done].
Qed.

Lemma _siftup_perm pos heap heap' :
  _siftup lt pos heap = Ok tt heap' -> heap' ≡ₚ heap.
Proof.
  unfold _siftup. destruct (heap !! pos) as [newitem|] eqn:Hp; [|done].
  destruct (_siftup_loop lt (length heap) (length heap) pos heap)
    as [pos' heap1|e heap1] eqn:Hloop; [|done].
  apply _siftup_loop_perm in Hloop as (Hlt & Hlen & Hperm);
    [|by eapply lookup_lt_Some].
  intros Hrun. apply _siftdown_perm in Hrun. rewrite Hrun.
  rewrite insert_Permutation_delete by done. rewrite Hperm.
  symmetry. by apply delete_Permutation.
Qed.

Lemma heappush_perm item heap heap' :
  heappush lt item heap = Ok tt heap' -> heap' ≡ₚ item :: heap.
Proof.
  unfold heappush. intros Hrun. apply _siftdown_perm in Hrun.
  rewrite Hrun. by rewrite Permutation_app_comm.
Qed.

Lemma list_pop_Some (heap : list A) x heap' :
  list_pop heap = Some (x, heap') -> heap = heap' ++ [x].
Proof.
  unfold list_pop. destruct (last heap) as [y|] eqn:Hl; [|done].
  intros [= <- <-]. destruct (exists_last (l := heap)) as (l' & z & ->).
  { by intros ->. }
  rewrite last_snoc in Hl. injection Hl as ->.
  by rewrite removelast_last.
Qed.

Lemma heappop_perm heap x heap' :
  heappop lt heap = Ok x heap' -> heap ≡ₚ x :: heap'.
Proof.
  unfold heappop. destruct (list_pop heap) as [[lastelt h]|] eqn:Hpop; [|done].
  apply list_pop_Some in Hpop as ->.
  destruct h as [|returnitem t]; [by intros [= <- <-]|].
  destruct (_siftup lt 0 (<[0%nat := lastelt]> (returnitem :: t)))
    as [[] h'|e h'] eqn:Hs; [|done].
  intros [= <- <-]. apply _siftup_perm in Hs. rewrite Hs. cbn.
  constructor. by rewrite Permutation_app_comm.
Qed.

Lemma heapify_loop_perm k : forall heap heap',
  heapify_loop lt k heap = Ok tt heap' -> heap' ≡ₚ heap.
Proof.
  induction k as [|k IH]; intros heap heap'; cbn; [by intros [= <-]|].
  unfold bind. destruct (_siftup lt k heap) as [[] h1|e h1] eqn:Hs; [|done].
  intros Hrun. apply IH in Hrun. apply _siftup_perm in Hs.
  by rewrite Hrun.
Qed.

Lemma heapify_perm heap heap' :
  heapify lt heap = Ok tt heap' -> heap' ≡ₚ heap.
Proof. apply heapify_loop_perm. Qed.
End heapq_perm.

(** ** The lazy-deletion invariant *)

Lemma elem_of_heap_live st h s :
  _heap st = Some h ->
  s ∈ heap_live st
  <-> exists addr e, addr ∈ h /\ ents st !! addr = Some e /\ ent_seq e = Some s.
Proof.
  intros Hh. unfold heap_live. rewrite Hh, list_elem_of_omap. split.
  - intros (addr & Hin & Hf). destruct (ents st !! addr) as [e|] eqn:He; [|done].
    cbn in Hf. eauto.
  - intros (addr & e & Hin & He & Hs). exists addr. split; [done|].
    by rewrite He.
Qed.

Lemma NoDup_omap_inj {A B} (f : A -> option B) (l : list A) :
  NoDup l ->
  (forall x y z, x ∈ l -> y ∈ l -> f x = Some z -> f y = Some z -> x = y) ->
  NoDup (omap f l).
Proof.
  induction 1 as [|x l Hx Hnd IH]; intros Hinj; cbn; [constructor|].
  assert (NoDup (omap f l)) as IH'.
  { apply IH. intros a b z Ha Hb. apply Hinj; by right. }
  destruct (f x) as [z|] eqn:Hfx; [|done].
  constructor; [|done].
  intros (y & Hy & Hfy)%list_elem_of_omap.
  assert (x = y) as -> by (eapply Hinj; eauto; [by left|by right]).
  done.
Qed.

(** What the invariant says about the live entries of the heap: their ids
    are pairwise distinct and are keys of the id map. *)
Lemma lazy_inv_live st :
  lazy_inv st ->
  NoDup (heap_live st) /\ Forall (fun s => has_key st s = true) (heap_live st).
Proof.
  intros (d & h & Hd & Hh & Hnd & Hbound & Hlive & Hkeys). split.
  - unfold heap_live. rewrite Hh. apply NoDup_omap_inj; [done|].
    intros x y z Hx Hy Hfx Hfy.
    destruct (ents st !! x) as [ex|] eqn:Hex; [|done].
    destruct (ents st !! y) as [ey|] eqn:Hey; [|done]. cbn in *.
    destruct (Hlive x ex z Hx Hex Hfx) as (a & Ha & Hax).
    destruct (Hlive y ey z Hy Hey Hfy) as (a' & Ha' & Hay).
    congruence.
  - apply Forall_forall. intros s Hs.
    apply (elem_of_heap_live _ h) in Hs as (addr & e & Hin & He & Hseq); [|done].
    destruct (Hlive addr e s Hin He Hseq) as (a & Ha & _).
    unfold has_key. rewrite Hd. apply bool_decide_eq_true_2. eauto.
Qed.

(** While nothing has been popped, every key has its live entry in the
    heap. *)
Lemma lazy_inv_all_live st k :
  lazy_inv st -> all_in_heap st -> has_key st k = true -> k ∈ heap_live st.
Proof.
  intros (d & h & Hd & Hh & Hnd & Hbound & Hlive & Hkeys) Hall Hk.
  unfold all_in_heap in Hall. rewrite Hd, Hh in Hall.
  unfold has_key in Hk. rewrite Hd in Hk.
  apply bool_decide_eq_true_1 in Hk as [a Ha].
  destruct (Hkeys k a Ha) as (_ & addr & e & Haddr & He & Hseq).
  apply (elem_of_heap_live _ h); [done|].
  exists addr, e. split; [|done]. by eapply Hall.
Qed.

(** The heap list may be permuted or lose cells. *)
Lemma lazy_inv_set_heap st h h' :
  lazy_inv st -> _heap st = Some h ->
  NoDup h' -> (forall addr, addr ∈ h' -> addr ∈ h) ->
  lazy_inv (set_heap (Some h') st).
Proof.
  intros (d & h0 & Hd & Hh & Hnd & Hbound & Hlive & Hkeys) Hh' Hnd' Hsub.
  assert (h0 = h) as -> by congruence.
  exists d, h'. store_simpl. split; [done|]. split; [done|]. split; [done|].
  split; [|split; [|done]].
  - apply Forall_forall. intros addr Hin.
    rewrite Forall_forall in Hbound. by apply Hbound, Hsub.
  - intros addr e s Hin. apply Hlive. by apply Hsub.
Qed.

Lemma all_in_heap_set_heap st h h' :
  all_in_heap st -> _heap st = Some h ->
  (forall addr, addr ∈ h -> addr ∈ h') ->
  all_in_heap (set_heap (Some h') st).
Proof.
  unfold all_in_heap. intros Hall Hh Hsub. store_simpl. rewrite Hh in Hall.
  destruct (_data st) as [d|]; [|done].
  intros k a addr Hk Ha. eapply Hsub, Hall; eauto.
Qed.

Lemma set_heap_entry_seq v a :
  AliquotSequence.seq (AliquotSequence.set_heap_entry v a) = AliquotSequence.seq a.
Proof. by destruct a. Qed.

Lemma set_heap_entry_get v a :
  AliquotSequence._heap_entry (AliquotSequence.set_heap_entry v a) = v.
Proof. by destruct a. Qed.

Lemma lazy_inv_with_record st d h a h' :
  lazy_inv st -> _data st = Some d -> _heap st = Some h ->
  AliquotSequence.seq a ∉ heap_live st ->
  h' ≡ₚ length (ents st) :: h ->
  lazy_inv (with_record a d h' st).
Proof.
  intros (d0 & h0 & Hd0 & Hh0 & Hnd & Hbound & Hlive & Hkeys) Hd Hh Hfresh Hperm.
  assert (d0 = d) as -> by congruence. assert (h0 = h) as -> by congruence.
  rewrite Forall_forall in Hbound.
  set (E := ents st) in *. set (s := AliquotSequence.seq a) in *.
  eexists _, h'. unfold with_record. store_simpl.
  split; [done|]. split; [done|]. fold E s.
  assert (length E ∉ h) as Hnew.
  { intros Hin. specialize (Hbound _ Hin). cbn in Hbound. lia. }
  split; [|split; [|split]].
  - rewrite Hperm. by constructor.
  - apply Forall_forall. intros addr Hin. rewrite Hperm in Hin.
    rewrite length_app. cbn.
    apply elem_of_cons in Hin as [->|Hin]; [lia|]. specialize (Hbound _ Hin).
    cbn in Hbound. lia.
  - intros addr e s' Hin He Hs'. rewrite Hperm in Hin.
    apply elem_of_cons in Hin as [->|Hin].
    + rewrite lookup_app_r, Nat.sub_diag in He by lia. injection He as <-.
      injection Hs' as <-. eexists. rewrite lookup_insert_eq. split; [done|].
      apply set_heap_entry_get.
    + rewrite lookup_app_l in He by (by apply Hbound).
      destruct (Hlive addr e s' Hin He Hs') as (a' & Ha' & Haddr).
      assert (s ≠ s') as Hne.
      { intros <-. apply Hfresh. apply (elem_of_heap_live _ h); [done|]. eauto. }
      exists a'. by rewrite lookup_insert_ne.
  - intros k b Hk. destruct (decide (s = k)) as [<-|Hne].
    + rewrite lookup_insert_eq in Hk. injection Hk as <-.
      split; [apply set_heap_entry_seq|].
      eexists (length E), _. rewrite set_heap_entry_get.
      split; [done|]. by rewrite lookup_app_r, Nat.sub_diag by lia.
    + rewrite lookup_insert_ne in Hk by done.
      destruct (Hkeys k b Hk) as (Hseq & addr & e & Hb & He & Hs).
      split; [done|]. exists addr, e. split; [done|]. split; [|done].
      rewrite lookup_app_l; [done|]. by eapply lookup_lt_Some.
Qed.

Lemma all_in_heap_with_record st d h a h' :
  all_in_heap st -> _data st = Some d -> _heap st = Some h ->
  h' ≡ₚ length (ents st) :: h ->
  all_in_heap (with_record a d h' st).
Proof.
  unfold all_in_heap, with_record. intros Hall Hd Hh Hperm. store_simpl.
  rewrite Hd, Hh in Hall. intros k b addr Hk Hb. rewrite Hperm.
  destruct (decide (AliquotSequence.seq a = k)) as [<-|Hne].
  - rewrite lookup_insert_eq in Hk. injection Hk as <-.
    rewrite set_heap_entry_get in Hb. injection Hb as <-. by left.
  - rewrite lookup_insert_ne in Hk by done. right. eauto.
Qed.

Lemma on_heap_Ok {A} (c : (nat -> nat -> exn + bool) -> M (list nat) A) st x st' :
  on_heap c st = Ok x st' ->
  exists h h', _heap st = Some h /\ c (ref_lt (ents st)) h = Ok x h'
               /\ st' = set_heap (Some h') st.
Proof.
  unfold on_heap. destruct (_heap st) as [h|]; [|done].
  destruct (c _ h) as [y h'|e h'] eqn:Hc; [|done].
  intros [= <- <-]. eauto.
Qed.

Lemma push_new_info_Ok a st st' :
  push_new_info a st = Ok tt st' ->
  exists d h h',
    _data st = Some d /\ _heap st = Some h
    /\ h' ≡ₚ length (ents st) :: h
    /\ st' = with_record a d h' st.
Proof.
  unfold push_new_info, bind, data_setitem, _make_heap_entry.
  destruct (_data st) as [d|] eqn:Hd; [|done]. store_simpl.
  destruct (_heap st) as [h|] eqn:Hh; [|done]. store_simpl.
  intros Hrun. apply on_heap_Ok in Hrun as (h0 & h' & Hh0 & Hpush & ->).
  store_simpl_in Hh0. rewrite Hh in Hh0. injection Hh0 as <-.
  apply heappush_perm in Hpush.
  exists d, h, h'. split; [done|]. split; [done|]. split; [done|].
  unfold with_record. store_simpl. by rewrite insert_insert_eq.
Qed.

Lemma read_row_Ok dat st st' d h :
  _data st = Some d -> _heap st = Some h ->
  read_row dat st = Ok tt st' ->
  exists a, AliquotSequence.of_list dat = inr a
            /\ st' = with_record a d (h ++ [length (ents st)]) st.
Proof.
  intros Hd Hh. unfold read_row, _make_heap_entry.
  destruct (AliquotSequence.of_list dat) as [e|a]; [done|].
  store_simpl. rewrite Hd, Hh. cbn [default].
  intros [= <-]. exists a. split; [done|].
  unfold with_record. store_simpl. reflexivity.
Qed.

(** Dropping one key keeps the invariant. *)
Lemma lazy_inv_drop_one st d s a addr e :
  lazy_inv st -> _data st = Some d -> d !! s = Some a ->
  AliquotSequence._heap_entry a = Some addr -> ents st !! addr = Some e ->
  lazy_inv (set_data (Some (delete s d))
                     (set_ents (<[addr := sabotaged e]> (ents st)) st)).
Proof.
  intros (d0 & h & Hd0 & Hh & Hnd & Hbound & Hlive & Hkeys) Hd Hs Ha He.
  assert (d0 = d) as -> by congruence.
  assert (ent_seq e = Some s) as Hes.
  { destruct (Hkeys s a Hs) as (_ & addr' & e' & Ha' & He' & Hs'). congruence. }
  exists (delete s d), h. store_simpl.
  split; [done|]. split; [done|]. split; [done|]. split; [|split].
  - by rewrite length_insert.
  - intros addr' e' s' Hin He' Hs'.
    destruct (decide (addr' = addr)) as [->|Hne].
    + rewrite list_lookup_insert_eq in He' by (by eapply lookup_lt_Some).
      injection He' as <-. done.
    + rewrite list_lookup_insert_ne in He' by done.
      destruct (Hlive addr' e' s' Hin He' Hs') as (a' & Ha' & Haddr').
      exists a'. split; [|done]. rewrite lookup_delete_ne; [done|].
      intros <-. congruence.
  - intros k b Hk. apply lookup_delete_Some in Hk as [Hne Hk].
    destruct (Hkeys k b Hk) as (Hseq & addr' & e' & Hb & He' & Hs').
    split; [done|]. exists addr', e'. split; [done|]. split; [|done].
    rewrite list_lookup_insert_ne; [done|]. intros <-. congruence.
Qed.

Lemma all_in_heap_drop_one st d s E :
  all_in_heap st -> _data st = Some d ->
  all_in_heap (set_data (Some (delete s d)) (set_ents E st)).
Proof.
  unfold all_in_heap. intros Hall Hd. store_simpl. rewrite Hd in Hall.
  destruct (_heap st) as [h|]; [|done].
  intros k a addr Hk Ha. apply lookup_delete_Some in Hk as [_ Hk]. eauto.
Qed.

Lemma lazy_inv_wired st : lazy_inv st -> wired st.
Proof.
  intros (d & h & Hd & Hh & Hnd & Hbound & Hlive & Hkeys).
  unfold wired. rewrite Hd. intros k a Hk.
  destruct (Hkeys k a Hk) as (_ & addr & e & Ha & He & _).
  unfold wired_record. rewrite Ha. apply bool_decide_eq_true_2.
  by eapply lookup_lt_Some.
Qed.

Lemma drop_keeps_inv seqs : forall st st',
  lazy_inv st -> drop seqs st = Ok tt st' ->
  lazy_inv st' /\ (all_in_heap st -> all_in_heap st').
Proof.
  induction seqs as [|s seqs IH]; intros st st' Hinv.
  - cbn. by intros [= <-].
  - pose proof Hinv as (d & h & Hd & _).
    destruct (d !! s) as [a|] eqn:Hs.
    + destruct (wired_lookup _ _ _ _ Hd (lazy_inv_wired _ Hinv) Hs)
        as (addr & e & Ha & He).
      rewrite (drop_cons_present _ _ _ _ _ _ _ Hd Hs Ha He).
      intros Hrun. apply IH in Hrun as [Hinv' Hall'];
        [|by eapply lazy_inv_drop_one].
      split; [done|]. intros Hall. apply Hall'. by apply all_in_heap_drop_one.
    + by rewrite (drop_cons_absent _ _ _ _ Hd Hs).
Qed.

(** One [heappop] on the store. *)
Lemma on_heap_heappop_Ok st addr st' :
  on_heap (fun lt => heappop lt) st = Ok addr st' ->
  exists h h', _heap st = Some h /\ h ≡ₚ addr :: h'
               /\ st' = set_heap (Some h') st.
Proof.
  intros (h & h' & Hh & Hpop & ->)%on_heap_Ok.
  apply heappop_perm in Hpop. eauto.
Qed.

Lemma lazy_inv_pop st h addr h' :
  lazy_inv st -> _heap st = Some h -> h ≡ₚ addr :: h' ->
  lazy_inv (set_heap (Some h') st).
Proof.
  intros Hinv Hh Hperm. eapply lazy_inv_set_heap; [done|done| |].
  - destruct Hinv as (d & h0 & _ & Hh0 & Hnd & _).
    assert (h0 = h) as -> by congruence.
    rewrite Hperm in Hnd. by apply NoDup_cons in Hnd as [_ Hnd].
  - intros x Hx. rewrite Hperm. by right.
Qed.

Lemma pop_n_todo_next_keeps_inv fuel n : forall st r st',
  lazy_inv st -> pop_n_todo_next fuel n st = Ok r st' -> lazy_inv st'.
Proof.
  induction fuel as [|fuel IH]; intros st r st' Hinv; cbn [pop_n_todo_next].
  all: destruct (0 <? n); [|by intros [= <- <-]].
  all: destruct (on_heap _ st) as [addr st1|e st1] eqn:Hpop; [|done].
  all: apply on_heap_heappop_Ok in Hpop as (h & h1 & Hh & Hperm & ->).
  all: pose proof (lazy_inv_pop _ _ _ _ Hinv Hh Hperm) as Hinv1.
  all: destruct (ents _ !! addr) as [e|]; [|done].
  all: destruct (ent_seq e) as [s|]; [destruct (negb (s =? 0))|].
  all: try (intros [= <- <-]; exact Hinv1); try done.
  all: by apply IH.
Qed.

Lemma heap_live_with_record st d h a h' s :
  _heap st = Some h ->
  Forall (fun addr => addr < length (ents st))%nat h ->
  h' ≡ₚ length (ents st) :: h ->
  s ∈ heap_live (with_record a d h' st) ->
  s = AliquotSequence.seq a \/ s ∈ heap_live st.
Proof.
  intros Hh Hbound Hperm Hs. rewrite Forall_forall in Hbound.
  apply (elem_of_heap_live _ h') in Hs as (addr & e & Hin & He & Hseq); [|done].
  unfold with_record in He. store_simpl_in He.
  rewrite Hperm in Hin. apply elem_of_cons in Hin as [->|Hin].
  - rewrite lookup_app_r, Nat.sub_diag in He by lia. injection He as <-.
    left. cbn in Hseq. congruence.
  - rewrite lookup_app_l in He by (by apply Hbound).
    right. apply (elem_of_heap_live _ h); [done|]. eauto.
Qed.

Lemma read_rows_keeps_inv rows : forall st st',
  lazy_inv st -> all_in_heap st ->
  NoDup (rows_seqs rows) ->
  (forall s, s ∈ rows_seqs rows -> s ∉ heap_live st) ->
  read_rows rows st = Ok tt st' ->
  lazy_inv st' /\ all_in_heap st'.
Proof.
  induction rows as [|dat rows IH]; intros st st' Hinv Hall Hnd Hfresh.
  - cbn. by intros [= <-].
  - cbn [read_rows]. unfold bind.
    destruct (read_row dat st) as [[] st1|e st1] eqn:Hrow; [|done].
    pose proof Hinv as (d & h & Hd & Hh & _ & Hbound & _).
    destruct (read_row_Ok _ _ _ _ _ Hd Hh Hrow) as (a & Hdec & ->).
    assert (rows_seqs (dat :: rows) = AliquotSequence.seq a :: rows_seqs rows)
      as Hseqs by (unfold rows_seqs; cbn; by rewrite Hdec).
    rewrite Hseqs in Hnd, Hfresh. apply NoDup_cons in Hnd as [Hnew Hnd].
    assert (h ++ [length (ents st)] ≡ₚ length (ents st) :: h) as Hperm
        by (by rewrite Permutation_app_comm).
    apply IH; [| |done|].
    + eapply lazy_inv_with_record; eauto. apply Hfresh. by left.
    + by eapply all_in_heap_with_record.
    + intros s Hs Hlive.
      apply (heap_live_with_record _ _ h) in Hlive as [->|Hlive]; try done.
      eapply Hfresh; [|done]. by right.
Qed.

(** A store just read from a table whose rows have distinct ids satisfies
    the invariant, with every entry in the heap. *)
Lemma init_from_inv doc st0 st :
  NoDup (file_seqs doc) ->
  init_from doc st0 = Ok tt st ->
  lazy_inv st /\ all_in_heap st.
Proof.
  intros Hnd. unfold init_from, bind.
  set (st1 := set_heap (Some []) _).
  destruct (read_rows (aaData doc) st1) as [[] st2|e st2] eqn:Hrows; [|done].
  intros Hheap.
  assert (lazy_inv st1 /\ all_in_heap st1) as [Hinv1 Hall1].
  { split.
    - exists ∅, []. unfold st1. store_simpl.
      split; [done|]. split; [done|]. split; [constructor|].
      split; [constructor|]. split; [by intros ? ? ? ?%elem_of_nil|done].
    - unfold all_in_heap, st1. store_simpl. done. }
  destruct (read_rows_keeps_inv (aaData doc) st1 st2 Hinv1 Hall1 Hnd)
    as [Hinv2 Hall2]; [|done|].
  { intros s _. unfold heap_live, st1. store_simpl. apply not_elem_of_nil. }
  apply on_heap_Ok in Hheap as (h & h' & Hh & Hfy & ->).
  apply heapify_perm in Hfy. split.
  - eapply lazy_inv_set_heap; [done|done| |].
    + destruct Hinv2 as (d & h0 & _ & Hh0 & Hnd0 & _).
      assert (h0 = h) as -> by congruence. by rewrite Hfy.
    + intros addr. by rewrite Hfy.
  - eapply all_in_heap_set_heap; [done|done|]. intros addr. by rewrite Hfy.
Qed.

Lemma run_call_keeps_inv c st st' :
  lazy_inv st -> run_call c st = Some st' ->
  lazy_inv st' /\ (is_pop c = false -> all_in_heap st -> all_in_heap st').
Proof.
  intros Hinv. destruct c as [a|seqs|n]; cbn [run_call is_pop].
  - destruct (bool_decide (AliquotSequence.seq a ∈ heap_live st)) eqn:Hfresh;
      [done|].
    apply bool_decide_eq_false_1 in Hfresh.
    destruct (push_new_info a st) as [[] st1|e st1] eqn:Hpush; [|done].
    intros [= <-].
    apply push_new_info_Ok in Hpush as (d & h & h' & Hd & Hh & Hperm & ->).
    split; [by eapply lazy_inv_with_record|].
    intros _ Hall. by eapply all_in_heap_with_record.
  - destruct (drop seqs st) as [[] st1|e st1] eqn:Hdrop; [|done].
    intros [= <-]. destruct (drop_keeps_inv _ _ _ Hinv Hdrop). split; auto.
  - unfold pop_n_todo_step.
    destruct (pop_n_todo_next _ n st) as [r st1|e st1] eqn:Hpop; [|done].
    intros [= <-]. split; [by eapply pop_n_todo_next_keeps_inv|done].
Qed.

Lemma run_calls_keep_inv cs : forall st st',
  lazy_inv st -> run_calls cs st = Some st' ->
  lazy_inv st'
  /\ (forallb (fun c => negb (is_pop c)) cs = true ->
      all_in_heap st -> all_in_heap st').
Proof.
  induction cs as [|c cs IH]; intros st st' Hinv; cbn.
  - by intros [= <-].
  - destruct (run_call c st) as [st1|] eqn:Hc; [|done].
    destruct (run_call_keeps_inv _ _ _ Hinv Hc) as [Hinv1 Hall1].
    intros Hrun. destruct (IH _ _ Hinv1 Hrun) as [Hinv' Hall'].
    split; [done|]. intros [Hp Hps]%andb_prop Hall.
    apply Hall'; [done|]. apply Hall1; [|done]. by destruct (is_pop c).
Qed.

(** C1 (as amended).  Start from a store read from a table whose rows have
    distinct ids and make any sequence of calls that return normally, each
    [push_new_info] being for an id that has no live heap entry at that
    moment (a new id or one already popped).  Then the non-tombstoned
    entries of the heap have pairwise distinct ids, each of them a key of
    the id map: a key has at most one live entry.  If no call was a
    [pop_n_todo] resumption, every key has its live entry, so the ids of
    the live entries are exactly the keys. *)
Theorem lazy_deletion_invariant :
  forall doc st0 st cs st',
    NoDup (file_seqs doc) ->
    init_from doc st0 = Ok tt st ->
    run_calls cs st = Some st' ->
    NoDup (heap_live st')
    /\ Forall (fun s => has_key st' s = true) (heap_live st')
    /\ (forallb (fun c => negb (is_pop c)) cs = true ->
        forall k, has_key st' k = true -> k ∈ heap_live st').
Proof.
  intros doc st0 st cs st' Hnd Hinit Hrun.
  destruct (init_from_inv _ _ _ Hnd Hinit) as [Hinv Hall].
  destruct (run_calls_keep_inv _ _ _ Hinv Hrun) as [Hinv' Hall'].
  destruct (lazy_inv_live _ Hinv') as [Hnodup Hkeys].
  split; [done|]. split; [done|].
  intros Hnopop k Hk. apply lazy_inv_all_live; auto.
Qed.

Lemma lazy_deletion_invariant_witness :
  NoDup (heap_live Example.after_session)
  /\ Forall (fun s => has_key Example.after_session s = true)
            (heap_live Example.after_session).
Proof.
  assert (NoDup (file_seqs Example.three_doc)) as Hnd
      by (apply (bool_decide_unpack _); vm_compute; exact I).
  assert (init_from Example.three_doc Example.fresh = Ok tt (self Example.three))
    as Hinit by (vm_compute; reflexivity).
  assert (run_calls Example.session (self Example.three)
          = Some Example.after_session) as Hrun by (vm_compute; reflexivity).
  destruct (lazy_deletion_invariant _ _ _ _ _ Hnd Hinit Hrun) as (H1 & H2 & _).
  split; [exact H1|exact H2].
Defined.

(** C1 as stated fails twice.  After one resumption of [pop_n_todo(1)] on
    the store holding 5, 6 and 7, 5 is still a key of the id map but the
    live heap entries are those of 7 and 6 only.  After [push_new_info]
    overwrites 5, which is in the map and in the heap, the heap holds two
    live entries for 5. *)
Lemma live_entries_differ_from_keys :
  raised (pop_n_todo_step 1 (self Example.three)) = None
  /\ has_key Example.popped 5 = true
  /\ heap_live Example.popped = [7; 6]
  /\ has_key (self (Example.read [Example.row 5 1 ""])) 5 = true
  /\ heap_live (self (Example.read [Example.row 5 1 ""])) = [5]
  /\ raised (push_new_info (Example.record 5 2 "")
                           (self (Example.read [Example.row 5 1 ""]))) = None
  /\ heap_live Example.updated = [5; 5].
Proof. vm_compute. repeat split; reflexivity. Qed.

(** ** The loops run to their end

    The fuel of each loop is an implementation device: any amount from the
    stated bound on gives the same outcome, so the bound is never what stops
    a loop. *)

Lemma _siftdown_loop_fuel {A} (lt : A -> A -> exn + bool) newitem startpos :
  forall fuel1 fuel2 pos heap,
    (pos <= fuel1)%nat -> (pos <= fuel2)%nat ->
    _siftdown_loop lt fuel1 newitem startpos pos heap
    = _siftdown_loop lt fuel2 newitem startpos pos heap.
Proof.
  induction fuel1 as [|fuel1 IH]; intros [|fuel2] pos heap H1 H2;
    cbn [_siftdown_loop]; try done.
  - assert (pos = 0)%nat as -> by lia. by destruct (startpos <? 0)%nat eqn:E;
      [apply Nat.ltb_lt in E; lia|].
  - assert (pos = 0)%nat as -> by lia. by destruct (startpos <? 0)%nat eqn:E;
      [apply Nat.ltb_lt in E; lia|].
  - destruct (startpos <? pos)%nat eqn:Hsp; [|done].
    apply Nat.ltb_lt in Hsp.
    assert ((pos - 1) / 2 < pos)%nat by (apply Nat.Div0.div_lt_upper_bound; lia).
    destruct (heap !! _); [|done].
    destruct (lt newitem a) as [e|[]]; [done| |done].
    apply IH; lia.
Qed.

Lemma _siftup_loop_fuel {A} (lt : A -> A -> exn + bool) endpos :
  forall fuel1 fuel2 pos heap,
    (endpos <= fuel1 + pos)%nat -> (endpos <= fuel2 + pos)%nat ->
    _siftup_loop lt fuel1 endpos pos heap = _siftup_loop lt fuel2 endpos pos heap.
Proof.
  induction fuel1 as [|fuel1 IH]; intros [|fuel2] pos heap H1 H2;
    cbn [_siftup_loop]; cbv zeta; try done.
  - destruct (2 * pos + 1 <? endpos)%nat eqn:E; [|done].
    apply Nat.ltb_lt in E. lia.
  - destruct (2 * pos + 1 <? endpos)%nat eqn:E; [|done].
    apply Nat.ltb_lt in E. lia.
  - destruct (2 * pos + 1 <? endpos)%nat eqn:E; [|done].
    set (pick := if (2 * pos + 1 + 1 <? endpos)%nat then _ else _).
    destruct pick as [e|childpos'] eqn:Hpick; [done|].
    assert (pos < childpos')%nat as Hgt.
    { subst pick. destruct (2 * pos + 1 + 1 <? endpos)%nat.
      - destruct (heap !! _) as [c|]; [|done].
        destruct (heap !! _) as [r|]; [|done].
        destruct (lt c r) as [e|[]]; [done| |]; cbn in Hpick;
          injection Hpick as <-; lia.
      - injection Hpick as <-. lia. }
    destruct (heap !! childpos'); [|done]. apply IH; lia.
Qed.

Lemma pop_n_todo_next_fuel n : forall fuel1 fuel2 st,
  (heap_len st <= fuel1)%nat -> (heap_len st <= fuel2)%nat ->
  pop_n_todo_next fuel1 n st = pop_n_todo_next fuel2 n st.
Proof.
  assert (forall st addr st',
             on_heap (fun lt => heappop lt) st = Ok addr st' ->
             heap_len st = S (heap_len st')) as Hlen.
  { intros st addr st' (h & h' & Hh & Hperm & ->)%on_heap_heappop_Ok.
    unfold heap_len. store_simpl. rewrite Hh.
    apply Permutation_length in Hperm. by rewrite Hperm. }
  induction fuel1 as [|fuel1 IH]; intros [|fuel2] st H1 H2;
    cbn [pop_n_todo_next]; try done.
  all: destruct (0 <? n); [|done].
  all: destruct (on_heap _ st) as [addr st1|e st1] eqn:Hpop; [|done].
  all: apply Hlen in Hpop; try lia.
  destruct (ents st1 !! addr) as [e|]; [|done].
  destruct (ent_seq e) as [s|]; [destruct (negb (s =? 0)); [done|]|];
    apply IH; lia.
Qed.

Lemma pop_n_todo_next_counts fuel n : forall st s n' st',
  pop_n_todo_next fuel n st = Ok (Some (s, n')) st' -> 0 < n /\ n' = n - 1.
Proof.
  induction fuel as [|fuel IH]; intros st s n' st'; cbn [pop_n_todo_next].
  all: destruct (0 <? n) eqn:Hn; [|done]; apply Z.ltb_lt in Hn.
  all: destruct (on_heap _ st) as [addr st1|e st1]; [|done].
  all: destruct (ents st1 !! addr) as [e|]; [|done].
  all: destruct (ent_seq e) as [x|]; [destruct (negb (x =? 0))|]; try done.
  all: try (intros [= <- <- <-]; by split).
  all: apply IH.
Qed.

(** [pop_n_todo(n)] ends within [n + 1] resumptions. *)
Lemma pop_n_todo_run_fuel : forall k1 k2 n acc st,
  (Z.to_nat n < k1)%nat -> (Z.to_nat n < k2)%nat ->
  pop_n_todo_run k1 n acc st = pop_n_todo_run k2 n acc st.
Proof.
  induction k1 as [|k1 IH]; intros [|k2] n acc st H1 H2; try lia.
  cbn [pop_n_todo_run]. unfold pop_n_todo_step.
  destruct (pop_n_todo_next _ n st) as [[[s n']|] st'|e st'] eqn:Hnext; try done.
  apply pop_n_todo_next_counts in Hnext as [Hpos ->].
  destruct k1 as [|k1]; [lia|]. destruct k2 as [|k2]; [lia|].
  apply IH; lia.
Qed.

(** ** heapq: the heap property *)

(* [lia] is to know the division by two of the parent index. *)
Ltac Zify.zify_post_hook ::= Z.div_mod_to_equations.

Lemma below_le s p : below s p -> (s <= p)%nat.
Proof. induction 1; lia. Qed.

Lemma below_parent s p : below s p -> p ≠ s -> below s ((p - 1) / 2)%nat.
Proof.
  intros [|q Hq|q Hq] Hne; [done| |].
  - by replace ((2 * q + 1 - 1) / 2)%nat with q by lia.
  - by replace ((2 * q + 2 - 1) / 2)%nat with q by lia.
Qed.

Lemma below_child s p c : below s p -> (0 < c)%nat -> ((c - 1) / 2)%nat = p -> below s c.
Proof.
  intros Hp Hc Hpar.
  assert (c = 2 * p + 1 \/ c = 2 * p + 2)%nat as [->| ->] by lia;
    by constructor.
Qed.

Lemma below_zero p : below 0 p.
Proof.
  induction (lt_wf p) as [p _ IH]. destruct (decide (p = 0%nat)) as [->|Hne].
  - constructor.
  - apply (below_child _ ((p - 1) / 2)%nat); [apply IH; lia|lia|done].
Qed.

Section heapq_order.
Context {A : Type} (lt : A -> A -> exn + bool) (le : A -> A -> Prop).
Hypothesis le_trans : forall x y z, le x y -> le y z -> le x z.
Hypothesis lt_true : forall a b, lt a b = inr true -> le a b.
Hypothesis lt_false : forall a b, lt a b = inr false -> le b a.

(** [_siftdown] with the item held aside: the cell at [pos] is a hole, the
    heap property holds on the edges away from the hole, the item is not
    above the hole's children, and neither is the hole's parent. *)
Lemma _siftdown_loop_heap fuel newitem s : forall pos heap heap',
  below s pos -> (pos < length heap)%nat -> (pos <= fuel)%nat ->
  (forall j, (0 < j)%nat -> (s <= (j - 1) / 2)%nat ->
             j ≠ pos -> ((j - 1) / 2)%nat ≠ pos -> heap_at le heap j) ->
  (forall c y, (0 < c)%nat -> ((c - 1) / 2)%nat = pos ->
               heap !! c = Some y -> le newitem y) ->
  (forall c x y, (s < pos)%nat -> (0 < c)%nat -> ((c - 1) / 2)%nat = pos ->
                 heap !! ((pos - 1) / 2)%nat = Some x -> heap !! c = Some y ->
                 le x y) ->
  _siftdown_loop lt fuel newitem s pos heap = Ok tt heap' ->
  ok_from le s heap'.
Proof.
  assert (forall pos heap,
    (pos < length heap)%nat ->
    (forall j, (0 < j)%nat -> (s <= (j - 1) / 2)%nat ->
               j ≠ pos -> ((j - 1) / 2)%nat ≠ pos -> heap_at le heap j) ->
    (forall c y, (0 < c)%nat -> ((c - 1) / 2)%nat = pos ->
                 heap !! c = Some y -> le newitem y) ->
    ((0 < pos)%nat -> (s <= (pos - 1) / 2)%nat ->
     forall x, heap !! ((pos - 1) / 2)%nat = Some x -> le x newitem) ->
    ok_from le s (<[pos := newitem]> heap)) as Hplace.
  { intros pos heap Hlt Ha Hb Hup j Hj Hs x y Hx Hy.
    destruct (decide (j = pos)) as [->|Hjp].
    - rewrite list_lookup_insert_eq in Hy by done. injection Hy as <-.
      rewrite list_lookup_insert_ne in Hx by lia. by eapply Hup.
    - rewrite list_lookup_insert_ne in Hy by done.
      destruct (decide ((j - 1) / 2 = pos)%nat) as [Hpar|Hpar].
      + rewrite Hpar, list_lookup_insert_eq in Hx by done.
        injection Hx as <-. by eapply Hb.
      + rewrite list_lookup_insert_ne in Hx by done. by eapply Ha. }
  induction fuel as [|fuel IH]; intros pos heap heap' Hbelow Hlt Hfuel Ha Hb Hc;
    cbn [_siftdown_loop].
  - intros [= <-]. apply Hplace; try done. lia.
  - destruct (s <? pos)%nat eqn:Hsp.
    2:{ intros [= <-]. apply Hplace; try done.
        apply Nat.ltb_ge in Hsp. apply below_le in Hbelow. lia. }
    apply Nat.ltb_lt in Hsp.
    set (pp := ((pos - 1) / 2)%nat) in *.
    assert (pp < pos)%nat as Hpp by (subst pp; lia).
    assert (below s pp) as Hbelow' by (apply below_parent; [done|lia]).
    pose proof (below_le _ _ Hbelow') as Hspp.
    destruct (heap !! pp) as [parent|] eqn:Hparent; [|done].
    destruct (lt newitem parent) as [e|[]] eqn:Hcmp; [done| |].
    + (* the parent moves down into the hole *)
      apply IH; [done|rewrite length_insert; lia|lia| | |].
      * intros j Hj Hs Hjpp Hjpar x y Hx Hy.
        destruct (decide (j = pos)) as [->|Hjp]; [by subst pp|].
        rewrite list_lookup_insert_ne in Hy by done.
        destruct (decide ((j - 1) / 2 = pos)%nat) as [Hpar|Hpar].
        -- rewrite Hpar, list_lookup_insert_eq in Hx by done.
           injection Hx as <-. by eapply (Hc j).
        -- rewrite list_lookup_insert_ne in Hx by done. by eapply Ha.
      * intros c y Hc0 Hcpar Hy.
        destruct (decide (c = pos)) as [->|Hcp].
        -- rewrite list_lookup_insert_eq in Hy by done. injection Hy as <-.
           by apply lt_true.
        -- rewrite list_lookup_insert_ne in Hy by done.
           eapply le_trans; [by apply lt_true|].
           eapply (Ha c); try done; [lia|lia|by rewrite Hcpar].
      * intros c x y Hspp' Hc0 Hcpar Hx Hy.
        rewrite list_lookup_insert_ne in Hx by lia.
        assert (s <= (pp - 1) / 2)%nat as Hgp
            by (apply below_le, below_parent; [done|lia]).
        assert (le x parent) as Hxp.
        { eapply (Ha pp); try done; lia. }
        destruct (decide (c = pos)) as [->|Hcp].
        -- rewrite list_lookup_insert_eq in Hy by done. by injection Hy as <-.
        -- rewrite list_lookup_insert_ne in Hy by done.
           eapply le_trans; [exact Hxp|].
           eapply (Ha c); try done; [lia|lia|by rewrite Hcpar].
    + intros [= <-]. apply Hplace; try done.
      intros _ _ x Hx. fold pp in Hx. rewrite Hparent in Hx. injection Hx as <-.
      by apply lt_false.
Qed.

(** [_siftup], first phase: the smaller child moves up into the hole until
    the hole is a leaf. *)
Lemma _siftup_loop_heap fuel s : forall pos heap pos' heap',
  below s pos -> (pos < length heap)%nat -> (length heap <= fuel + pos)%nat ->
  (forall j, (0 < j)%nat -> (s <= (j - 1) / 2)%nat ->
             j ≠ pos -> ((j - 1) / 2)%nat ≠ pos -> heap_at le heap j) ->
  (forall c x y, (s < pos)%nat -> (0 < c)%nat -> ((c - 1) / 2)%nat = pos ->
                 heap !! ((pos - 1) / 2)%nat = Some x -> heap !! c = Some y ->
                 le x y) ->
  _siftup_loop lt fuel (length heap) pos heap = Ok pos' heap' ->
  below s pos' /\ (pos' < length heap')%nat
  /\ (forall j, (0 < j)%nat -> (s <= (j - 1) / 2)%nat ->
                j ≠ pos' -> ((j - 1) / 2)%nat ≠ pos' -> heap_at le heap' j)
  /\ (forall c x y, (s < pos')%nat -> (0 < c)%nat -> ((c - 1) / 2)%nat = pos' ->
                    heap' !! ((pos' - 1) / 2)%nat = Some x ->
                    heap' !! c = Some y -> le x y)
  /\ (forall c, (0 < c)%nat -> ((c - 1) / 2)%nat = pos' -> heap' !! c = None).
Proof.
  induction fuel as [|fuel IH]; intros pos heap pos' heap' Hbelow Hlt Hfuel Ha Hc;
    cbn [_siftup_loop]; [lia|].
  cbv zeta.
  destruct (2 * pos + 1 <? length heap)%nat eqn:Hleft.
  2:{ intros [= <- <-]. apply Nat.ltb_ge in Hleft.
      split; [done|]. split; [done|]. split; [done|]. split; [done|].
      intros c Hc0 Hpar. apply lookup_ge_None. lia. }
  apply Nat.ltb_lt in Hleft.
  set (pick := if (2 * pos + 1 + 1 <? length heap)%nat then _ else _).
  destruct pick as [e|cp] eqn:Hpick; [done|].
  assert (((cp - 1) / 2)%nat = pos /\ (0 < cp)%nat /\ (cp < length heap)%nat
          /\ forall c x y, (0 < c)%nat -> ((c - 1) / 2)%nat = pos -> c ≠ cp ->
                           heap !! cp = Some x -> heap !! c = Some y -> le x y)
    as (Hcpar & Hcp0 & Hcplt & Hsmall).
  { subst pick. destruct (2 * pos + 1 + 1 <? length heap)%nat eqn:Hright.
    - apply Nat.ltb_lt in Hright.
      destruct (heap !! (2 * pos + 1)%nat) as [l|] eqn:Hl; [|done].
      destruct (heap !! (2 * pos + 1 + 1)%nat) as [r|] eqn:Hr; [|done].
      destruct (lt l r) as [e|[]] eqn:Hcmp; [done| |]; cbn [negb] in Hpick;
        apply (inj inr) in Hpick as <-.
      + split; [lia|]. split; [lia|]. split; [lia|].
        intros c x y Hc0 Hpar Hne Hx Hy.
        assert (c = 2 * pos + 1 + 1)%nat as -> by lia.
        rewrite Hl in Hx. rewrite Hr in Hy. injection Hx as <-.
        injection Hy as <-. by apply lt_true.
      + split; [lia|]. split; [lia|]. split; [lia|].
        intros c x y Hc0 Hpar Hne Hx Hy.
        assert (c = 2 * pos + 1)%nat as -> by lia.
        rewrite Hr in Hx. rewrite Hl in Hy. injection Hx as <-.
        injection Hy as <-. by apply lt_false.
    - apply Nat.ltb_ge in Hright. apply (inj inr) in Hpick as <-.
      split; [lia|]. split; [lia|]. split; [lia|].
      intros c x y Hc0 Hpar Hne Hx Hy. apply lookup_lt_Some in Hy. lia. }
  destruct (heap !! cp) as [child|] eqn:Hchild; [|done].
  intros Hrun.
  replace (length heap) with (length (<[pos := child]> heap)) in Hrun
    by apply length_insert.
  apply IH in Hrun; [exact Hrun| | | | |].
  - by apply (below_child _ pos).
  - by rewrite length_insert.
  - rewrite length_insert. lia.
  - intros j Hj Hs Hjcp Hjpar x y Hx Hy.
    destruct (decide (j = pos)) as [->|Hjp].
    + rewrite list_lookup_insert_eq in Hy by done. injection Hy as <-.
      rewrite list_lookup_insert_ne in Hx by lia.
      apply below_le in Hbelow. eapply (Hc cp); try done. lia.
    + rewrite list_lookup_insert_ne in Hy by done.
      destruct (decide ((j - 1) / 2 = pos)%nat) as [Hpar|Hpar].
      * rewrite Hpar, list_lookup_insert_eq in Hx by done.
        injection Hx as <-. by eapply (Hsmall j).
      * rewrite list_lookup_insert_ne in Hx by done. by eapply Ha.
  - intros c x y Hscp Hc0 Hpar Hx Hy.
    rewrite Hcpar, list_lookup_insert_eq in Hx by done. injection Hx as <-.
    rewrite list_lookup_insert_ne in Hy by lia.
    apply below_le in Hbelow.
    eapply (Ha c); try done; [lia|lia|lia|by rewrite Hpar].
Qed.

Lemma _siftup_heap pos heap heap' :
  ok_from le (S pos) heap ->
  _siftup lt pos heap = Ok tt heap' ->
  ok_from le pos heap'.
Proof.
  intros Hok. unfold _siftup.
  destruct (heap !! pos) as [newitem|] eqn:Hnew; [|done].
  destruct (_siftup_loop lt (length heap) (length heap) pos heap)
    as [pos' heap1|e heap1] eqn:Hloop; [|done].
  apply _siftup_loop_heap with (s := pos) in Hloop
    as (Hbelow & Hlt & Ha & Hc & Hleaf);
    [|constructor|by eapply lookup_lt_Some|lia| |lia].
  2:{ intros j Hj Hs Hjp Hpar. apply Hok; [done|lia]. }
  unfold _siftdown. rewrite list_lookup_insert_eq by done.
  apply _siftdown_loop_heap; try done.
  - by rewrite length_insert.
  - intros j Hj Hs Hjp Hpar x y Hx Hy.
    rewrite list_lookup_insert_ne in Hx, Hy by done. by eapply Ha.
  - intros c y Hc0 Hpar Hy. rewrite list_lookup_insert_ne in Hy by lia.
    by rewrite (Hleaf c) in Hy.
  - intros c x y Hs Hc0 Hpar Hx Hy.
    rewrite list_lookup_insert_ne in Hx, Hy by lia. by eapply (Hc c).
Qed.

Lemma heappush_heap item heap heap' :
  is_heap le heap -> heappush lt item heap = Ok tt heap' -> is_heap le heap'.
Proof.
  intros Hheap. unfold heappush, _siftdown.
  rewrite length_app. cbn [length].
  replace (length heap + 1 - 1)%nat with (length heap) by lia.
  rewrite lookup_app_r, Nat.sub_diag by lia. cbn.
  apply _siftdown_loop_heap; try done.
  - apply below_zero.
  - rewrite length_app. cbn. lia.
  - intros j Hj _ Hjn Hpar x y Hx Hy.
    assert (j < length heap)%nat.
    { apply lookup_lt_Some in Hy. rewrite length_app in Hy. cbn in Hy. lia. }
    rewrite lookup_app_l in Hx, Hy by lia. eapply Hheap; [done|lia|done|done].
  - intros c y Hc0 Hpar Hy. apply lookup_lt_Some in Hy.
    rewrite length_app in Hy. cbn in Hy. lia.
  - intros c x y _ Hc0 Hpar _ Hy. apply lookup_lt_Some in Hy.
    rewrite length_app in Hy. cbn in Hy. lia.
Qed.

(** The first cell of a heap is a least one. *)
Lemma is_heap_root x t :
  is_heap le (x :: t) -> Forall (le x) t.
Proof.
  intros Hheap. apply Forall_lookup. intros i y Hy.
  assert (forall j z, (0 < j)%nat -> (x :: t) !! j = Some z -> le x z) as Hall.
  { intros j. induction (lt_wf j) as [j _ IH]. intros z Hj Hz.
    destruct (lookup_lt_is_Some_2 (x :: t) ((j - 1) / 2)%nat) as [p Hp].
    { apply lookup_lt_Some in Hz. lia. }
    assert (le p z) as Hpz by (eapply Hheap; [done|lia|done|done]).
    destruct (decide ((j - 1) / 2 = 0)%nat) as [H0|H0].
    - rewrite H0 in Hp. by injection Hp as <-.
    - eapply le_trans; [|exact Hpz].
      apply (IH ((j - 1) / 2)%nat ltac:(lia) p ltac:(lia) Hp). }
  apply (Hall (S i)); [lia|done].
Qed.

Lemma is_heap_prefix h1 h2 : is_heap le (h1 ++ h2) -> is_heap le h1.
Proof.
  intros Hheap j Hj Hs x y Hx Hy.
  eapply (Hheap j); [done|done| |].
  - rewrite lookup_app_l; [done|]. by eapply lookup_lt_Some.
  - rewrite lookup_app_l; [done|]. by eapply lookup_lt_Some.
Qed.

Lemma heappop_heap heap x heap' :
  is_heap le heap -> heappop lt heap = Ok x heap' ->
  is_heap le heap' /\ Forall (le x) heap'.
Proof.
  intros Hheap Hpop. pose proof (heappop_perm _ _ _ _ Hpop) as Hperm.
  revert Hpop. unfold heappop.
  destruct (list_pop heap) as [[lastelt h]|] eqn:Hlast; [|done].
  apply list_pop_Some in Hlast as ->.
  destruct h as [|returnitem t].
  { intros [= <- <-]. split; [|constructor].
    intros j Hj _ a b _ Hb. by rewrite lookup_nil in Hb. }
  destruct (_siftup lt 0 (<[0%nat := lastelt]> (returnitem :: t)))
    as [[] h'|e h'] eqn:Hs; [|done].
  intros [= <- <-]. split.
  - apply _siftup_heap in Hs; [done|]. cbn.
    intros j Hj Hpar a b Ha Hb.
    apply is_heap_prefix in Hheap.
    destruct j as [|j]; [lia|].
    destruct ((S j - 1) / 2)%nat as [|p] eqn:Hp; [lia|].
    eapply (Hheap (S j)); [lia|lia| |done]. by rewrite Hp.
  - cbn in Hheap. apply is_heap_root in Hheap.
    apply (Permutation_cons_inv (a := returnitem)) in Hperm.
    by rewrite <- Hperm.
Qed.

Lemma heapify_loop_heap k : forall heap heap',
  ok_from le k heap -> heapify_loop lt k heap = Ok tt heap' -> is_heap le heap'.
Proof.
  induction k as [|k IH]; intros heap heap' Hok; cbn; [by intros [= <-]|].
  unfold bind. destruct (_siftup lt k heap) as [[] h1|e h1] eqn:Hs; [|done].
  apply IH. by eapply _siftup_heap.
Qed.

Lemma heapify_heap heap heap' :
  heapify lt heap = Ok tt heap' -> is_heap le heap'.
Proof.
  apply heapify_loop_heap. intros j Hj Hs x y _ Hy.
  apply lookup_lt_Some in Hy. lia.
Qed.
End heapq_order.

(** ** The heap of the store *)

Lemma by_priority_trans E x y z :
  by_priority E x y -> by_priority E y z -> by_priority E x z.
Proof. unfold by_priority. apply Qle_trans. Qed.

Lemma entry_lt_true a b :
  entry_lt a b = inr true -> (ent_priority a <= ent_priority b)%Q.
Proof.
  unfold entry_lt.
  destruct (Qeq_bool (ent_priority a) (ent_priority b)) eqn:Heq; cbn [negb].
  - intros _. apply Qeq_bool_iff in Heq. rewrite Heq. apply Qle_refl.
  - intros [= Hlt]. unfold Qltb in Hlt. apply negb_true_iff in Hlt.
    apply Qlt_le_weak, Qnot_le_lt. intros Hle.
    apply Qle_bool_iff in Hle. congruence.
Qed.

Lemma entry_lt_false a b :
  entry_lt a b = inr false -> (ent_priority b <= ent_priority a)%Q.
Proof.
  unfold entry_lt.
  destruct (Qeq_bool (ent_priority a) (ent_priority b)) eqn:Heq; cbn [negb].
  - intros _. apply Qeq_bool_iff in Heq. rewrite Heq. apply Qle_refl.
  - intros [= Hlt]. unfold Qltb in Hlt. apply negb_false_iff in Hlt.
    by apply Qle_bool_iff.
Qed.

Lemma ref_lt_true E x y : ref_lt E x y = inr true -> by_priority E x y.
Proof.
  unfold ref_lt, by_priority, key_of.
  destruct (E !! x) as [a|], (E !! y) as [b|]; try done. apply entry_lt_true.
Qed.

Lemma ref_lt_false E x y : ref_lt E x y = inr false -> by_priority E y x.
Proof.
  unfold ref_lt, by_priority, key_of.
  destruct (E !! x) as [a|], (E !! y) as [b|]; try done. apply entry_lt_false.
Qed.

(** The heap property only looks at the cells of the list. *)
Lemma is_heap_ext {A} (le1 le2 : A -> A -> Prop) h :
  (forall x y, x ∈ h -> y ∈ h -> le1 x y -> le2 x y) ->
  is_heap le1 h -> is_heap le2 h.
Proof.
  intros Hext Hheap j Hj Hs x y Hx Hy.
  apply Hext; [by eapply list_elem_of_lookup_2|by eapply list_elem_of_lookup_2|].
  by eapply Hheap.
Qed.

Lemma key_of_app E e addr :
  (addr < length E)%nat -> key_of (E ++ [e]) addr = key_of E addr.
Proof. intros Hlt. unfold key_of. by rewrite lookup_app_l. Qed.

Lemma key_of_sabotage E addr e a :
  E !! addr = Some e -> key_of (<[addr := sabotaged e]> E) a = key_of E a.
Proof.
  intros He. unfold key_of. destruct (decide (a = addr)) as [->|Hne].
  - rewrite list_lookup_insert_eq by (by eapply lookup_lt_Some). by rewrite He.
  - by rewrite list_lookup_insert_ne.
Qed.

Lemma heap_inv_push a st st' :
  heap_inv st -> push_new_info a st = Ok tt st' -> heap_inv st'.
Proof.
  unfold heap_inv. intros Hinv.
  unfold push_new_info, bind, data_setitem, _make_heap_entry.
  destruct (_data st) as [d|] eqn:Hd; [|done]. store_simpl.
  destruct (_heap st) as [h|] eqn:Hh; [|done]. store_simpl.
  destruct Hinv as [Hbound Hheap]. rewrite Forall_forall in Hbound.
  intros Hrun. apply on_heap_Ok in Hrun as (h0 & h' & Hh0 & Hpush & ->).
  store_simpl_in Hh0. rewrite Hh in Hh0. injection Hh0 as <-.
  store_simpl. store_simpl_in Hpush. split.
  - apply heappush_perm in Hpush. apply Forall_forall. intros x Hx.
    rewrite Hpush in Hx. rewrite length_app. cbn.
    apply elem_of_cons in Hx as [->|Hx]; [lia|]. specialize (Hbound _ Hx).
    cbn in Hbound. lia.
  - eapply (heappush_heap _ _ (by_priority_trans _) (ref_lt_true _)
                           (ref_lt_false _)); [|exact Hpush].
    eapply is_heap_ext; [|exact Hheap].
    intros x y Hx Hy. unfold by_priority.
    by rewrite !key_of_app by (by apply Hbound).
Qed.

(** [drop] leaves the heap list alone and keeps every entry's priority. *)
Lemma drop_keeps_keys seqs : forall st,
  _heap (state_of (drop seqs st)) = _heap st
  /\ length (ents (state_of (drop seqs st))) = length (ents st)
  /\ forall addr,
       key_of (ents (state_of (drop seqs st))) addr = key_of (ents st) addr.
Proof.
  induction seqs as [|s seqs IH]; intros st; [done|].
  destruct (_data st) as [d|] eqn:Hd.
  2:{ cbn [drop]. unfold bind, __contains__. by rewrite Hd. }
  destruct (d !! s) as [a|] eqn:Hs.
  2:{ by rewrite (drop_cons_absent _ _ _ _ Hd Hs). }
  destruct (AliquotSequence._heap_entry a) as [addr|] eqn:Ha.
  2:{ cbn [drop]. unfold bind, __contains__, data_getitem, _sabotage_heap_entry.
      rewrite Hd. rewrite bool_decide_eq_true_2 by (rewrite Hs; eauto).
      cbn [negb]. by rewrite Hd, Hs, Ha. }
  destruct (ents st !! addr) as [e|] eqn:He.
  2:{ cbn [drop]. unfold bind, __contains__, data_getitem, _sabotage_heap_entry.
      rewrite Hd. rewrite bool_decide_eq_true_2 by (rewrite Hs; eauto).
      cbn [negb]. by rewrite Hd, Hs, Ha, He. }
  rewrite (drop_cons_present _ _ _ _ _ _ _ Hd Hs Ha He).
  destruct (IH (set_data (Some (delete s d))
                         (set_ents (<[addr := sabotaged e]> (ents st)) st)))
    as (Hheap & Hlen & Hkey).
  store_simpl_in Hheap. store_simpl_in Hlen.
  split; [done|]. split; [by rewrite Hlen, length_insert|].
  intros x. rewrite Hkey. store_simpl. by apply key_of_sabotage.
Qed.

Lemma heap_inv_drop seqs st : heap_inv st -> heap_inv (state_of (drop seqs st)).
Proof.
  unfold heap_inv. destruct (drop_keeps_keys seqs st) as (-> & Hlen & Hkey).
  destruct (_heap st) as [h|]; [|done]. intros [Hbound Hheap]. split.
  - by rewrite Hlen.
  - eapply is_heap_ext; [|exact Hheap]. intros x y _ _.
    unfold by_priority. by rewrite !Hkey.
Qed.

Lemma heap_inv_read_rows rows : forall st st',
  match _heap st with
  | Some h => Forall (fun addr => addr < length (ents st))%nat h
  | None => False
  end ->
  is_Some (_data st) ->
  read_rows rows st = Ok tt st' ->
  match _heap st' with
  | Some h => Forall (fun addr => addr < length (ents st'))%nat h
  | None => False
  end.
Proof.
  induction rows as [|dat rows IH]; intros st st' Hbound [d Hd].
  - cbn. by intros [= <-].
  - cbn [read_rows]. unfold bind.
    destruct (read_row dat st) as [[] st1|e st1] eqn:Hrow; [|done].
    destruct (_heap st) as [h|] eqn:Hh; [|done].
    destruct (read_row_Ok _ _ _ _ _ Hd Hh Hrow) as (a & _ & ->).
    apply IH; [|by eexists].
    unfold with_record. store_simpl. rewrite length_app. cbn.
    apply Forall_app. split.
    + eapply Forall_impl; [exact Hbound|]. cbn. lia.
    + constructor; [lia|constructor].
Qed.

(** Reading a table leaves the heap list a heap. *)
Lemma heap_inv_init_from doc st0 st :
  init_from doc st0 = Ok tt st -> heap_inv st.
Proof.
  unfold init_from, bind.
  set (st1 := set_heap (Some []) _).
  destruct (read_rows (aaData doc) st1) as [[] st2|e st2] eqn:Hrows; [|done].
  apply heap_inv_read_rows in Hrows;
    [|unfold st1; store_simpl; constructor|unfold st1; by store_simpl].
  intros (h & h' & Hh & Hfy & ->)%on_heap_Ok.
  rewrite Hh in Hrows. unfold heap_inv. store_simpl. split.
  - apply heapify_perm in Hfy. by rewrite Hfy.
  - exact (heapify_heap _ _ (by_priority_trans _) (ref_lt_true _)
                         (ref_lt_false _) _ _ Hfy).
Qed.

(** * What [pop_n_todo] yields on a store that satisfies the invariants *)

(** Popping keeps the heap order, and the entry popped is a minimum of the
    entries that stay. *)
Lemma heap_inv_heappop st addr st' :
  heap_inv st -> on_heap (fun lt => heappop lt) st = Ok addr st' ->
  exists h h',
    _heap st = Some h /\ h ≡ₚ addr :: h' /\ st' = set_heap (Some h') st
    /\ heap_inv st' /\ Forall (by_priority (ents st) addr) h'.
Proof.
  unfold heap_inv. intros Hinv (h & h' & Hh & Hpop & ->)%on_heap_Ok.
  rewrite Hh in Hinv. destruct Hinv as [Hbound Hheap].
  pose proof (heappop_perm _ _ _ _ Hpop) as Hperm.
  destruct (heappop_heap (ref_lt (ents st)) (by_priority (ents st))
              (by_priority_trans _) (ref_lt_true _) (ref_lt_false _)
              h addr h' Hheap Hpop) as [Hheap' Hmin].
  exists h, h'. store_simpl.
  split; [done|]. split; [done|]. split; [done|]. split; [|done].
  split; [|done].
  rewrite Hperm in Hbound. by apply Forall_cons in Hbound as [_ ?].
Qed.

(** One resumption of [pop_n_todo]: the id it yields comes from a live
    entry of the heap, and no entry left in the heap has a smaller
    priority. *)
Lemma pop_n_todo_next_min fuel n : forall st s n' st' h,
  heap_inv st -> _heap st = Some h -> NoDup h ->
  pop_n_todo_next fuel n st = Ok (Some (s, n')) st' ->
  exists addr e h',
    addr ∈ h /\ ents st !! addr = Some e /\ ent_seq e = Some s /\ s ≠ 0
    /\ st' = set_heap (Some h') st
    /\ (forall x, x ∈ h' -> x ∈ h) /\ (addr ∉ h') /\ NoDup h'
    /\ Forall (by_priority (ents st) addr) h'
    /\ heap_inv st'.
Proof.
  assert (forall st h1 h2, set_heap (Some h2) (set_heap (Some h1) st)
                           = set_heap (Some h2) st) as Hset by done.
  induction fuel as [|fuel IH]; intros st s n' st' h Hinv Hh Hnd;
    cbn [pop_n_todo_next].
  all: destruct (0 <? n); [|done].
  all: destruct (on_heap _ st) as [addr st1|e st1] eqn:Hpop; [|done].
  all: apply heap_inv_heappop in Hpop
      as (h0 & h1 & Hh0 & Hperm & -> & Hinv1 & Hmin); [|done].
  all: assert (h0 = h) as -> by congruence.
  all: pose proof Hnd as Hnd'; rewrite Hperm in Hnd';
    apply NoDup_cons in Hnd' as [Hnew Hnd1].
  all: store_simpl.
  all: destruct (ents st !! addr) as [e|] eqn:He; [|done].
  all: destruct (ent_seq e) as [x|] eqn:Hseq;
    [destruct (negb (x =? 0)) eqn:Hx|]; try done.
  all: try (intros [= <- <- <-]; exists addr, e, h1;
            split; [rewrite Hperm; by left|]; split; [done|]; split; [done|];
            split; [apply negb_true_iff in Hx; by apply Z.eqb_neq in Hx|];
            split; [done|]; split; [intros y Hy; rewrite Hperm; by right|];
            repeat (split; [done|]); done).
  all: intros Hrun;
    eapply (IH _ _ _ _ h1) in Hrun
      as (addr' & e' & h' & Hin & He' & Hs' & Hnz & -> & Hsub & Hnot & Hnd'' & Hmin' & Hinv');
    [|done|done|done].
  all: exists addr', e', h'; store_simpl_in He'.
  all: split; [rewrite Hperm; by right|]; split; [done|]; split; [done|];
    split; [done|]; split; [done|];
    split; [intros y Hy; rewrite Hperm; right; by apply Hsub|];
    repeat (split; [done|]); done.
Qed.

Lemma prio_of_same st st' s :
  _data st' = _data st -> ents st' = ents st -> prio_of st' s = prio_of st s.
Proof. intros Hd He. unfold prio_of. by rewrite Hd, He. Qed.

(** A live entry of the heap carries the priority its key is queued under. *)
Lemma lazy_inv_prio_of st h addr e s :
  lazy_inv st -> _heap st = Some h -> addr ∈ h ->
  ents st !! addr = Some e -> ent_seq e = Some s ->
  prio_of st s = key_of (ents st) addr /\ has_key st s = true.
Proof.
  intros (d & h0 & Hd & Hh0 & Hnd & Hbound & Hlive & Hkeys) Hh Hin He Hs.
  assert (h0 = h) as -> by congruence.
  destruct (Hlive addr e s Hin He Hs) as (a & Ha & Haddr).
  unfold prio_of, has_key. rewrite Hd, Ha, Haddr. split; [done|].
  apply bool_decide_eq_true_2. eauto.
Qed.

Lemma pop_n_todo_run_sorted k : forall n acc st ids r h,
  lazy_inv st -> heap_inv st -> _heap st = Some h ->
  pop_n_todo_run k n acc st = (ids, r) ->
  exists new,
    ids = acc ++ new
    /\ (length new <= Z.to_nat n)%nat
    /\ Forall (fun s => exists addr e,
                   addr ∈ h /\ ents st !! addr = Some e /\ ent_seq e = Some s) new
    /\ NoDup new
    /\ StronglySorted (fun s s' => (prio_of st s <= prio_of st s')%Q) new.
Proof.
  induction k as [|k IH]; intros n acc st ids r h Hlazy Hheap Hh;
    cbn [pop_n_todo_run].
  { intros [= <- <-]. exists []. rewrite app_nil_r.
    repeat split; try constructor. cbn. lia. }
  unfold pop_n_todo_step.
  destruct (pop_n_todo_next (heap_len st) n st) as [[[s n1]|] st1|e st1] eqn:Hnext.
  2,3: intros [= <- <-]; exists []; rewrite app_nil_r;
       repeat split; try constructor; cbn; lia.
  pose proof (pop_n_todo_next_keeps_inv _ _ _ _ _ Hlazy Hnext) as Hlazy1.
  pose proof (pop_n_todo_next_counts _ _ _ _ _ _ Hnext) as [Hpos ->].
  assert (NoDup h) as Hnd.
  { destruct Hlazy as (d & h0 & _ & Hh0 & Hnd & _). congruence. }
  apply (pop_n_todo_next_min _ _ _ _ _ _ h) in Hnext
    as (addr & e & h1 & Hin & He & Hs & Hnz & -> & Hsub & Hnot & Hnd1 & Hmin & Hheap1);
    [|done|done|done].
  intros Hrun. apply (IH _ _ _ _ _ h1) in Hrun
    as (new & -> & Hlen & Hfrom & Hnodup & Hsorted); [|done|done|done].
  exists (s :: new). rewrite <- app_assoc. split; [done|].
  store_simpl_in Hfrom.
  destruct (lazy_inv_prio_of _ _ _ _ _ Hlazy Hh Hin He Hs) as [Hprio _].
  rewrite Forall_forall in Hfrom. rewrite Forall_forall in Hmin.
  split; [cbn; lia|]. split; [|split].
  - constructor; [by exists addr, e|].
    apply Forall_forall. intros x Hx.
    destruct (Hfrom x Hx) as (addr' & e' & Hin' & He' & Hs').
    exists addr', e'. split; [by apply Hsub|done].
  - constructor; [|done]. intros Hx.
    destruct (Hfrom s Hx) as (addr' & e' & Hin' & He' & Hs').
    destruct Hlazy as (d & h0 & Hd & Hh0 & _ & _ & Hlive & _).
    assert (h0 = h) as -> by congruence.
    destruct (Hlive addr e s Hin He Hs) as (a & Ha & Haddr).
    destruct (Hlive addr' e' s (Hsub _ Hin') He' Hs') as (a' & Ha' & Haddr').
    assert (addr' = addr) as -> by congruence. done.
  - constructor.
    + exact Hsorted.
    + apply Forall_forall. intros x Hx.
      destruct (Hfrom x Hx) as (addr' & e' & Hin' & He' & Hs').
      destruct (lazy_inv_prio_of _ _ _ _ _ Hlazy Hh (Hsub _ Hin') He' Hs')
        as [Hprio' _].
      rewrite Hprio, Hprio'. by apply Hmin.
Qed.

(** X8.  [list(pop_n_todo(n))] on a store that satisfies both invariants: at most
    [n] ids, each the id of a live heap entry and so a key of the map, no id
    twice, and in nondecreasing order of the priority they were queued
    under. *)
Lemma pop_n_todo_sorted n st ids r :
  lazy_inv st -> heap_inv st ->
  pop_n_todo n st = (ids, r) ->
  (length ids <= Z.to_nat n)%nat
  /\ Forall (fun s => s ∈ heap_live st /\ has_key st s = true) ids
  /\ NoDup ids
  /\ StronglySorted (fun s s' => (prio_of st s <= prio_of st s')%Q) ids.
Proof.
  intros Hlazy Hheap Hrun. unfold pop_n_todo in Hrun.
  assert (exists h, _heap st = Some h) as [h Hh].
  { destruct Hlazy as (d & h & _ & Hh & _). by exists h. }
  destruct (pop_n_todo_run_sorted _ _ _ _ _ _ _ Hlazy Hheap Hh Hrun)
    as (new & -> & Hlen & Hfrom & Hnd & Hsorted).
  cbn [app]. split; [done|]. split; [|done].
  destruct (lazy_inv_live st Hlazy) as [_ Hkeys].
  rewrite Forall_forall in Hfrom. rewrite Forall_forall in Hkeys.
  apply Forall_forall. intros s Hs.
  assert (s ∈ heap_live st) as Hin
    by (apply (elem_of_heap_live st h s Hh); by apply Hfrom).
  split; [done|by apply Hkeys].
Qed.

(** * Loading a table that was written *)

(** ** The heap functions return when the comparison does *)

Section heapq_total.
Context {A : Type} (lt : A -> A -> exn + bool) (P : A -> Prop).
Hypothesis lt_total : forall x y, P x -> P y -> exists b, lt x y = inr b.

Lemma _siftdown_loop_total fuel newitem startpos : forall pos heap,
  P newitem -> Forall P heap -> (pos < length heap)%nat ->
  exists heap', _siftdown_loop lt fuel newitem startpos pos heap = Ok tt heap'.
Proof.
  induction fuel as [|fuel IH]; intros pos heap Hnew Hall Hpos;
    cbn [_siftdown_loop]; [by eexists|].
  destruct (startpos <? pos)%nat eqn:Hlt; [|by eexists].
  apply Nat.ltb_lt in Hlt.
  assert ((pos - 1) / 2 < length heap)%nat as Hparent by lia.
  destruct (lookup_lt_is_Some_2 heap _ Hparent) as [parent Hp]. rewrite Hp.
  assert (P parent) as Hpar by (eapply Forall_lookup_1; eauto).
  destruct (lt_total newitem parent Hnew Hpar) as [[] ->]; [|by eexists].
  apply IH; [done| |by rewrite length_insert].
  by apply Forall_insert.
Qed.

Lemma _siftdown_total startpos pos heap :
  Forall P heap -> (pos < length heap)%nat ->
  exists heap', _siftdown lt startpos pos heap = Ok tt heap'.
Proof.
  intros Hall Hpos. unfold _siftdown.
  destruct (lookup_lt_is_Some_2 heap _ Hpos) as [x Hx]. rewrite Hx.
  apply _siftdown_loop_total; [|done|done]. eapply Forall_lookup_1; eauto.
Qed.

Lemma _siftup_loop_total fuel : forall pos heap,
  Forall P heap -> (pos < length heap)%nat ->
  exists pos' heap',
    _siftup_loop lt fuel (length heap) pos heap = Ok pos' heap'
    /\ (pos' < length heap')%nat /\ Forall P heap'.
Proof.
  induction fuel as [|fuel IH]; intros pos heap Hall Hpos;
    cbn [_siftup_loop]; [by eexists _, _|].
  destruct (2 * pos + 1 <? length heap)%nat eqn:Hc; [|by eexists _, _].
  apply Nat.ltb_lt in Hc.
  destruct (lookup_lt_is_Some_2 heap _ Hc) as [c Hcl].
  assert (P c) as HPc by (eapply Forall_lookup_1; eauto).
  assert (forall child x, heap !! child = Some x -> (child < length heap)%nat ->
            exists pos' heap',
              _siftup_loop lt fuel (length heap) child (<[pos := x]> heap)
              = Ok pos' heap'
              /\ (pos' < length heap')%nat /\ Forall P heap') as Hstep.
  { intros child x Hx Hchild.
    assert (P x) as HPx by (eapply Forall_lookup_1; eauto).
    rewrite <- (length_insert heap pos x).
    apply IH; [by apply Forall_insert|by rewrite length_insert]. }
  destruct (2 * pos + 1 + 1 <? length heap)%nat eqn:Hr.
  - apply Nat.ltb_lt in Hr.
    destruct (lookup_lt_is_Some_2 heap _ Hr) as [r Hrl].
    assert (P r) as HPr by (eapply Forall_lookup_1; eauto).
    rewrite Hcl, Hrl.
    destruct (lt_total c r HPc HPr) as [[] ->]; cbn [negb].
    + rewrite Hcl. by apply Hstep.
    + rewrite Hrl. by apply Hstep.
  - rewrite Hcl. by apply Hstep.
Qed.

Lemma _siftup_total pos heap :
  Forall P heap -> (pos < length heap)%nat ->
  exists heap', _siftup lt pos heap = Ok tt heap'.
Proof.
  intros Hall Hpos. unfold _siftup.
  destruct (lookup_lt_is_Some_2 heap _ Hpos) as [x Hx]. rewrite Hx.
  destruct (_siftup_loop_total (length heap) pos heap Hall Hpos)
    as (pos' & heap' & -> & Hpos' & Hall').
  apply _siftdown_total; [|by rewrite length_insert].
  apply Forall_insert; [done|]. exact (Forall_lookup_1 _ _ _ _ Hall Hx).
Qed.


End heapq_total.

(** ** Reading rows that were written from records *)

Lemma of_list_to_list a :
  AliquotSequence.of_list (AliquotSequence.to_list a) = inr (detached a).
Proof. destruct a as [s [sz|] [ix|] g f cf k r p tm nz pr i dr he]; reflexivity. Qed.

Lemma ref_lt_total E x y :
  has_seq E x -> has_seq E y -> exists b, ref_lt E x y = inr b.
Proof.
  intros (e1 & s1 & He1 & Hs1) (e2 & s2 & He2 & Hs2).
  unfold ref_lt, entry_lt. rewrite He1, He2, Hs1, Hs2.
  destruct (negb _); [by eexists|]. destruct (negb _); by eexists.
Qed.








(** ** Writing, then reading *)






(** * Locking, continued *)

(** X1.  [_lock] then [_unlock] leaves the files as they were; [_lock] on a held
    lock and [_unlock] on a free one raise and touch no file. *)
Theorem lock_unlock_round_trip :
  forall m,
    match fs m !! _lockfile (self m) with
    | None =>
      _unlock m = Raise FileNotFoundError m
      /\ exists m1 m2,
           _lock m = Ok tt m1
           /\ is_Some (fs m1 !! _lockfile (self m))
           /\ _unlock m1 = Ok tt m2
           /\ fs m2 = fs m /\ self m2 = self m
    | Some _ =>
      raised (_lock m) = Some LockError
      /\ fs (state_of (_lock m)) = fs m
      /\ exists m1, _unlock m = Ok tt m1
                    /\ fs m1 = delete (_lockfile (self m)) (fs m)
    end.
Proof.
  intros m. unfold _lock, _unlock.
  destruct (fs m !! _lockfile (self m)) as [f|] eqn:Hl.
  - split; [done|]. split; [done|]. by eexists.
  - split; [done|]. eexists _, _. split; [done|]. cbn [fs set_fs add_event self].
    rewrite lookup_insert_eq. split; [by eexists|]. split; [done|].
    cbn [fs set_fs add_event self]. split; [|done].
    rewrite delete_insert_eq. by apply delete_id.
Qed.

Lemma init_from_no_lock d : no_lock_error (init_from d).
Proof.
  intros st. unfold init_from.
  apply no_lock_error_bind.
  2:{ intros []. apply on_heap_no_lock. intros E h. unfold heapify.
      apply heapify_loop_no_lock, ref_lt_no_lock. }
  clear st. induction (aaData d) as [|dat rows IH]; [done|].
  cbn [read_rows]. apply no_lock_error_bind; [|by intros []].
  intros st. unfold read_row, _make_heap_entry.
  destruct (AliquotSequence.of_list dat) as [e|a] eqn:Hdec; [|done].
  cbn. unfold AliquotSequence.of_list in Hdec.
  repeat (destruct dat as [|? dat]; [by injection Hdec as <-|]).
  destruct dat; [|by injection Hdec as <-].
  repeat (match type of Hdec with
          | match ?x with _ => _ end = _ => destruct x
          end; try by injection Hdec as <-); done.
Qed.

Lemma lock_read_init_free m :
  fs m !! _lockfile (self m) = None ->
  raises_LockError (lock_read_init m) = false
  /\ log (state_of (lock_read_init m)) = TryLock true :: log m
  /\ fs (state_of (lock_read_init m))
     = <[_lockfile (self m) := FText EmptyString]> (fs m).
Proof.
  intros Hl. unfold lock_read_init, bind, _lock. rewrite Hl.
  cbn [fs set_fs add_event self].
  destruct (_ !! _jsonfile (self m)) as [[d|t]|]; [|done|done].
  unfold on_self. cbn [fs set_fs add_event self].
  pose proof (init_from_no_lock d (self m)) as Hno.
  by destruct (init_from d (self m)) as [[] st|e st].
Qed.

(** X2.  [__enter__] on a free lock makes one attempt and never sleeps: its
    outcome is that of [lock_read_init], also when the read fails, and then
    the lock file it created stays.  With a negative [block_minutes] the
    loop body never runs and [raise f] finds [f] unbound. *)
Theorem enter_on_free_lock :
  forall others m b,
    _block_minutes (self m) = Some b ->
    (b < 0 -> __enter__ others m = Raise UnboundLocalError m)
    /\ (0 <= b -> fs m !! _lockfile (self m) = None ->
        __enter__ others m = lock_read_init m
        /\ log (state_of (__enter__ others m)) = TryLock true :: log m
        /\ fs (state_of (__enter__ others m))
           = <[_lockfile (self m) := FText EmptyString]> (fs m)
        /\ (fs m !! _jsonfile (self m) = None ->
            _jsonfile (self m) <> _lockfile (self m) ->
            raised (__enter__ others m) = Some FileNotFoundError)
        /\ (forall t, fs m !! _jsonfile (self m) = Some (FText t) ->
            _jsonfile (self m) <> _lockfile (self m) ->
            raised (__enter__ others m) = Some JSONDecodeError)).
Proof.
  intros others m b Hb. unfold __enter__. rewrite Hb. rewrite Z.div_1_r. split.
  - intros Hneg. by replace (Z.to_nat (b * 60 + 1)) with O by lia.
  - intros Hpos Hl.
    destruct (Z.to_nat (b * 60 + 1)) as [|iters] eqn:Hit; [lia|].
    cbn [enter_loop].
    destruct (lock_read_init_free m Hl) as (Hno & Hlog & Hfs).
    assert (match lock_read_init m with
            | Ok _ m' => Ok tt m'
            | Raise e m' =>
              if is_LockError e
              then bind (sleep others 1)
                        (fun _ => enter_loop others iters (Some e)) m'
              else Raise e m'
            end = lock_read_init m) as ->.
    { destruct (lock_read_init m) as [[] m'|e m']; [done|].
      cbn in Hno. by rewrite Hno. }
    split; [done|]. split; [done|]. split; [done|].
    unfold lock_read_init, bind, _lock. rewrite Hl.
    cbn [fs set_fs add_event self].
    split.
    + intros Hj Hne. by rewrite lookup_insert_ne, Hj by done.
    + intros t Hj Hne. by rewrite lookup_insert_ne, Hj by done.
Qed.

Lemma enter_on_free_lock_witness :
  raised (__enter__ (fun f => f) Sample.waiting) = Some FileNotFoundError.
Proof.
  destruct (enter_on_free_lock (fun f => f) Sample.waiting 0 eq_refl) as [_ H].
  destruct (H ltac:(lia) eq_refl) as (_ & _ & _ & Hmissing & _).
  apply Hmissing; [reflexivity|]. vm_compute. intros Heq. discriminate Heq.
Defined.

(** * Starting from scratch *)

(** X3.  [_lock_init_empty] takes the lock and leaves an empty id map and an
    empty heap; on a held lock it raises [LockError] and the store is as it
    was.  Written back at once, the empty store gives an empty table, a
    mirror of one line break, and no lock file. *)
Theorem lock_init_empty_then_write :
  forall m,
    match fs m !! _lockfile (self m) with
    | Some _ =>
      raised (_lock_init_empty m) = Some LockError
      /\ self (state_of (_lock_init_empty m)) = self m
      /\ fs (state_of (_lock_init_empty m)) = fs m
    | None =>
      exists m1,
        _lock_init_empty m = Ok tt m1
        /\ self m1 = set_heap (Some []) (set_data (Some ∅) (self m))
        /\ fs m1 = <[_lockfile (self m) := FText EmptyString]> (fs m)
        /\ lazy_inv (self m1) /\ heap_inv (self m1)
        /\ (_jsonfile (self m) <> _lockfile (self m) ->
            _txtfile (self m) <> _jsonfile (self m) ->
            exists m2,
              unlock_write m1 = Ok tt m2
              /\ fs m2 !! _jsonfile (self m)
                 = Some (FJson (mk_doc [] (resdatetime (self m))))
              /\ fs m2 !! _lockfile (self m) = None
              /\ (_txtfile (self m) <> EmptyString ->
                  _txtfile (self m) <> _lockfile (self m) ->
                  fs m2 !! _txtfile (self m) = Some (FText newline)))
    end.
Proof.
  intros m. unfold _lock_init_empty, bind, _lock.
  destruct (fs m !! _lockfile (self m)) as [f|] eqn:Hl; [done|].
  unfold on_self. cbn [fs set_fs add_event self set_self].
  eexists. split; [done|]. cbn [fs set_fs add_event self set_self].
  split; [done|]. split; [done|].
  split; [|split].
  - exists ∅, []. store_simpl. split; [done|]. split; [done|].
    split; [constructor|]. split; [constructor|].
    split; [by intros addr e s Hin%elem_of_nil|]. by intros k a Hk.
  - unfold heap_inv. store_simpl. split; [constructor|].
    intros j _ _ x y Hx. by rewrite lookup_nil in Hx.
  - intros Hjl Htj.
    assert (forall E, write_order E ∅ [] = []) as Hwo.
    { intros E. unfold write_order, live_seqs, missing_seqs, records_of.
      simpl. rewrite dom_empty_L.
      replace ((∅ : gset Z) ∖ ∅) with (∅ : gset Z) by set_solver.
      by rewrite elements_empty. }
    unfold unlock_write. cbn [fs set_fs add_event self set_self].
    store_simpl. rewrite Hwo.
    cbn [app map sorted_by_seq fold_left map_exn].
    destruct (String.eqb (_txtfile (self m)) EmptyString) eqn:Htxt; cbn [negb].
    + apply String.eqb_eq in Htxt.
      unfold _unlock. cbn [fs set_fs add_event self set_self]. store_simpl.
      rewrite lookup_insert_ne by done. rewrite lookup_insert_eq.
      eexists. split; [done|]. cbn [fs set_fs add_event self set_self].
      split; [|split; [|done]].
      * rewrite lookup_delete_ne by done. by rewrite lookup_insert_eq.
      * by rewrite lookup_delete_eq.
    + apply String.eqb_neq in Htxt.
      unfold _unlock. cbn [fs set_fs add_event self set_self]. store_simpl.
      assert (is_Some (<[_txtfile (self m) := FText (join_lines [])]>
                         (<[_jsonfile (self m) := FJson (mk_doc []
                                                   (resdatetime (self m)))]>
                            (<[_lockfile (self m) := FText EmptyString]> (fs m)))
                       !! _lockfile (self m))) as [x ->].
      { rewrite !lookup_insert_is_Some'. right. right. by left. }
      eexists. split; [done|]. cbn [fs set_fs add_event self set_self].
      split; [|split].
      * rewrite lookup_delete_ne by done.
        rewrite lookup_insert_ne by done. by rewrite lookup_insert_eq.
      * by rewrite lookup_delete_eq.
      * intros _ Htl. rewrite lookup_delete_ne by done.
        by rewrite lookup_insert_eq.
Qed.

(** * Writing back, continued *)

Lemma insert_by_seq_perm a l : insert_by_seq a l ≡ₚ a :: l.
Proof.
  induction l as [|b l IH]; [done|]. cbn [insert_by_seq].
  destruct (_ <=? _); [|done]. rewrite IH. apply Permutation_swap.
Qed.

Lemma sorted_by_seq_perm l : sorted_by_seq l ≡ₚ l.
Proof.
  unfold sorted_by_seq.
  assert (forall acc, fold_left (fun acc a => insert_by_seq a acc) l acc
                      ≡ₚ acc ++ l) as Hgen.
  { induction l as [|a l IH]; intros acc; cbn [fold_left].
    - by rewrite app_nil_r.
    - rewrite IH, insert_by_seq_perm. cbn [app]. apply Permutation_middle. }
  by rewrite Hgen.
Qed.

Lemma insert_by_seq_sorted a l :
  StronglySorted (fun x y => AliquotSequence.seq x <= AliquotSequence.seq y) l ->
  StronglySorted (fun x y => AliquotSequence.seq x <= AliquotSequence.seq y)
                 (insert_by_seq a l).
Proof.
  induction 1 as [|b l Hl IH Hb]; cbn [insert_by_seq].
  { repeat constructor. }
  destruct (AliquotSequence.seq b <=? AliquotSequence.seq a) eqn:Hle.
  - apply Z.leb_le in Hle. constructor; [done|].
    rewrite insert_by_seq_perm. by constructor.
  - apply Z.leb_gt in Hle. constructor; [by constructor|].
    constructor; [lia|]. eapply Forall_impl; [exact Hb|]. cbn. lia.
Qed.

Lemma sorted_by_seq_sorted l :
  StronglySorted (fun x y => AliquotSequence.seq x <= AliquotSequence.seq y)
                 (sorted_by_seq l).
Proof.
  unfold sorted_by_seq.
  assert (forall acc,
             StronglySorted (fun x y => AliquotSequence.seq x
                                        <= AliquotSequence.seq y) acc ->
             StronglySorted (fun x y => AliquotSequence.seq x
                                        <= AliquotSequence.seq y)
                            (fold_left (fun acc a => insert_by_seq a acc) l acc))
    as Hgen.
  { induction l as [|a l IH]; intros acc Hacc; cbn [fold_left]; [done|].
    by apply IH, insert_by_seq_sorted. }
  apply Hgen. constructor.
Qed.

(** Sorted by [seq] and no [seq] twice: strictly increasing. *)
Lemma sorted_strict (l : list ali) :
  StronglySorted (fun x y => AliquotSequence.seq x <= AliquotSequence.seq y) l ->
  NoDup (map AliquotSequence.seq l) ->
  StronglySorted (fun x y => AliquotSequence.seq x < AliquotSequence.seq y) l.
Proof.
  induction 1 as [|a l Hl IH Ha]; cbn [map]; [constructor|].
  intros [Hnot Hnd]%NoDup_cons. constructor; [by apply IH|].
  rewrite Forall_forall in Ha. apply Forall_forall. intros b Hb.
  specialize (Ha b Hb).
  assert (AliquotSequence.seq a <> AliquotSequence.seq b); [|lia].
  intros Heq. apply Hnot. rewrite Heq. by apply list_elem_of_fmap_2.
Qed.

Lemma records_of_fst d (L : list (Z * ali)) :
  (forall k a, (k, a) ∈ L -> d !! k = Some a) ->
  records_of d L.*1 = L.*2.
Proof.
  unfold records_of. induction L as [|[k a] L IH]; intros HL; [done|].
  cbn. rewrite (HL k a) by left. cbn. f_equal. apply IH.
  intros k' a' Hin. apply HL. by right.
Qed.

Lemma records_of_all d l :
  NoDup l -> (forall k, k ∈ l <-> is_Some (d !! k)) ->
  records_of d l ≡ₚ (map_to_list d).*2.
Proof.
  intros Hnd Hl.
  rewrite <- (records_of_fst d (map_to_list d))
    by (intros k a; apply elem_of_map_to_list).
  unfold records_of. apply omap_Permutation, NoDup_Permutation;
    [done|apply NoDup_fst_map_to_list|].
  intros k. rewrite Hl, list_elem_of_fmap. split.
  - intros [a Ha]. exists (k, a). split; [done|]. by apply elem_of_map_to_list.
  - intros ([k' a] & -> & Hin%elem_of_map_to_list). by exists a.
Qed.

Lemma filter_all {A} (P : A -> Prop) `{forall x, Decision (P x)} (l : list A) :
  Forall P l -> filter P l = l.
Proof.
  induction 1 as [|x l Hx _ IH]; [done|].
  rewrite filter_cons. destruct (decide (P x)); [by rewrite IH|done].
Qed.

Lemma lazy_inv_scan st d h :
  lazy_inv st -> _data st = Some d -> _heap st = Some h ->
  live_seqs (ents st) d h = heap_live st.
Proof.
  intros Hinv Hd Hh. rewrite live_seqs_heap_scan. unfold heap_scan.
  destruct (lazy_inv_live st Hinv) as [_ Hkeys].
  unfold heap_live in *. rewrite Hh in *. apply filter_all.
  eapply Forall_impl; [exact Hkeys|]. intros s. unfold has_key. rewrite Hd.
  apply bool_decide_eq_true_1.
Qed.

(** On a store that satisfies the invariant the list written back holds
    every record of the id map exactly once. *)
Lemma write_order_all st d h :
  lazy_inv st -> _data st = Some d -> _heap st = Some h ->
  write_order (ents st) d h ≡ₚ (map_to_list d).*2.
Proof.
  intros Hinv Hd Hh. unfold write_order.
  rewrite (lazy_inv_scan st d h Hinv Hd Hh).
  destruct (lazy_inv_live st Hinv) as [Hnd Hkeys].
  unfold records_of. rewrite <- omap_app. apply records_of_all.
  - apply NoDup_app. split; [done|]. split; [|apply NoDup_elements].
    intros k Hk. unfold missing_seqs.
    rewrite elem_of_elements, elem_of_difference, elem_of_list_to_set.
    by intros [_ ?].
  - intros k. unfold missing_seqs.
    rewrite elem_of_app, elem_of_elements, elem_of_difference,
      elem_of_list_to_set, elem_of_dom.
    split; [|destruct (decide (k ∈ heap_live st)); tauto].
    intros [Hk|[? _]]; [|done].
    rewrite Forall_forall in Hkeys. specialize (Hkeys k Hk).
    unfold has_key in Hkeys. rewrite Hd in Hkeys.
    by apply bool_decide_eq_true_1 in Hkeys.
Qed.

Lemma values_seq_keys (d : gmap Z ali) :
  (forall k a, d !! k = Some a -> AliquotSequence.seq a = k) ->
  map AliquotSequence.seq (map_to_list d).*2 = (map_to_list d).*1.
Proof.
  intros Hd.
  assert (forall k a, (k, a) ∈ map_to_list d -> AliquotSequence.seq a = k) as HL
      by (intros k a Hin%elem_of_map_to_list; by apply Hd).
  induction (map_to_list d) as [|[k a] L IH]; [done|]. cbn.
  rewrite (HL k a) by left. f_equal. apply IH.
  intros k' a' Hin. apply HL. by right.
Qed.

(** X4.  On a store that satisfies the invariant, whatever has been dropped or
    popped, the table [unlock_write] writes to the primary file holds each
    record of the id map exactly once. *)
Theorem unlock_write_each_record_once :
  forall m d,
    lazy_inv (self m) -> _data (self m) = Some d ->
    _txtfile (self m) <> _jsonfile (self m) ->
    _lockfile (self m) <> _jsonfile (self m) ->
    written_table (state_of (unlock_write m))
    ≡ₚ map AliquotSequence.to_list (map_to_list d).*2.
Proof.
  intros m d Hinv Hd Htxt Hlock.
  pose proof Hinv as (d' & h & Hd' & Hh & _).
  rewrite (unlock_write_table m h d Hh Hd Htxt Hlock).
  apply Permutation_map, (write_order_all (self m)); done.
Qed.

(** X5.  The text mirror [unlock_write] leaves: the [str] lines of the records
    of the id map, each once, in strictly increasing order of [seq]. *)
Theorem unlock_write_mirror_sorted :
  forall m m1 d,
    lazy_inv (self m) -> _data (self m) = Some d ->
    _txtfile (self m) <> EmptyString ->
    _txtfile (self m) <> _lockfile (self m) ->
    unlock_write m = Ok tt m1 ->
    exists recs lines,
      recs ≡ₚ (map_to_list d).*2
      /\ StronglySorted (fun a b => AliquotSequence.seq a < AliquotSequence.seq b)
                        recs
      /\ map_exn AliquotSequence.__str__ recs = inr lines
      /\ fs m1 !! _txtfile (self m) = Some (FText (join_lines lines)).
Proof.
  intros m m1 d Hinv Hd Htxt Htl.
  pose proof Hinv as (d' & h & Hd' & Hh & _ & _ & _ & Hkeys).
  assert (d' = d) as -> by congruence.
  pose proof (write_order_all (self m) d h Hinv Hd Hh) as Hall.
  unfold unlock_write. rewrite Hh, Hd.
  set (out := write_order (ents (self m)) d h) in *.
  apply String.eqb_neq in Htxt. rewrite Htxt. cbn [negb].
  assert (match h with [] | _ => True end) as _ by by destruct h.
  destruct (map_exn AliquotSequence.__str__ (sorted_by_seq out))
    as [e|lines] eqn:Hlines; [by destruct h|].
  intros Hrun. exists (sorted_by_seq out), lines.
  split; [by rewrite sorted_by_seq_perm|]. split; [|split; [done|]].
  - apply sorted_strict; [apply sorted_by_seq_sorted|].
    assert (map AliquotSequence.seq (sorted_by_seq out) ≡ₚ (map_to_list d).*1)
      as ->; [|apply NoDup_fst_map_to_list].
    rewrite (Permutation_map _ (sorted_by_seq_perm out)).
    rewrite (Permutation_map _ Hall).
    rewrite (values_seq_keys d); [done|]. intros k a Hk. by destruct (Hkeys k a Hk).
  - assert (exists f, m1 = set_fs (delete (_lockfile (self m))
                 (<[_txtfile (self m) := FText (join_lines lines)]> f)) m) as [f ->].
    { destruct h; unfold _unlock in Hrun; cbn [fs set_fs self] in Hrun;
        destruct (_ !! _lockfile (self m)); try done;
        injection Hrun as <-; by eexists. }
    cbn [fs set_fs]. rewrite lookup_delete_ne by done.
    by rewrite lookup_insert_eq.
Qed.

Lemma map_exn_str_invalid l a :
  a ∈ l -> AliquotSequence.is_valid a = false ->
  map_exn AliquotSequence.__str__ l = inl ValueError.
Proof.
  intros Hin Ha.
  assert (exists e, map_exn AliquotSequence.__str__ l = inl e) as [e He].
  { induction Hin as [a l|a b l Hin IH]; cbn [map_exn].
    - unfold AliquotSequence.__str__ at 1. rewrite Ha. by eexists.
    - destruct (AliquotSequence.__str__ b); [by eexists|].
      destruct (IH Ha) as [e ->]. by eexists. }
  by rewrite He, (map_exn_str_raises l e He).
Qed.

(** X6.  A record that is not fully described makes [unlock_write] fail after
    the primary file has been rewritten: [ValueError] leaves the method
    before the mirror is written and before the lock is released. *)
Theorem unlock_write_incomplete_record :
  forall m d h k a,
    _data (self m) = Some d -> _heap (self m) = Some h ->
    d !! k = Some a -> AliquotSequence.is_valid a = false ->
    _txtfile (self m) <> EmptyString ->
    unlock_write m
    = Raise ValueError
        (set_fs (<[_jsonfile (self m) :=
                     FJson (mk_doc (map AliquotSequence.to_list
                                        (write_order (ents (self m)) d h))
                                   (resdatetime (self m)))]> (fs m)) m)
    /\ (_lockfile (self m) <> _jsonfile (self m) ->
        fs (state_of (unlock_write m)) !! _lockfile (self m)
        = fs m !! _lockfile (self m))
    /\ (_txtfile (self m) <> _jsonfile (self m) ->
        fs (state_of (unlock_write m)) !! _txtfile (self m)
        = fs m !! _txtfile (self m)).
Proof.
  intros m d h k a Hd Hh Hk Ha Htxt.
  assert (unlock_write m
          = Raise ValueError
              (set_fs (<[_jsonfile (self m) :=
                           FJson (mk_doc (map AliquotSequence.to_list
                                              (write_order (ents (self m)) d h))
                                         (resdatetime (self m)))]> (fs m)) m))
    as ->.
  { unfold unlock_write. rewrite Hh, Hd.
    apply String.eqb_neq in Htxt. rewrite Htxt. cbn [negb].
    rewrite (map_exn_str_invalid _ a); [by destruct h| |done].
    rewrite sorted_by_seq_perm. by eapply write_order_complete. }
  split; [done|]. cbn [state_of fs set_fs].
  split; intros Hne; by rewrite lookup_insert_ne.
Qed.

Lemma unlock_write_each_record_once_witness :
  written_table (state_of (unlock_write Example.three))
  ≡ₚ map AliquotSequence.to_list (map_to_list Example.three_data).*2.
Proof.
  assert (lazy_inv (self Example.three)) as Hinv.
  { apply (init_from_inv Example.three_doc Example.fresh).
    - apply (bool_decide_unpack _). vm_compute. exact I.
    - vm_compute. reflexivity. }
  apply (unlock_write_each_record_once Example.three Example.three_data Hinv).
  - vm_compute. reflexivity.
  - vm_compute. intros H. discriminate H.
  - vm_compute. intros H. discriminate H.
Defined.

Lemma unlock_write_mirror_sorted_witness :
  exists recs lines,
    recs ≡ₚ (map_to_list Example.three_data).*2
    /\ StronglySorted (fun a b => AliquotSequence.seq a < AliquotSequence.seq b)
                      recs
    /\ map_exn AliquotSequence.__str__ recs = inr lines
    /\ fs Example.released !! _txtfile (self Example.three)
       = Some (FText (join_lines lines)).
Proof.
  assert (lazy_inv (self Example.three)) as Hinv.
  { apply (init_from_inv Example.three_doc Example.fresh).
    - apply (bool_decide_unpack _). vm_compute. exact I.
    - vm_compute. reflexivity. }
  apply (unlock_write_mirror_sorted Example.three Example.released
                                    Example.three_data Hinv).
  - vm_compute. reflexivity.
  - vm_compute. intros H. discriminate H.
  - vm_compute. intros H. discriminate H.
  - vm_compute. reflexivity.
Defined.

Lemma unlock_write_incomplete_record_witness :
  raised (unlock_write Sample.sketchy) = Some ValueError
  /\ is_Some (fs (state_of (unlock_write Sample.sketchy))
              !! _lockfile (self Sample.sketchy)).
Proof.
  destruct (unlock_write_incomplete_record
              Sample.sketchy Sample.sketchy_data Sample.sketchy_heap 6
              (AliquotSequence.set_heap_entry (Some 1%nat) (Sample.blank 6)))
    as (Hrun & Hlock & _).
  - vm_compute. reflexivity.
  - vm_compute. reflexivity.
  - vm_compute. reflexivity.
  - vm_compute. reflexivity.
  - vm_compute. intros H. discriminate H.
  - split; [by rewrite Hrun|]. rewrite Hlock.
    + vm_compute. eexists. reflexivity.
    + vm_compute. intros H. discriminate H.
Defined.

(** * Popping, continued *)

Section heappop_total.
Context {A : Type} (lt : A -> A -> exn + bool) (P : A -> Prop).
Hypothesis lt_total : forall x y, P x -> P y -> exists b, lt x y = inr b.

Lemma heappop_total heap :
  Forall P heap -> heap <> [] ->
  exists x heap', heappop lt heap = Ok x heap'.
Proof.
  intros Hall Hne. unfold heappop.
  destruct (list_pop heap) as [[lastelt heap']|] eqn:Hpop.
  2:{ unfold list_pop in Hpop. destruct (last heap) eqn:Hlast; [done|].
      by apply last_None in Hlast. }
  apply list_pop_Some in Hpop as ->.
  apply Forall_app in Hall as [Hall' Hlast]. rewrite Forall_singleton in Hlast.
  destruct heap' as [|returnitem heap']; [by eexists _, _|].
  destruct (_siftup_total lt P lt_total 0 (<[0%nat := lastelt]> (returnitem :: heap')))
    as [heap'' ->]; [|cbn; lia|by eexists _, _].
  by apply Forall_insert.
Qed.
End heappop_total.

Lemma queued_has_seq E addr : queued E addr -> has_seq E addr.
Proof. intros (e & s & He & Hs & _). by exists e, s. Qed.

Lemma heap_live_cons st h addr e s h' :
  _heap st = Some h -> h ≡ₚ addr :: h' ->
  ents st !! addr = Some e -> ent_seq e = Some s ->
  heap_live st ≡ₚ s :: heap_live (set_heap (Some h') st).
Proof.
  intros Hh Hperm He Hs. unfold heap_live. store_simpl. rewrite Hh.
  rewrite (omap_Permutation _ _ _ Hperm). cbn. by rewrite He; cbn; rewrite Hs.
Qed.

(** One resumption on a heap without tombstones: the entry popped is
    yielded at once. *)
Lemma pop_n_todo_step_queued n st h :
  _heap st = Some h -> Forall (queued (ents st)) h -> h <> [] -> 0 < n ->
  exists addr e s h',
    pop_n_todo_step n st = Ok (Some (s, n - 1)) (set_heap (Some h') st)
    /\ h ≡ₚ addr :: h'
    /\ ents st !! addr = Some e /\ ent_seq e = Some s /\ s <> 0.
Proof.
  intros Hh Hall Hne Hn.
  destruct (heappop_total (ref_lt (ents st)) (has_seq (ents st))
              (ref_lt_total _) h) as (addr & h' & Hpop); [|done|].
  { eapply Forall_impl; [exact Hall|]. apply queued_has_seq. }
  pose proof (heappop_perm _ _ _ _ Hpop) as Hperm.
  assert (addr ∈ h) as Hin by (rewrite Hperm; left).
  rewrite Forall_forall in Hall.
  destruct (Hall addr Hin) as (e & s & He & Hs & Hnz).
  exists addr, e, s, h'. split; [|done].
  assert (forall fuel, pop_n_todo_next fuel n st
                       = Ok (Some (s, n - 1)) (set_heap (Some h') st)) as Hnext.
  { intros fuel. destruct fuel; cbn [pop_n_todo_next].
    all: apply Z.ltb_lt in Hn; rewrite Hn.
    all: unfold on_heap; rewrite Hh, Hpop; store_simpl; rewrite He, Hs.
    all: apply Z.eqb_neq in Hnz; by rewrite Hnz. }
  apply Hnext.
Qed.

Lemma pop_n_todo_step_empty n st :
  _heap st = Some [] -> 0 < n ->
  pop_n_todo_step n st = Raise IndexError (set_heap (Some []) st).
Proof.
  intros Hh Hn. unfold pop_n_todo_step, heap_len. rewrite Hh.
  cbn [length pop_n_todo_next]. apply Z.ltb_lt in Hn. rewrite Hn.
  unfold on_heap. by rewrite Hh.
Qed.

Lemma pop_n_todo_step_done n st :
  n <= 0 -> pop_n_todo_step n st = Ok None st.
Proof.
  intros Hn. unfold pop_n_todo_step.
  apply Z.ltb_ge in Hn. destruct (heap_len st); cbn [pop_n_todo_next];
    by rewrite Hn.
Qed.

Lemma pop_n_todo_run_queued k : forall n acc st h,
  _heap st = Some h -> Forall (queued (ents st)) h -> (Z.to_nat n < k)%nat ->
  exists new st',
    pop_n_todo_run k n acc st
    = (acc ++ new,
       if bool_decide (Z.of_nat (length h) < n)
       then Raise IndexError st' else Ok tt st')
    /\ length new = Nat.min (Z.to_nat n) (length h)
    /\ heap_len st' = (length h - length new)%nat
    /\ new ++ heap_live st' ≡ₚ heap_live st.
Proof.
  induction k as [|k IH]; intros n acc st h Hh Hall Hk; [lia|].
  cbn [pop_n_todo_run].
  destruct (decide (n <= 0)) as [Hn|Hn].
  { rewrite pop_n_todo_step_done by done. exists [], st.
    rewrite app_nil_r, bool_decide_eq_false_2 by lia.
    split; [done|]. split; [cbn; lia|].
    unfold heap_len. rewrite Hh. split; [cbn; lia|done]. }
  destruct h as [|addr0 h0].
  { rewrite (pop_n_todo_step_empty n st) by (done || lia).
    exists [], (set_heap (Some []) st).
    rewrite app_nil_r, bool_decide_eq_true_2 by (cbn; lia).
    split; [done|]. split; [cbn; lia|]. split; [done|].
    unfold heap_live. store_simpl. by rewrite Hh. }
  destruct (pop_n_todo_step_queued n st (addr0 :: h0) Hh Hall)
    as (addr & e & s & h' & -> & Hperm & He & Hs & Hnz); [done|lia|].
  assert (length h' = length h0) as Hlen.
  { apply Permutation_length in Hperm. cbn in Hperm. lia. }
  destruct (IH (n - 1) (acc ++ [s]) (set_heap (Some h') st) h')
    as (new & st' & -> & Hnew & Hheap & Hlive); [done| |lia|].
  { store_simpl. rewrite Hperm in Hall. by apply Forall_cons in Hall as [_ ?]. }
  exists (s :: new), st'. rewrite <- app_assoc. cbn [app length].
  split; [|split; [|split]].
  - f_equal. rewrite Hlen.
    destruct (decide (Z.of_nat (length h0) < n - 1)).
    + by rewrite !bool_decide_eq_true_2 by lia.
    + by rewrite !bool_decide_eq_false_2 by lia.
  - lia.
  - lia.
  - rewrite (heap_live_cons st _ addr e s h' Hh Hperm He Hs).
    by constructor.
Qed.

(** X7.  [list(pop_n_todo(n))] on a heap without tombstones of [len] entries:
    [n] ids when [n <= len], leaving the rest in the heap; all [len] ids
    and then [IndexError], from the pop on the empty heap, when [n > len].
    Every id of the heap is either yielded or still there. *)
Theorem pop_n_todo_exhausts_heap :
  forall n st h,
    _heap st = Some h -> Forall (queued (ents st)) h ->
    exists ids st',
      pop_n_todo n st
      = (ids, if bool_decide (Z.of_nat (length h) < n)
              then Raise IndexError st' else Ok tt st')
      /\ length ids = Nat.min (Z.to_nat n) (length h)
      /\ heap_len st' = (length h - length ids)%nat
      /\ ids ++ heap_live st' ≡ₚ heap_live st.
Proof.
  intros n st h Hh Hall. unfold pop_n_todo.
  destruct (pop_n_todo_run_queued (S (Z.to_nat n)) n [] st h Hh Hall)
    as (new & st' & Hrun & Hrest); [lia|].
  exists new, st'. by rewrite Hrun.
Qed.

Lemma pop_n_todo_exhausts_heap_witness :
  exists ids st',
    pop_n_todo 5 (self Example.three) = (ids, Raise IndexError st')
    /\ length ids = 3%nat.
Proof.
  destruct (pop_n_todo_exhausts_heap 5 (self Example.three) [0; 1; 2]%nat)
    as (ids & st' & Hrun & Hlen & _).
  - vm_compute. reflexivity.
  - repeat constructor.
    + exists (mk_entry 1 "2015-06-01 12:00:00" (Some 5)), 5.
      split; [vm_compute; reflexivity|]. split; [reflexivity|lia].
    + exists (mk_entry 3 "2015-06-01 12:00:00" (Some 6)), 6.
      split; [vm_compute; reflexivity|]. split; [reflexivity|lia].
    + exists (mk_entry 2 "2015-06-01 12:00:00" (Some 7)), 7.
      split; [vm_compute; reflexivity|]. split; [reflexivity|lia].
  - exists ids, st'. split; [exact Hrun|exact Hlen].
Defined.

Lemma pop_n_todo_sorted_witness :
  (length [5; 7] <= Z.to_nat 2)%nat
  /\ Forall (fun s => s ∈ heap_live (self Example.three)
                      /\ has_key (self Example.three) s = true) [5; 7]
  /\ NoDup [5; 7]
  /\ StronglySorted (fun s s' => (prio_of (self Example.three) s
                                  <= prio_of (self Example.three) s')%Q) [5; 7].
Proof.
  assert (NoDup (file_seqs Example.three_doc)) as Hnd
      by (apply (bool_decide_unpack _); vm_compute; exact I).
  assert (init_from Example.three_doc Example.fresh = Ok tt (self Example.three))
    as Hinit by (vm_compute; reflexivity).
  apply (pop_n_todo_sorted 2 (self Example.three) [5; 7]
           (pop_n_todo 2 (self Example.three)).2).
  - exact (proj1 (init_from_inv _ _ _ Hnd Hinit)).
  - exact (heap_inv_init_from _ _ _ Hinit).
  - vm_compute. reflexivity.
Defined.


(** * The heap stays a heap *)

Lemma pop_n_todo_next_heap_inv fuel n : forall st r st',
  heap_inv st -> pop_n_todo_next fuel n st = Ok r st' -> heap_inv st'.
Proof.
  induction fuel as [|fuel IH]; intros st r st' Hinv; cbn [pop_n_todo_next].
  all: destruct (0 <? n); [|by intros [= <- <-]].
  all: destruct (on_heap (fun lt => heappop lt) st) as [addr st1|e st1] eqn:Hpop;
    [|done].
  all: destruct (heap_inv_heappop st addr st1 Hinv Hpop)
    as (h & h' & _ & _ & _ & Hinv1 & _).
  all: destruct (ents st1 !! addr) as [e|]; [|done].
  all: destruct (ent_seq e) as [s|]; [destruct (negb (s =? 0))|].
  all: try (by intros [= <- <-]); try done.
  all: by apply IH.
Qed.

Lemma apply_calls_heap_inv cs : forall st st',
  heap_inv st -> apply_calls cs st = Some st' -> heap_inv st'.
Proof.
  induction cs as [|c cs IH]; intros st st' Hinv; cbn [apply_calls].
  { by intros [= <-]. }
  destruct (apply_call c st) as [st1|] eqn:Hc; [|done].
  apply IH. destruct c as [a|seqs|n]; cbn [apply_call] in Hc.
  - destruct (push_new_info a st) as [[] st2|e st2] eqn:Hpush; [|done].
    injection Hc as <-. by eapply heap_inv_push.
  - pose proof (heap_inv_drop seqs st Hinv) as Hd.
    destruct (drop seqs st) as [[] st2|e st2]; [|done].
    by injection Hc as <-.
  - unfold pop_n_todo_step in Hc.
    destruct (pop_n_todo_next (heap_len st) n st) as [r st2|e st2] eqn:Hpop;
      [|done].
    injection Hc as <-. by eapply pop_n_todo_next_heap_inv.
Qed.

(** X10.  "We keep the jsonlist in minheap form": after [lock_read_init] and
    after any calls of [push_new_info], [drop] and [pop_n_todo] that
    return, the heap list is a min-heap by priority, tombstones included,
    and its first cell has the least priority of all. *)
Theorem heap_stays_min_heap :
  forall doc st0 st cs st',
    init_from doc st0 = Ok tt st ->
    apply_calls cs st = Some st' ->
    heap_inv st'
    /\ forall x t, _heap st' = Some (x :: t) ->
                   Forall (fun y => (key_of (ents st') x
                                     <= key_of (ents st') y)%Q) t.
Proof.
  intros doc st0 st cs st' Hinit Hrun.
  pose proof (heap_inv_init_from _ _ _ Hinit) as Hinv.
  pose proof (apply_calls_heap_inv cs st st' Hinv Hrun) as Hinv'.
  split; [done|]. intros x t Hh. unfold heap_inv in Hinv'. rewrite Hh in Hinv'.
  destruct Hinv' as [_ Hheap].
  exact (is_heap_root (by_priority (ents st')) (by_priority_trans _) x t Hheap).
Qed.

Lemma heap_stays_min_heap_witness : heap_inv Sample.after_overwriting.
Proof.
  assert (init_from Example.three_doc Example.fresh = Ok tt (self Example.three))
    as Hinit by (vm_compute; reflexivity).
  assert (apply_calls Sample.overwriting (self Example.three)
          = Some Sample.after_overwriting) as Hrun by (vm_compute; reflexivity).
  exact (proj1 (heap_stays_min_heap _ _ _ _ _ Hinit Hrun)).
Defined.

(** * Storing and looking up *)

(** X11.  [push_new_info(ali)] that returns, then [self[ali.seq]]: the record
    pushed, wired to a new heap entry that carries its priority, time and
    id.  Every other key holds what it held, and the heap list is one cell
    longer. *)
Theorem push_new_info_then_getitem :
  forall a st st',
    push_new_info a st = Ok tt st' ->
    let addr := length (ents st) in
    __getitem__ (AliquotSequence.seq a) st'
    = Ok (AliquotSequence.set_heap_entry (Some addr) a) st'
    /\ ents st' = ents st ++ [mk_entry (AliquotSequence.priority a)
                                       (AliquotSequence.time a)
                                       (Some (AliquotSequence.seq a))]
    /\ (forall k, k <> AliquotSequence.seq a ->
          res_of st' k = res_of st k
          /\ has_key st' k = has_key st k
          /\ raised (__getitem__ k st') = raised (__getitem__ k st))
    /\ heap_len st' = S (heap_len st).
Proof.
  intros a st st' Hrun addr.
  apply push_new_info_Ok in Hrun as (d & h & h' & Hd & Hh & Hperm & ->).
  unfold with_record, __getitem__, res_of, has_key, heap_len. store_simpl.
  rewrite Hd, Hh, lookup_insert_eq. split; [done|]. split; [done|].
  split.
  - intros k Hk. cbn. rewrite lookup_insert_ne by done.
    split; [done|]. split; [done|]. by destruct (d !! k).
  - apply Permutation_length in Hperm. by rewrite Hperm.
Qed.

Lemma push_new_info_then_getitem_witness :
  heap_len (state_of (push_new_info (Example.record 9 1 "bob")
                                    (self Example.three))) = 4%nat
  /\ has_key (state_of (push_new_info (Example.record 9 1 "bob")
                                      (self Example.three))) 5
     = has_key (self Example.three) 5.
Proof.
  assert (push_new_info (Example.record 9 1 "bob") (self Example.three)
          = Ok tt (state_of (push_new_info (Example.record 9 1 "bob")
                                           (self Example.three)))) as Hrun
      by (vm_compute; reflexivity).
  destruct (push_new_info_then_getitem _ _ _ Hrun) as (_ & _ & Hframe & Hlen).
  split; [exact Hlen|].
  destruct (Hframe 5) as (_ & Hkey & _); [|exact Hkey].
  vm_compute. intros H. discriminate H.
Defined.

(** * AliquotSequence, continued *)

Lemma str_length_app (s t : string) :
  String.length (s ++ t) = (String.length s + String.length t)%nat.
Proof. induction s as [|c s IH]; [done|]. simpl. f_equal. exact IH. Qed.

Lemma spaces_length n : String.length (spaces n) = n.
Proof. induction n as [|n IH]; [done|]. simpl. f_equal. exact IH. Qed.

Lemma rjust_length w s :
  String.length (rjust w s) = Nat.max w (String.length s).
Proof. unfold rjust. rewrite str_length_app, spaces_length. lia. Qed.


(** X13.  [AliquotSequence(lst=l)] raises [ValueError] exactly when [l] does not
    have the fourteen cells of [_map]; the list of a record has fourteen
    cells and gives the record back. *)
Theorem of_list_wants_fourteen_cells :
  (forall l, AliquotSequence.of_list l = inl ValueError <-> length l <> 14%nat)
  /\ (forall a, length (AliquotSequence.to_list a) = 14%nat
                /\ AliquotSequence.of_list (AliquotSequence.to_list a)
                   = inr (detached a)).
Proof.
  split.
  - intros l. unfold AliquotSequence.of_list.
    do 14 (destruct l as [|? l]; [split; [cbn; lia|done]|]).
    destruct l as [|? l]; [|split; [cbn; lia|done]].
    split; [|cbn; lia]. intros H. exfalso.
    repeat match type of H with
           | match ?x with _ => _ end = _ => destruct x
           end; discriminate H.
  - intros a. split; [done|]. apply of_list_to_list.
Qed.

(** X14.  [str(ali)]: a line for a record with a non-zero [seq], positive [size]
    and [index] and non-empty [factors], [ValueError] for any other.  The
    line has the three numbers right-aligned in columns of at least 7, 5
    and 3 characters, so at least 22 characters before the factors. *)
Theorem str_line_of_record :
  forall a,
    match AliquotSequence.__str__ a with
    | inr line =>
      AliquotSequence.seq a <> 0
      /\ AliquotSequence.factors a <> EmptyString
      /\ exists sz ix,
           AliquotSequence.size a = Some sz /\ 0 < sz
           /\ AliquotSequence.index a = Some ix /\ 0 < ix
           /\ String.length line
              = (Nat.max 7 (String.length (str_of_Z (AliquotSequence.seq a)))
                 + Nat.max 5 (String.length (str_of_Z ix))
                 + Nat.max 3 (String.length (str_of_Z sz))
                 + 7 + String.length (AliquotSequence.factors a))%nat
    | inl e =>
      e = ValueError
      /\ (AliquotSequence.seq a = 0
          \/ AliquotSequence.factors a = EmptyString
          \/ (forall sz, AliquotSequence.size a = Some sz -> sz <= 0)
          \/ (forall ix, AliquotSequence.index a = Some ix -> ix <= 0))
    end.
Proof.
  intros a. unfold AliquotSequence.__str__, AliquotSequence.is_valid,
              AliquotSequence.positive_cell.
  destruct (AliquotSequence.seq a =? 0) eqn:Hs; cbn [negb andb].
  { apply Z.eqb_eq in Hs. split; [done|]. by left. }
  apply Z.eqb_neq in Hs.
  destruct (AliquotSequence.size a) as [sz|]; cbn [andb].
  2:{ split; [done|]. right. right. left. by intros sz. }
  destruct (0 <? sz) eqn:Hsz; rewrite ?andb_false_r; cbn [andb].
  2:{ split; [done|]. right. right. left. intros ? [= <-].
      by apply Z.ltb_ge in Hsz. }
  apply Z.ltb_lt in Hsz.
  assert (negb (sz =? 0) = true) as -> by (apply negb_true_iff, Z.eqb_neq; lia).
  cbn [andb].
  destruct (AliquotSequence.index a) as [ix|]; cbn [andb].
  2:{ split; [done|]. right. right. right. by intros ix. }
  destruct (0 <? ix) eqn:Hix; rewrite ?andb_false_r; cbn [andb].
  2:{ split; [done|]. right. right. right. intros ? [= <-].
      by apply Z.ltb_ge in Hix. }
  apply Z.ltb_lt in Hix.
  assert (negb (ix =? 0) = true) as -> by (apply negb_true_iff, Z.eqb_neq; lia).
  cbn [andb].
  destruct (String.eqb (AliquotSequence.factors a) EmptyString) eqn:Hf;
    cbn [negb].
  { apply String.eqb_eq in Hf. split; [done|]. right. by left. }
  apply String.eqb_neq in Hf.
  split; [done|]. split; [done|]. exists sz, ix.
  split; [done|]. split; [done|]. split; [done|]. split; [done|].
  rewrite !str_length_app, !rjust_length. cbn [String.length]. lia.
Qed.







(** * Reservations, continued *)

Lemma reserve_seqs_state name seqs d st :
  state_of (reserve_seqs name seqs (loaded d st))
  = loaded (reserve_map name seqs d) st.
Proof.
  unfold reserve_seqs.
  destruct (reserve_loop_spec name st seqs d [] [] []) as (A' & -> & _). done.
Qed.

Lemma unreserve_seqs_state name seqs d st :
  state_of (unreserve_seqs name seqs (loaded d st))
  = loaded (unreserve_map name seqs d) st.
Proof.
  unfold unreserve_seqs.
  destruct (unreserve_loop_spec name st seqs d [] [] []) as (N' & -> & _). done.
Qed.

Lemma res_set_res v a : AliquotSequence.res (AliquotSequence.set_res v a) = v.
Proof. done. Qed.

Ltac str_cases :=
  unfold is_empty_str;
  repeat (cbn [negb andb]; rewrite ?res_set_res, ?set_res_set_res;
          match goal with
          | |- context [String.eqb ?s ?t] => destruct (String.eqb_spec s t)
          | |- context [bool_decide ?P] => destruct (bool_decide P)
          end);
  cbn [negb andb] in *; rewrite ?res_set_res, ?set_res_set_res in *;
  try done; try congruence; subst; rewrite ?set_res_id;
  repeat match goal with
         | H : AliquotSequence.res ?a = ?v |- context [AliquotSequence.set_res ?v ?a] =>
           rewrite <- H at 1; rewrite set_res_id
         | H : ?v = AliquotSequence.res ?a |- context [AliquotSequence.set_res ?v ?a] =>
           rewrite H at 1; rewrite set_res_id
         end;
  try done; try congruence.

Lemma reserve_map_twice name seqs d :
  reserve_map name seqs (reserve_map name seqs d) = reserve_map name seqs d.
Proof.
  apply map_eq. intros k. rewrite !lookup_reserve_map.
  destruct (d !! k) as [a|]; [|done]. cbn. f_equal. str_cases.
Qed.

Lemma unreserve_map_twice name seqs d :
  unreserve_map name seqs (unreserve_map name seqs d) = unreserve_map name seqs d.
Proof.
  apply map_eq. intros k. rewrite !lookup_unreserve_map.
  destruct (d !! k) as [a|]; [|done]. cbn. f_equal. str_cases.
Qed.

Lemma unreserve_reserve_map name seqs d :
  unreserve_map name seqs (reserve_map name seqs d) = unreserve_map name seqs d.
Proof.
  apply map_eq. intros k.
  rewrite !lookup_unreserve_map, lookup_reserve_map.
  destruct (d !! k) as [a|]; [|done]. cbn. f_equal. str_cases.
Qed.

Lemma reserve_unreserve_map name seqs d :
  reserve_map name seqs (unreserve_map name seqs d) = reserve_map name seqs d.
Proof.
  apply map_eq. intros k.
  rewrite !lookup_reserve_map, lookup_unreserve_map.
  destruct (d !! k) as [a|]; [|done]. cbn. f_equal. str_cases.
Qed.

(** X17.  Reserving and unreserving the same ids for the same name is decided by
    the last call: either call repeated changes nothing more, a
    reservation followed by its unreservation leaves what the
    unreservation alone leaves, and the other way round. *)
Theorem reservation_calls_absorb :
  forall st d name seqs,
    state_of (reserve_seqs name seqs
                (state_of (reserve_seqs name seqs (loaded d st))))
    = state_of (reserve_seqs name seqs (loaded d st))
    /\ state_of (unreserve_seqs name seqs
                   (state_of (unreserve_seqs name seqs (loaded d st))))
       = state_of (unreserve_seqs name seqs (loaded d st))
    /\ state_of (unreserve_seqs name seqs
                   (state_of (reserve_seqs name seqs (loaded d st))))
       = state_of (unreserve_seqs name seqs (loaded d st))
    /\ state_of (reserve_seqs name seqs
                   (state_of (unreserve_seqs name seqs (loaded d st))))
       = state_of (reserve_seqs name seqs (loaded d st)).
Proof.
  intros st d name seqs.
  repeat (rewrite ?reserve_seqs_state, ?unreserve_seqs_state).
  by rewrite reserve_map_twice, unreserve_map_twice, unreserve_reserve_map,
    reserve_unreserve_map.
Qed.

(** * Merges *)












(** * Statistics *)









(** Two sequences of different lengths: the statistics are returned, with
    one row for each length in increasing order. *)
Lemma calc_common_stats_returns :
  exists r,
    calc_common_stats Sample.mixed = Ok r Sample.mixed
    /\ map fst (lentable r) = [(900, 1); (1000, 1)]
    /\ tot_prog r = 2.
Proof. eexists. vm_compute. repeat split; reflexivity. Qed.

(** * The reservation update *)


























(** * Pushing next to a tombstone *)

(** X12.  [drop] leaves the tombstone [[priority, time, None]] in the heap, and
    Python does not order [None] against an integer.  A record pushed into
    the leaf whose parent cell is a tombstone with the same priority and
    time makes [heappush] raise [TypeError] at its first comparison; by
    then the record is in the id map and its entry is the last cell of the
    heap list. *)
Theorem push_new_info_onto_tombstone :
  forall a st d h parent e,
    _data st = Some d -> _heap st = Some h ->
    h !! ((length h - 1) / 2)%nat = Some parent ->
    ents st !! parent = Some e ->
    ent_seq e = None ->
    Qeq_bool (AliquotSequence.priority a) (ent_priority e) = true ->
    AliquotSequence.time a = ent_time e ->
    push_new_info a st
    = Raise TypeError
        (set_heap (Some (h ++ [length (ents st)]))
           (with_record a d h st)).
Proof.
  intros a st d h parent e Hd Hh Hparent He Hseq Hprio Htime.
  assert (h <> []) as Hne by (intros ->; by rewrite lookup_nil in Hparent).
  assert (parent < length (ents st))%nat as Hlt by (by eapply lookup_lt_Some).
  unfold push_new_info, bind, data_setitem, _make_heap_entry.
  rewrite Hd. store_simpl. rewrite Hh. store_simpl.
  unfold on_heap. store_simpl. rewrite Hh.
  unfold heappush, _siftdown.
  rewrite length_app. cbn [length].
  replace (length h + 1 - 1)%nat with (length h) by lia.
  rewrite lookup_app_r by lia. rewrite Nat.sub_diag. cbn [lookup list_lookup].
  destruct (length h) as [|n] eqn:Hlen; [by destruct h|].
  cbn [_siftdown_loop].
  replace (0 <? S n)%nat with true by (symmetry; apply Nat.ltb_lt; lia).
  assert ((S n - 1) / 2 < length h)%nat as Hp
      by exact (lookup_lt_Some h _ parent Hparent).
  rewrite lookup_app_l by done. rewrite Hparent.
  unfold ref_lt.
  rewrite lookup_app_r by lia. rewrite Nat.sub_diag. cbn [lookup list_lookup].
  rewrite lookup_app_l by done. rewrite He.
  unfold entry_lt. cbn [ent_priority ent_time ent_seq].
  rewrite Hprio, <- Htime, String.eqb_refl, Hseq. cbn [negb].
  unfold with_record. store_simpl. by rewrite insert_insert_eq.
Qed.

Lemma push_new_info_onto_tombstone_witness :
  raised (push_new_info (Example.record 5 1 "") Sample.dropped) = Some TypeError
  /\ has_key (state_of (push_new_info (Example.record 5 1 "") Sample.dropped)) 5
     = true.
Proof.
  rewrite (push_new_info_onto_tombstone
             (Example.record 5 1 "") Sample.dropped ∅ [0%nat] 0%nat
             (mk_entry 1 "2015-06-01 12:00:00" None)).
  - split; vm_compute; reflexivity.
  - vm_compute. reflexivity.
  - vm_compute. reflexivity.
  - vm_compute. reflexivity.
  - vm_compute. reflexivity.
  - reflexivity.
  - vm_compute. reflexivity.
  - reflexivity.
Defined.
